(** * tool_main.c of ios_system's curl: argument translation and lifecycle

    A shallow embedding of [src/curl/curl/src/tool_main.c]:
    - [scp_convert] (lines 245-316), the rewriting of an [scp]/[sftp]
      command line into a [curl] command line;
    - [main_init], [free_config_fields], [main_free] (lines 130-228), the
      global constructor and destructor;
    - [curl_main] (lines 321-369), the entry point;
    - [main_checkfds] (lines 75-91) and [memory_tracking_init] (lines
      94-120), each on its own: [curl_main] records the first as one
      call and is taken without [CURLDEBUG], where the second is empty.

    C strings are byte buffers read up to their first NUL; [argv] is a
    list of such buffers and pointers into it are (block, offset) pairs,
    so that the in-place edit of line 265 is visible.  Undefined
    behaviour of the C program (a store past the end of [argv2], a read
    before the start of a string) is an explicit [Undefined] result.
    [argc] and [argc2] are natural numbers: no command line comes near
    the range of [int].  The allocations of [scp_convert] ([malloc],
    [strdup], [asprintf]), whose results the source does not test, are
    taken to succeed; the one of [main_init], which it does test, may
    fail.  What lies outside the file (libcurl, [operate], [helpf],
    [stat], the C library's streams) answers through [Collaborators] and
    is recorded, call by call, in the [log] of the [World]. *)

From Stdlib Require Import ZArith Ascii String.
From stdpp Require Import base tactics option list strings gmap.

Local Open Scope Z_scope.
Local Open Scope nat_scope.

(** ** C strings *)

Abbreviation cs := list_ascii_of_string.

Definition NUL : ascii := Ascii.zero.
Definition TAB : ascii := ascii_of_nat 9.
Definition LF : ascii := ascii_of_nat 10.

(** The C string that starts at the head of a byte sequence: the bytes
    before the first NUL (the terminator that closes every buffer is not
    stored). *)
Fixpoint cstr (b : list ascii) : list ascii :=
  match b with
  | [] => []
  | c :: r => if decide (c = NUL) then [] else c :: cstr r
  end.

(** [strstr(hay, needle)] for the one-character needles of this file
    (":" and "/"): the offset of the first occurrence, [None] for NULL. *)
Fixpoint strstr (hay : list ascii) (c : ascii) : option nat :=
  match hay with
  | [] => None
  | x :: r => if decide (x = c) then Some 0 else S <$> strstr r c
  end.

(** ** Undefined behaviour as a result *)

Inductive fault :=
  | StoreOutOfBounds (index capacity : nat)
  | BadRead
  | OutOfFuel.

Inductive res (A : Type) :=
  | Ok (a : A)
  | Undefined (f : fault).
Arguments Ok {A} a.
Arguments Undefined {A} f.

#[global] Instance res_ret : MRet res := λ A a, Ok a.
#[global] Instance res_bind : MBind res := λ A B f m,
  match m with Ok a => f a | Undefined e => Undefined e end.

(** ** Pointers into [argv] *)

Record ptr := Ptr { blk : nat; off : nat }.

Definition ptr_add (p : ptr) (k : nat) : ptr := Ptr (blk p) (off p + k).

(** The string a [char*] points to. Offset [length b] is the buffer's own
    terminator. *)
Definition load (mem : list (list ascii)) (p : ptr) : res (list ascii) :=
  match mem !! blk p with
  | Some b => if decide (off p ≤ length b) then Ok (cstr (drop (off p) b))
              else Undefined BadRead
  | None => Undefined BadRead
  end.

(** [*p = c]. *)
Definition poke (mem : list (list ascii)) (p : ptr) (c : ascii)
  : res (list (list ascii)) :=
  match mem !! blk p with
  | Some b => if decide (off p < length b)
              then Ok (<[blk p := <[off p := c]> b]> mem)
              else Undefined BadRead
  | None => Undefined BadRead
  end.

(** ** The scan of [scp_convert] *)

(** An entry of the [malloc]ed array [argv2]. *)
Inductive cell :=
  | Junk
  | Null
  | Str (s : list ascii).

Record scan := Scan {
  argv : list (list ascii);
  argv2 : list cell;
  argc2 : nat;
  localFileName : option ptr;
  distantFileName : option ptr
}.

Definition set_argv (m : list (list ascii)) (st : scan) : scan :=
  Scan m (argv2 st) (argc2 st) (localFileName st) (distantFileName st).
Definition set_local (p : ptr) (st : scan) : scan :=
  Scan (argv st) (argv2 st) (argc2 st) (Some p) (distantFileName st).
Definition set_distant (p : ptr) (st : scan) : scan :=
  Scan (argv st) (argv2 st) (argc2 st) (localFileName st) (Some p).

Definition set_argc2 (n : nat) (st : scan) : scan :=
  Scan (argv st) (argv2 st) n (localFileName st) (distantFileName st).

(** [argc2++] *)
Definition bump (st : scan) : scan :=
  Scan (argv st) (argv2 st) (S (argc2 st)) (localFileName st) (distantFileName st).

(** [argv2[argc2] = v]; the array has the capacity it was allocated with. *)
Definition store (v : cell) (st : scan) : res scan :=
  if decide (argc2 st < length (argv2 st))
  then Ok (Scan (argv st) (<[argc2 st := v]> (argv2 st)) (argc2 st)
             (localFileName st) (distantFileName st))
  else Undefined (StoreOutOfBounds (argc2 st) (length (argv2 st))).

(** [argv[i][0] == '-'] *)
Definition starts_with_dash (tok : list ascii) : bool :=
  match tok with
  | c :: _ => bool_decide (c = "-"%char)
  | [] => false
  end.

(** Lines 257-258: [-q] becomes [-s], any other flag is copied. *)
Definition flag_rewrite (tok : list ascii) : list ascii :=
  if decide (tok = cs "-q") then cs "-s" else tok.

(** Line 268: [while ((position = strstr(distantFileName, "/")) != NULL)
    distantFileName = position + 1;].  Each round moves the pointer at
    least one byte forward, so [fuel] above the string's length is never
    used up. *)
Fixpoint skip_dirs (fuel : nat) (mem : list (list ascii)) (d : ptr) : res ptr :=
  match fuel with
  | 0 => Undefined OutOfFuel
  | S fuel =>
      s ← load mem d;
      match strstr s "/"%char with
      | Some k => skip_dirs fuel mem (ptr_add d (S k))
      | None => Ok d
      end
  end.

Arguments skip_dirs : simpl never.

Section Scan.

(** [stat(path, &buf) == 0] and [S_ISDIR(buf.st_mode)]: [None] when the
    call fails, [Some d] with [d] the directory bit otherwise. *)
Variable stat : list ascii → option bool.

(** One round of the loop of lines 253-300, for index [i]; the final
    [bump] is the [argc2++] of the [for] header. *)
Definition scp_body (protocol : ptr) (i : nat) (st : scan) : res scan :=
  let arg := Ptr i 0 in
  tok ← load (argv st) arg;
  if starts_with_dash tok
     || (bool_decide (is_Some (distantFileName st))
         && bool_decide (is_Some (localFileName st)))
  then
    st ← store (Str (flag_rewrite tok)) st;
    Ok (bump st)
  else
    match strstr tok ":"%char with
    | Some k =>
        let position := Ptr i k in
        let st := set_distant (ptr_add position 1) st in
        mem ← poke (argv st) position NUL;
        let st := set_argv mem st in
        proto ← load mem protocol;
        host ← load mem arg;
        path ← load mem (ptr_add position 1);
        st ← store (Str (proto ++ cs "://" ++ host ++ cs "/" ++ path)) st;
        d ← skip_dirs (S (length path)) mem (ptr_add position 1);
        Ok (bump (set_distant d st))
    | None =>
        let st := set_local arg st in
        match distantFileName st with
        | None =>
            st ← store (Str (cs "-T")) st;
            st ← store (Str tok) (bump st);
            Ok (bump st)
        | Some d =>
            if bool_decide (length tok = 1) && bool_decide (tok = cs ".")
            then
              st ← store (Str (cs "-O")) st;
              Ok (bump st)
            else
              st ← store (Str (cs "-o")) st;
              let st := bump st in
              last ← match length tok with
                     | 0 => Undefined BadRead
                     | S n => Ok (tok !! n)
                     end;
              if bool_decide (last = Some "/"%char)
              then
                base ← load (argv st) d;
                st ← store (Str (tok ++ base)) st;
                Ok (bump st)
              else
                match stat tok with
                | Some true =>
                    base ← load (argv st) d;
                    st ← store (Str (tok ++ cs "/" ++ base)) st;
                    Ok (bump st)
                | _ =>
                    st ← store (Str tok) st;
                    Ok (bump st)
                end
        end
    end.

(** [for (i = 1, argc2 = 1; i < argc; i++, argc2++)] over the indices
    still to visit. *)
Fixpoint scp_loop (protocol : ptr) (todo : list nat) (st : scan) : res scan :=
  match todo with
  | [] => Ok st
  | i :: todo => st ← scp_body protocol i st; scp_loop protocol todo st
  end.

(** Lines 246-252 and the first [n] rounds of the loop, with the
    capacity of [argv2] as a parameter. *)
Definition scp_prefix (cap n : nat) (argv : list (list ascii)) : res scan :=
  st ← store (Str (cs "curl")) (Scan argv (replicate cap Junk) 0 None None);
  scp_loop (Ptr 0 0) (seq 1 n) (set_argc2 1 st).

(** Lines 246-301: all [argc - 1] rounds, then [argv2[argc2] = NULL]. *)
Definition scp_scan_cap (cap argc : nat) (argv : list (list ascii)) : res scan :=
  st ← scp_prefix cap (argc - 1) argv;
  store Null st.

End Scan.

(** ** The world around the program *)

Inductive stream :=
  | thread_stderr
  | File (fd : nat).

(** The one [struct GlobalConfig] of a run, [global] in [curl_main]. *)
Inductive gref := TheGlobal.

(** Modelled from the spec: [struct GlobalConfig] and
    [struct OperationConfig] are declared in [tool_cfgable.h], which is
    not part of the sources at hand.  The records hold the fields that
    [tool_main.c] reads or writes; pointers are [option]s with [None]
    for NULL, heap addresses and easy handles are numbers. *)
Record OperationConfig := OpConfig {
  oc_easy : option nat;
  oc_global : option gref
}.

Record GlobalConfig := Global {
  easy : option nat;
  showerror : Z;
  errors : option stream;
  errors_fopened : bool;
  trace_dump : option nat;
  trace_stream : option stream;
  trace_fopened : bool;
  libcurl : option nat;
  first : option nat;
  last : option nat
}.

(** [memset(&global, 0, sizeof(global))] *)
Definition zeroed : GlobalConfig :=
  Global None 0 None false None None false None None None.

Definition set_easy (v : option nat) (c : GlobalConfig) : GlobalConfig :=
  Global v (showerror c) (errors c) (errors_fopened c) (trace_dump c)
    (trace_stream c) (trace_fopened c) (libcurl c) (first c) (last c).
Definition set_showerror (v : Z) (c : GlobalConfig) : GlobalConfig :=
  Global (easy c) v (errors c) (errors_fopened c) (trace_dump c)
    (trace_stream c) (trace_fopened c) (libcurl c) (first c) (last c).
Definition set_errors (v : option stream) (c : GlobalConfig) : GlobalConfig :=
  Global (easy c) (showerror c) v (errors_fopened c) (trace_dump c)
    (trace_stream c) (trace_fopened c) (libcurl c) (first c) (last c).
Definition set_trace_dump (v : option nat) (c : GlobalConfig) : GlobalConfig :=
  Global (easy c) (showerror c) (errors c) (errors_fopened c) v
    (trace_stream c) (trace_fopened c) (libcurl c) (first c) (last c).
Definition set_trace_stream (v : option stream) (c : GlobalConfig) : GlobalConfig :=
  Global (easy c) (showerror c) (errors c) (errors_fopened c) (trace_dump c)
    v (trace_fopened c) (libcurl c) (first c) (last c).
Definition set_libcurl (v : option nat) (c : GlobalConfig) : GlobalConfig :=
  Global (easy c) (showerror c) (errors c) (errors_fopened c) (trace_dump c)
    (trace_stream c) (trace_fopened c) v (first c) (last c).
Definition set_first (v : option nat) (c : GlobalConfig) : GlobalConfig :=
  Global (easy c) (showerror c) (errors c) (errors_fopened c) (trace_dump c)
    (trace_stream c) (trace_fopened c) (libcurl c) v (last c).
Definition set_last (v : option nat) (c : GlobalConfig) : GlobalConfig :=
  Global (easy c) (showerror c) (errors c) (errors_fopened c) (trace_dump c)
    (trace_stream c) (trace_fopened c) (libcurl c) (first c) v.

(** Calls that leave the file, in the order they are made. *)
Inductive event :=
  | EvCheckFds
  | EvMalloc (r : option nat)
  | EvFree (p : nat)
  | EvGlobalInit (r : Z)
  | EvLibInfo (r : Z)
  | EvEasyInit (r : option nat)
  | EvConfigInit (p : nat)
  | EvHelpf (msg : list ascii)
  | EvFprintf (text : list ascii)
  | EvOperate (argc : nat) (args : list (list ascii)) (r : Z)
  | EvEasyCleanup (h : option nat)
  | EvGlobalCleanup
  | EvConvertCleanup
  | EvMetalinkCleanup
  | EvFclose (f : stream)
  | EvConfigFree (p : option nat)
  | EvFreeArgv2 (cells : list cell).

#[global] Instance cell_eq_dec : EqDecision cell.
Proof. solve_decision. Defined.
#[global] Instance stream_eq_dec : EqDecision stream.
Proof. solve_decision. Defined.
#[global] Instance event_eq_dec : EqDecision event.
Proof. solve_decision. Defined.

(** The heap of [OperationConfig] nodes ([None] for a node that was
    allocated and not yet initialised) and the calls made so far. *)
Record World := Wld {
  nodes : gmap nat (option OperationConfig);
  log : list event
}.

Definition emit (e : event) (w : World) : World :=
  Wld (nodes w) (log w ++ [e]).
Definition set_node (p : nat) (n : option OperationConfig) (w : World) : World :=
  Wld (<[p := n]> (nodes w)) (log w).
Definition drop_node (p : nat) (w : World) : World :=
  Wld (delete p (nodes w)) (log w).

(** What the collaborators answer. Each of them is called at most once
    in a run of [curl_main], so one answer each covers every run. *)
Record Collaborators := Collab {
  malloc_config : option nat;
  curl_global_init : Z;
  get_libcurl_info : Z;
  curl_easy_init : option nat;
  operate : GlobalConfig → nat → list (list ascii) → GlobalConfig * Z;
  stat : list ascii → option bool
}.

(** [curl.h]: [CURLE_OK] is 0 and [CURLE_FAILED_INIT] is 2. *)
Definition CURLE_OK : Z := 0.
Definition CURLE_FAILED_INIT : Z := 2.

(** [free(p)] of a node. *)
Definition free (p : nat) (w : World) : World := drop_node p (emit (EvFree p) w).

(** [Curl_safefree(p)]: [free(p); p = NULL], where [free(NULL)] does
    nothing. *)
Definition Curl_safefree (p : option nat) (w : World) : World :=
  match p with
  | Some a => emit (EvFree a) w
  | None => w
  end.

(** ** Lines 130-183 *)
Definition main_init (E : Collaborators) (config : GlobalConfig) (w : World)
  : Z * GlobalConfig * World :=
  let result := CURLE_OK in
  let config := set_showerror (-1) config in
  let config := set_errors (Some thread_stderr) config in
  let m := malloc_config E in
  let w := emit (EvMalloc m) w in
  let config := set_last m config in
  let config := set_first (last config) config in
  match first config with
  | Some node =>
      let w := set_node node None w in
      let result := curl_global_init E in
      let w := emit (EvGlobalInit result) w in
      if decide (result = 0%Z) then
        let result := get_libcurl_info E in
        let w := emit (EvLibInfo result) w in
        if decide (result = 0%Z) then
          let h := curl_easy_init E in
          let w := emit (EvEasyInit h) w in
          let config := set_easy h config in
          match easy config with
          | Some _ =>
              let w := set_node node (Some (OpConfig None None))
                         (emit (EvConfigInit node) w) in
              let w := set_node node (Some (OpConfig (easy config) None)) w in
              let w := set_node node
                         (Some (OpConfig (easy config) (Some TheGlobal))) w in
              (result, config, w)
          | None =>
              let w := emit (EvHelpf (cs "error initializing curl easy handle" ++ [LF])) w in
              let result := CURLE_FAILED_INIT in
              let w := free node w in
              (result, config, w)
          end
        else
          let w := emit (EvHelpf (cs "error retrieving curl library information" ++ [LF])) w in
          let w := free node w in
          (result, config, w)
      else
        let w := emit (EvHelpf (cs "error initializing curl library" ++ [LF])) w in
        let w := free node w in
        (result, config, w)
  | None =>
      let w := emit (EvHelpf (cs "error initializing curl" ++ [LF])) w in
      let result := CURLE_FAILED_INIT in
      (result, config, w)
  end.

(** ** Lines 185-198 *)
Definition free_config_fields (config : GlobalConfig) (w : World)
  : GlobalConfig * World :=
  let w := Curl_safefree (trace_dump config) w in
  let config := set_trace_dump None config in
  let w := match errors config with
           | Some f => if errors_fopened config then emit (EvFclose f) w else w
           | None => w
           end in
  let config := set_errors None config in
  let w := match trace_stream config with
           | Some f => if trace_fopened config then emit (EvFclose f) w else w
           | None => w
           end in
  let config := set_trace_stream None config in
  let w := Curl_safefree (libcurl config) w in
  let config := set_libcurl None config in
  (config, w).

(** Modelled from the spec: [config_free] is defined in
    [tool_cfgable.c], not in the sources at hand; it releases the nodes
    of the chain that ends in its argument, which after [main_init] is
    the one node allocated there. *)
Definition config_free (p : option nat) (w : World) : World :=
  let w := emit (EvConfigFree p) w in
  match p with
  | Some a => drop_node a w
  | None => w
  end.

(** ** Lines 204-228 (the [USE_NSS] block is not compiled in) *)
Definition main_free (config : GlobalConfig) (w : World) : GlobalConfig * World :=
  let w := emit (EvEasyCleanup (easy config)) w in
  let config := set_easy None config in
  let w := emit EvGlobalCleanup w in
  let w := emit EvConvertCleanup w in
  let w := emit EvMetalinkCleanup w in
  let '(config, w) := free_config_fields config w in
  let w := config_free (last config) w in
  let config := set_first None config in
  let config := set_last None config in
  (config, w).

(** ** Lines 245-316 *)

(** The strings that [argv2[0]], ..., [argv2[n-1]] point to, as the
    callee and the [free] loop read them. *)
Fixpoint cells_strings (l : list cell) : res (list (list ascii)) :=
  match l with
  | [] => Ok []
  | Str s :: r => r ← cells_strings r; Ok (s :: r)
  | _ => Undefined BadRead
  end.

Definition usage_upload_first (protocol : list ascii) : list ascii :=
  [TAB] ++ protocol ++ cs " [-q] localFile [user@]host:distantFile " ++ [LF].
Definition usage_download_first (protocol : list ascii) : list ascii :=
  cs "Usage:" ++ [TAB] ++ protocol
    ++ cs " [-q] [user@]host:distantFile localFile" ++ [LF].

(** [curl_main] is the entry point the translated list is handed to
    ([curl_static_main] under [BLINKSHELL]).  The result carries [argv]
    as the caller finds it afterwards. *)
Definition scp_convert (E : Collaborators)
    (curl_main : nat → list (list ascii) → World → res (Z * World))
    (argc : nat) (argv_in : list (list ascii)) (w : World)
  : res (list (list ascii) * Z * World) :=
  st ← scp_scan_cap (stat E) (argc + 2) argc argv_in;
  '(returnValue, w) ←
    (if bool_decide (is_Some (localFileName st))
        && bool_decide (is_Some (distantFileName st))
     then
       args ← cells_strings (take (argc2 st) (argv2 st));
       curl_main (argc2 st) args w
     else
       protocol ← load (argv st) (Ptr 0 0);
       let w := emit (EvFprintf (usage_download_first protocol)) w in
       let w := emit (EvFprintf (usage_upload_first protocol)) w in
       Ok ((-1)%Z, w));
  let w := emit (EvFreeArgv2 (take (argc2 st) (argv2 st))) w in
  Ok (argv st, returnValue, w).

(** ** Lines 321-369 *)

(** [curl_main] re-enters itself through [scp_convert]; [fuel] bounds
    the nesting ([curl_main_fuel] below: two levels are all there is). *)
Fixpoint curl_main (E : Collaborators) (fuel : nat)
    (argc : nat) (argv : list (list ascii)) (w : World) : res (Z * World) :=
  match fuel with
  | 0 => Undefined OutOfFuel
  | S fuel =>
      name ← load argv (Ptr 0 0);
      if bool_decide (name = cs "scp") || bool_decide (name = cs "sftp")
      then
        '(_, returnValue, w) ← scp_convert E (curl_main E fuel) argc argv w;
        Ok (returnValue, w)
      else
        let global := zeroed in
        let w := emit EvCheckFds w in
        let '(result, global, w) := main_init E global w in
        if decide (result = 0%Z) then
          let '(global, result) := operate E global argc argv in
          let w := emit (EvOperate argc argv result) w in
          let '(global, w) := main_free global w in
          Ok (result, w)
        else
          Ok (result, w)
  end.

(** An empty heap and no call made yet. *)
Definition boot : World := Wld ∅ [].

(** ** Resources, read off the calls *)

Inductive resource :=
  | RMem (p : nat)
  | REngine
  | RHandle (h : nat).

#[global] Instance resource_eq_dec : EqDecision resource.
Proof. solve_decision. Defined.

(** What a call acquires: [malloc] a block when it does not return NULL,
    [curl_global_init] the engine when it returns [CURLE_OK],
    [curl_easy_init] a handle when it does not return NULL. *)
Definition acquires (e : event) : list resource :=
  match e with
  | EvMalloc (Some p) => [RMem p]
  | EvGlobalInit 0%Z => [REngine]
  | EvEasyInit (Some h) => [RHandle h]
  | _ => []
  end.

(** What a call releases. *)
Definition releases (e : event) : list resource :=
  match e with
  | EvFree p => [RMem p]
  | EvConfigFree (Some p) => [RMem p]
  | EvGlobalCleanup => [REngine]
  | EvEasyCleanup (Some h) => [RHandle h]
  | _ => []
  end.

Definition acquired (l : list event) : list resource := l ≫= acquires.
Definition released (l : list event) : list resource := l ≫= releases.

(** The calls made between two worlds. *)
Definition since (w w' : World) : list event := drop (length (log w)) (log w').

Definition is_operate (e : event) : bool :=
  match e with EvOperate _ _ _ => true | _ => false end.

(** How often [operate] was entered; how often [main_free] was, each of
    whose runs calls [curl_global_cleanup] once and is alone in doing so. *)
Definition operate_calls (l : list event) : nat := length (filter is_operate l).
Definition teardowns (l : list event) : nat :=
  length (filter (λ e, bool_decide (e = EvGlobalCleanup)) l).

(** The fields of [GlobalConfig] that hold a resource or say who owns it. *)
Definition resource_fields (c : GlobalConfig) :=
  (easy c, errors c, errors_fopened c, trace_dump c, trace_stream c,
   trace_fopened c, libcurl c, first c, last c).

(** [argv[0]] names neither [scp] nor [sftp]. *)
Definition canonical (argv : list (list ascii)) : Prop :=
  ∃ name, load argv (Ptr 0 0) = Ok name ∧ name ≠ cs "scp" ∧ name ≠ cs "sftp".

(** ** Sample collaborators *)

(** Collaborators that all succeed; [operate] returns 5. *)
Definition all_fine : Collaborators :=
  Collab (Some 7) 0 0 (Some 3) (λ g _ _, (g, 5%Z)) (λ _, None).

(** The collaborators of a run in which [get_libcurl_info] fails with
    code 4 after the node (at address 7) and the engine are in place. *)
Definition info_fails : Collaborators :=
  Collab (Some 7) 0 4 (Some 3) (λ g _ _, (g, 0%Z)) (λ _, None).

(** The claim of strict unwinding: a failed [main_init] has released what
    it had acquired, last acquired first. *)
Definition unwinds_on_failure (E : Collaborators) : Prop :=
  ∀ config w,
    (main_init E config w).1.1 ≠ 0%Z →
    released (since w (main_init E config w).2)
    = reverse (acquired (since w (main_init E config w).2)).

(** The calls of [main_init], branch by branch. *)
Definition main_init_calls (E : Collaborators) : list event :=
  EvMalloc (malloc_config E) ::
  match malloc_config E with
  | None => [EvHelpf (cs "error initializing curl" ++ [LF])]
  | Some node =>
      EvGlobalInit (curl_global_init E) ::
      if decide (curl_global_init E = 0%Z) then
        EvLibInfo (get_libcurl_info E) ::
        if decide (get_libcurl_info E = 0%Z) then
          EvEasyInit (curl_easy_init E) ::
          match curl_easy_init E with
          | Some _ => [EvConfigInit node]
          | None => [EvHelpf (cs "error initializing curl easy handle" ++ [LF]);
                     EvFree node]
          end
        else [EvHelpf (cs "error retrieving curl library information" ++ [LF]);
              EvFree node]
      else [EvHelpf (cs "error initializing curl library" ++ [LF]); EvFree node]
  end.

(** The claim that [scp_convert] hands [argv] back as it got it. *)
Definition leaves_argv_alone (E : Collaborators)
    (callee : nat → list (list ascii) → World → res (Z * World))
    (argc : nat) (args : list (list ascii)) (w : World) : Prop :=
  ∀ args' r w', scp_convert E callee argc args w = Ok (args', r, w') → args' = args.


(** ** A survey of the tokens

    What the scan makes of each token depends only on the tokens before
    it; [survey_from] follows the tests of lines 255, 262, 274 and 279
    on the tokens alone and counts the entries of [argv2] that the scan
    writes for them. *)

Inductive role :=
  | Passed        (* copied as a flag *)
  | Remote        (* the remote file: one URL *)
  | Upload        (* a local file before the remote one: -T and the path *)
  | ServerName    (* "." after the remote file: -O *)
  | Output.       (* a local path after the remote file: -o and a path *)

Definition role_of (have_local have_remote : bool) (tok : list ascii) : role :=
  if starts_with_dash tok || (have_remote && have_local) then Passed
  else if strstr tok ":"%char is Some _ then Remote
  else if have_remote
       then (if bool_decide (tok = cs ".") then ServerName else Output)
       else Upload.

Definition entries_of (r : role) : nat :=
  match r with
  | Upload | Output => 2
  | _ => 1
  end.

Definition sets_local (r : role) : bool :=
  match r with
  | Upload | ServerName | Output => true
  | _ => false
  end.

Definition sets_remote (r : role) : bool :=
  match r with
  | Remote => true
  | _ => false
  end.

(** [readable] is false when line 282 would read the byte before an
    empty string. *)
Record survey := Survey {
  has_local : bool;
  has_remote : bool;
  entries : nat;
  readable : bool
}.

Fixpoint survey_from (have_local have_remote : bool) (toks : list (list ascii))
  : survey :=
  match toks with
  | [] => Survey have_local have_remote 0 true
  | t :: toks =>
      let r := role_of have_local have_remote t in
      let s := survey_from (have_local || sets_local r)
                 (have_remote || sets_remote r) toks in
      Survey (has_local s) (has_remote s) (entries_of r + entries s)
        (match r with
         | Output => negb (bool_decide (t = []))
         | _ => true
         end && readable s)
  end.

(** Whether a pointer of the scan has been set. *)
Definition known (p : option ptr) : bool := bool_decide (is_Some p).

(** The tokens after the program name, as the scan reads them. *)
Definition tokens (argc : nat) (args : list (list ascii)) : list (list ascii) :=
  cstr <$> take (argc - 1) (drop 1 args).

(** Whether the scan takes token [j] of a command line for the remote
    file, by the tests of lines 255 and 262 on the tokens before it and
    on the token itself: a token after the program name and below
    [argc] that does not start with '-', holds a ':' and is met while a
    local or a remote file is still missing. *)
Definition taken_for_remote (argc : nat) (args : list (list ascii))
    (j : nat) (b : list ascii) : Prop :=
  let s := survey_from false false (tokens j args) in
  0 < j < argc
  ∧ starts_with_dash (cstr b) = false
  ∧ has_remote s && has_local s = false
  ∧ ":"%char ∈ cstr b.

(** ** Lines 75-91 (with [HAVE_PIPE]) *)

(** [fileno] of [thread_stdin], [thread_stdout] and [thread_stderr]. *)
Record Filenos := Fnos { fno_in : nat; fno_out : nat; fno_err : nat }.

(** The two descriptors of [fd], the descriptors that are open, and how
    often [pipe] has been called. *)
Record FdState := Fds { fd : nat * nat; open_fds : gset nat; pipe_calls : nat }.

(** The test of the [while]. *)
Definition on_std (F : Filenos) (fd : nat * nat) : bool :=
  bool_decide (fd.1 = fno_in F) || bool_decide (fd.1 = fno_out F)
  || bool_decide (fd.1 = fno_err F) || bool_decide (fd.2 = fno_in F)
  || bool_decide (fd.2 = fno_out F) || bool_decide (fd.2 = fno_err F).

(** The loop of lines 79-87.  [pipe] is given the descriptors that are
    open and answers [None] for a negative result, which leaves [fd] as
    it was.  The boolean tells whether the function has returned from
    inside the loop. *)
Fixpoint checkfds_loop (pipe : gset nat → option (nat * nat)) (F : Filenos)
    (fuel : nat) (st : FdState) : res (bool * FdState) :=
  match fuel with
  | 0 => Undefined OutOfFuel
  | S fuel =>
      if on_std F (fd st) then
        match pipe (open_fds st) with
        | Some (a, b) =>
            checkfds_loop pipe F fuel
              (Fds (a, b) ({[a]} ∪ {[b]} ∪ open_fds st) (S (pipe_calls st)))
        | None => Ok (true, Fds (fd st) (open_fds st) (S (pipe_calls st)))
        end
      else Ok (false, st)
  end.

(** The result tells whether line 86 was taken, and gives [fd], the
    descriptors left open and the number of calls of [pipe]. *)
Definition main_checkfds (pipe : gset nat → option (nat * nat)) (F : Filenos)
    (fuel : nat) (open : gset nat) : res (bool * FdState) :=
  '(returned, st) ← checkfds_loop pipe F fuel (Fds (fno_in F, fno_in F) open 0);
  if returned : bool then Ok (true, st)
  else Ok (false, Fds (fd st) (open_fds st ∖ {[(fd st).1]} ∖ {[(fd st).2]})
                    (pipe_calls st)).

(** [pipe] as POSIX has it: the two lowest descriptors that are not
    open, below the limit on open files. *)
Fixpoint first_free (open : gset nat) (from n : nat) : option nat :=
  match n with
  | 0 => None
  | S n => if decide (from ∈ open) then first_free open (S from) n else Some from
  end.

Definition posix_pipe (limit : nat) (open : gset nat) : option (nat * nat) :=
  a ← first_free open 0 limit;
  b ← first_free open (S a) (limit - S a);
  Some (a, b).

(** The descriptors of the three standard streams. *)
Definition std_set (F : Filenos) : gset nat :=
  {[fno_in F]} ∪ {[fno_out F]} ∪ {[fno_err F]}.

(** What any [pipe] does: it hands out two distinct descriptors that
    were not open. *)
Definition fresh_pipe (pipe : gset nat → option (nat * nat)) : Prop :=
  ∀ open a b, pipe open = Some (a, b) → (a ∉ open) ∧ (b ∉ open) ∧ a ≠ b.

(** Rounds that are enough for the loop. *)
Definition fuel_needed (F : Filenos) (st : FdState) : nat :=
  if on_std F (fd st) then 2 + size (std_set F ∖ open_fds st) else 1.

(** ** Lines 94-120 (with [CURLDEBUG]) *)

(** The calls of [memory_tracking_init]: [curl_free], [curl_memdebug]
    and [curl_memlimit]. *)
Inductive mt_event :=
  | MtFree
  | MtMemdebug (fname : list ascii)
  | MtMemlimit (num : Z).

#[global] Instance mt_event_eq_dec : EqDecision mt_event.
Proof. solve_decision. Defined.

(** [strcpy] into an array of [cap] bytes: the string and its
    terminator have to fit. *)
Definition strcpy (cap : nat) (src : list ascii) : res (list ascii) :=
  if decide (length (cstr src) < cap) then Ok (cstr src)
  else Undefined (StoreOutOfBounds cap cap).

(** [isspace] and [isdigit] in the C locale. *)
Definition isspace (c : ascii) : bool :=
  let n := nat_of_ascii c in bool_decide (n = 32) || (9 <=? n) && (n <=? 13).
Definition isdigit (c : ascii) : bool :=
  let n := nat_of_ascii c in (48 <=? n) && (n <=? 57).

(** How many leading bytes satisfy [p]. *)
Fixpoint run (p : ascii → bool) (s : list ascii) : nat :=
  match s with
  | c :: r => if p c then S (run p r) else 0
  | [] => 0
  end.

(** The value of a sequence of digits. *)
Definition decimal (ds : list ascii) : Z :=
  foldl (λ acc c, (10 * acc + Z.of_nat (nat_of_ascii c - 48))%Z) 0%Z ds.

(** [strtol(s, &endptr, 10)]: the value and the offset of [endptr] in
    [s].  White space, an optional sign, digits; without a digit nothing
    is converted and [endptr] is [s]; a value out of range is replaced by
    [LONG_MAX] or [LONG_MIN]. *)
Definition strtol (long_max : Z) (s : list ascii) : Z * nat :=
  let ws := run isspace s in
  let r := drop ws s in
  let '(neg, k) :=
    match r with
    | c :: _ =>
        if decide (c = "-"%char) then (true, 1)
        else if decide (c = "+"%char) then (false, 1) else (false, 0)
    | [] => (false, 0)
    end in
  let ds := take (run isdigit (drop k r)) (drop k r) in
  if decide (ds = []) then (0%Z, 0)
  else (if neg : bool then Z.max (- decimal ds) (- long_max - 1)
        else Z.min (decimal ds) long_max,
        ws + k + length ds).

(** [getenv] is [curlx_getenv]: a copy of the value on the heap, [None]
    for NULL.  [bufsize] is [CURL_MT_LOGFNAME_BUFSIZE] and [long_max] is
    [LONG_MAX]. *)
Definition memory_tracking_init (getenv : list ascii → option (list ascii))
    (bufsize : nat) (long_max : Z) : res (list mt_event) :=
  calls ←
    match getenv (cs "CURL_MEMDEBUG") with
    | Some v =>
        let env := v ++ [NUL] in
        env ← (if decide (bufsize ≤ length (cstr env)) then
                 match bufsize with
                 | 0 => Undefined (StoreOutOfBounds 0 0)
                 | S k => Ok (<[k := NUL]> env)
                 end
               else Ok env);
        fname ← strcpy bufsize env;
        Ok [MtFree; MtMemdebug fname]
    | None => Ok []
    end;
  match getenv (cs "CURL_MEMLIMIT") with
  | Some v =>
      let env := v ++ [NUL] in
      let '(num, endptr) := strtol long_max (cstr env) in
      let calls :=
        if bool_decide (endptr ≠ 0) && bool_decide (endptr = length (cstr env))
           && bool_decide (0 < num)%Z
        then calls ++ [MtMemlimit num] else calls in
      Ok (calls ++ [MtFree])
  | None => Ok calls
  end.

(** ** The calls of the destructors *)

Definition is_helpf (e : event) : bool :=
  match e with EvHelpf _ => true | _ => false end.

(** The call of [Curl_safefree] on a field. *)
Definition frees (p : option nat) : list event :=
  match p with Some a => [EvFree a] | None => [] end.

(** The call of lines 189-190 and 193-194 on a stream. *)
Definition closes (owned : bool) (f : option stream) : list event :=
  match f with
  | Some s => if owned then [EvFclose s] else []
  | None => []
  end.

Definition free_config_fields_calls (c : GlobalConfig) : list event :=
  frees (trace_dump c) ++ closes (errors_fopened c) (errors c)
  ++ closes (trace_fopened c) (trace_stream c) ++ frees (libcurl c).

Definition main_free_calls (c : GlobalConfig) : list event :=
  [EvEasyCleanup (easy c); EvGlobalCleanup; EvConvertCleanup; EvMetalinkCleanup]
  ++ free_config_fields_calls c ++ [EvConfigFree (last c)].

(** ** The translated list *)

(** The entries of [argv2] below [argc2] have been set. *)
Definition filled (st : scan) : Prop :=
  ∀ j, j < argc2 st → ∃ s, argv2 st !! j = Some (Str s).

(** A command line that line 327 hands to [scp_convert]. *)
Definition legacy (args : list (list ascii)) : Prop :=
  load args (Ptr 0 0) = Ok (cs "scp") ∨ load args (Ptr 0 0) = Ok (cs "sftp").

(** What the loop of line 268 leaves of a path: what follows its last
    '/'. *)
Fixpoint after_last_slash (s : list ascii) : list ascii :=
  match s with
  | [] => []
  | c :: r =>
      if decide (c = "/"%char) then after_last_slash r
      else if strstr r "/"%char is Some _ then after_last_slash r
      else c :: r
  end.

(** The three cases of lines 282-295: the name that follows [-o]. *)
Definition output_name (stat : list ascii → option bool)
    (tok base : list ascii) : list ascii :=
  if bool_decide (list.last tok = Some "/"%char) then tok ++ base
  else match stat tok with
       | Some true => tok ++ cs "/" ++ base
       | _ => tok
       end.

(** What the scan writes for the tokens, by the tests of lines 255-295
    on the tokens alone: [have_local] tells whether a local file has
    been met, [base] is the file name of the last remote path. *)
Fixpoint translate (stat : list ascii → option bool) (alias : list ascii)
    (have_local : bool) (base : option (list ascii))
    (toks : list (list ascii)) : list (list ascii) :=
  match toks with
  | [] => []
  | t :: toks =>
      if starts_with_dash t || (bool_decide (is_Some base) && have_local)
      then flag_rewrite t :: translate stat alias have_local base toks
      else
        match strstr t ":"%char with
        | Some k =>
            (alias ++ cs "://" ++ take k t ++ cs "/" ++ drop (S k) t)
            :: translate stat alias have_local
                 (Some (after_last_slash (drop (S k) t))) toks
        | None =>
            match base with
            | None => cs "-T" :: t :: translate stat alias true None toks
            | Some name =>
                (if bool_decide (t = cs ".") then [cs "-O"]
                 else [cs "-o"; output_name stat t name])
                ++ translate stat alias true base toks
            end
        end
  end.

(** The scan's knowledge of the remote file, against what [translate]
    carries along: the pointer stays in a block that is behind. *)
Definition base_at (st : scan) (a : nat) (base : option (list ascii)) : Prop :=
  match distantFileName st with
  | Some d => blk d < a ∧ ∃ name, base = Some name ∧ load (argv st) d = Ok name
  | None => base = None
  end.

(** * Properties *)

(** ** The lifecycle *)

Lemma log_emit e w : log (emit e w) = log w ++ [e].
Proof. reflexivity. Qed.

Lemma main_init_log E config w :
  log (main_init E config w).2 = log w ++ main_init_calls E.
Proof.
  unfold main_init, main_init_calls. simpl.
  destruct (malloc_config E) as [node|]; simpl.
  - destruct (decide (curl_global_init E = 0%Z)); simpl.
    + destruct (decide (get_libcurl_info E = 0%Z)); simpl.
      * destruct (curl_easy_init E); simpl; by rewrite <- !app_assoc.
      * by rewrite <- !app_assoc.
    + by rewrite <- !app_assoc.
  - by rewrite <- !app_assoc.
Qed.

Lemma main_init_since E config w :
  since w (main_init E config w).2 = main_init_calls E.
Proof.
  unfold since. rewrite main_init_log. by rewrite drop_app_length.
Qed.

(** The result of [main_init], branch by branch. *)
Lemma main_init_result E config w :
  (main_init E config w).1.1 =
  match malloc_config E with
  | None => CURLE_FAILED_INIT
  | Some _ =>
      if decide (curl_global_init E = 0%Z) then
        if decide (get_libcurl_info E = 0%Z) then
          match curl_easy_init E with
          | Some _ => 0%Z
          | None => CURLE_FAILED_INIT
          end
        else get_libcurl_info E
      else curl_global_init E
  end.
Proof.
  unfold main_init. simpl.
  destruct (malloc_config E); simpl; [|done].
  destruct (decide (curl_global_init E = 0%Z)); simpl; [|done].
  destruct (decide (get_libcurl_info E = 0%Z)) as [e0|]; simpl; [|done].
  destruct (curl_easy_init E); simpl; [|done]. exact e0.
Qed.

(** Every failing branch of [main_init] frees the node when there is
    one, and makes no other releasing call. *)
Lemma main_init_failure_released E :
  (∀ config w, (main_init E config w).1.1 ≠ 0%Z) →
  released (main_init_calls E)
  = match malloc_config E with Some p => [RMem p] | None => [] end.
Proof.
  intros Hfail. specialize (Hfail zeroed boot).
  rewrite main_init_result in Hfail.
  unfold main_init_calls, released.
  destruct (malloc_config E) as [node|]; [|done].
  destruct (decide (curl_global_init E = 0%Z)); [|done].
  destruct (decide (get_libcurl_info E = 0%Z)); [|done].
  destruct (curl_easy_init E); [done|]. reflexivity.
Qed.

Lemma main_init_result_indep E config w config' w' :
  (main_init E config w).1.1 = (main_init E config' w').1.1.
Proof. by rewrite !main_init_result. Qed.

(** C1, as the code has it: when [main_init] fails, what it has released
    is the [OperationConfig] node if the allocation of step (b) had
    succeeded, and nothing if that allocation is what failed; each
    released resource had been acquired earlier in the same call and is
    released once; the engine set up by step (c) is not released by the
    failures of steps (d) and (e). *)
Theorem main_init_failure_frees_node E config w :
  (main_init E config w).1.1 ≠ 0%Z →
  let calls := since w (main_init E config w).2 in
  released calls = match malloc_config E with Some p => [RMem p] | None => [] end
  ∧ (∀ r, r ∈ released calls → r ∈ acquired calls)
  ∧ NoDup (released calls)
  ∧ REngine ∉ released calls.
Proof.
  intros Hfail calls. subst calls. rewrite main_init_since.
  assert (Hrel : released (main_init_calls E)
                 = match malloc_config E with Some p => [RMem p] | None => [] end).
  { apply main_init_failure_released. intros c' w'.
    by rewrite (main_init_result_indep E c' w' config w). }
  rewrite Hrel. split; [done|]. split; [|split].
  - intros r Hr. unfold main_init_calls, acquired.
    destruct (malloc_config E) as [node|]; [|by apply elem_of_nil in Hr].
    apply list_elem_of_singleton in Hr as ->. simpl. apply list_elem_of_here.
  - destruct (malloc_config E); [apply NoDup_singleton | apply NoDup_nil_2].
  - destruct (malloc_config E); [|apply not_elem_of_nil].
    intros H. by apply list_elem_of_singleton in H.
Qed.

Lemma main_init_failure_frees_node_witness :
  (main_init info_fails zeroed boot).1.1 ≠ 0%Z
  ∧ released (since boot (main_init info_fails zeroed boot).2) = [RMem 7].
Proof.
  split; [by vm_compute|].
  apply (main_init_failure_frees_node info_fails zeroed boot). by vm_compute.
Defined.

(** C1 as stated fails when step (d) fails: the node and the engine have
    been acquired, and only the node is released. *)
Lemma main_init_keeps_engine : ¬ unwinds_on_failure info_fails.
Proof.
  intros H. specialize (H zeroed boot). vm_compute in H.
  assert (Hne : (4 ≠ 0)%Z) by lia. specialize (H Hne). discriminate H.
Qed.

(** What [main_init] leaves in [config] when it succeeds. *)
Lemma main_init_success_config E config w :
  (main_init E config w).1.1 = 0%Z →
  ∃ node h,
    malloc_config E = Some node ∧ curl_easy_init E = Some h ∧
    (main_init E config w).1.2
    = set_easy (Some h) (set_first (Some node) (set_last (Some node)
        (set_errors (Some thread_stderr) (set_showerror (-1) config)))).
Proof.
  unfold main_init. simpl.
  destruct (malloc_config E) as [node|]; simpl; [|discriminate].
  destruct (decide (curl_global_init E = 0%Z)); simpl.
  - destruct (decide (get_libcurl_info E = 0%Z)); simpl.
    + destruct (curl_easy_init E) as [h|]; simpl; [|discriminate].
      intros _. by exists node, h.
    + done.
  - done.
Qed.

(** C5: [main_init] on the zeroed [GlobalConfig], when it succeeds,
    followed at once by [main_free], leaves every resource field of the
    structure at its zero value: the easy handle, both streams and their
    ownership flags, both file names, [first] and [last]. *)
Theorem init_then_free_zeroes E w :
  (main_init E zeroed w).1.1 = 0%Z →
  resource_fields
    (main_free (main_init E zeroed w).1.2 (main_init E zeroed w).2).1
  = resource_fields zeroed.
Proof.
  intros Hok. destruct (main_init_success_config E zeroed w Hok)
    as (node & h & _ & _ & ->).
  reflexivity.
Qed.

Lemma init_then_free_zeroes_witness :
  (main_init all_fine zeroed boot).1.1 = 0%Z
  ∧ resource_fields
      (main_free (main_init all_fine zeroed boot).1.2
         (main_init all_fine zeroed boot).2).1
    = resource_fields zeroed.
Proof.
  split; [reflexivity|]. apply (init_then_free_zeroes all_fine boot). reflexivity.
Defined.

(** ** The entry point *)

Lemma curl_main_canonical E fuel argc argv w :
  canonical argv →
  curl_main E (S fuel) argc argv w =
  let r := main_init E zeroed (emit EvCheckFds w) in
  if decide (r.1.1 = 0%Z) then
    let o := operate E r.1.2 argc argv in
    Ok (o.2, (main_free o.1 (emit (EvOperate argc argv o.2) r.2)).2)
  else Ok (r.1.1, r.2).
Proof.
  intros (name & Hname & Hscp & Hsftp). simpl. rewrite Hname. simpl.
  rewrite !bool_decide_eq_false_2 by done. simpl.
  destruct (main_init E zeroed (emit EvCheckFds w)) as [[result global] w1]. simpl.
  destruct (decide (result = 0%Z)); [|done].
  destruct (operate E global argc argv) as [global' result']. simpl.
  by destruct (main_free global' (emit (EvOperate argc argv result') w1)).
Qed.

Lemma free_config_fields_log config w :
  ∃ l, log (free_config_fields config w).2 = log w ++ l
       ∧ operate_calls l = 0 ∧ teardowns l = 0.
Proof.
  unfold free_config_fields. simpl.
  destruct (trace_dump config), (errors config), (errors_fopened config),
    (trace_stream config), (trace_fopened config), (libcurl config); simpl;
    rewrite <- ?app_assoc; simpl; eexists; (split; [first [reflexivity | symmetry; apply app_nil_r]|]); done.
Qed.

Lemma main_free_log config w :
  ∃ l, log (main_free config w).2 = log w ++ l
       ∧ operate_calls l = 0 ∧ teardowns l = 1.
Proof.
  unfold main_free.
  pose proof (free_config_fields_log (set_easy None config)
     (emit EvMetalinkCleanup (emit EvConvertCleanup (emit EvGlobalCleanup
        (emit (EvEasyCleanup (easy config)) w))))) as (l & Hl & Ho & Ht).
  destruct (free_config_fields _ _) as [config' w']. simpl in *.
  exists ([EvEasyCleanup (easy config); EvGlobalCleanup; EvConvertCleanup;
           EvMetalinkCleanup] ++ l ++ [EvConfigFree (last config')]).
  split.
  - unfold config_free. destruct (last config'); simpl; rewrite Hl;
      rewrite <- !app_assoc; reflexivity.
  - unfold operate_calls, teardowns in *.
    rewrite !filter_app, !length_app, Ho, Ht. done.
Qed.

Lemma main_init_calls_quiet E :
  operate_calls (main_init_calls E) = 0 ∧ teardowns (main_init_calls E) = 0.
Proof.
  unfold main_init_calls.
  destruct (malloc_config E); [|done].
  destruct (decide (curl_global_init E = 0%Z)); [|done].
  destruct (decide (get_libcurl_info E = 0%Z)); [|done].
  by destruct (curl_easy_init E).
Qed.

Lemma since_app w w' l : log w' = log w ++ l → since w w' = l.
Proof. intros H. unfold since. rewrite H. by rewrite drop_app_length. Qed.

Lemma operate_calls_app l k :
  operate_calls (l ++ k) = operate_calls l + operate_calls k.
Proof. unfold operate_calls. by rewrite filter_app, length_app. Qed.

Lemma teardowns_app l k : teardowns (l ++ k) = teardowns l + teardowns k.
Proof. unfold teardowns. by rewrite filter_app, length_app. Qed.

(** C6: on a command line that is not [scp]/[sftp], [curl_main] returns,
    and it enters [operate] exactly when [main_init] has succeeded; when
    [main_init] fails, [curl_main] returns its result code with nothing
    further done. *)
Theorem operate_iff_init_succeeds E fuel argc argv w :
  canonical argv →
  let init := main_init E zeroed (emit EvCheckFds w) in
  ∃ r w',
    curl_main E (S fuel) argc argv w = Ok (r, w')
    ∧ (0 < operate_calls (since w w') ↔ init.1.1 = 0%Z)
    ∧ (init.1.1 ≠ 0%Z → r = init.1.1 ∧ r ≠ 0%Z ∧ w' = init.2).
Proof.
  intros Hcan init. rewrite (curl_main_canonical E fuel argc argv w Hcan).
  cbv zeta. fold init.
  assert (Hinit : log init.2 = log w ++ [EvCheckFds] ++ main_init_calls E).
  { subst init. by rewrite main_init_log, log_emit, <- app_assoc. }
  destruct (main_init_calls_quiet E) as [Hq _].
  destruct (decide (init.1.1 = 0%Z)) as [Hok|Hfail].
  - eexists _, _. split; [reflexivity|]. split; [|done].
    split; [done|intros _].
    destruct (main_free_log (operate E init.1.2 argc argv).1
      (emit (EvOperate argc argv (operate E init.1.2 argc argv).2) init.2))
      as (l & Hl & _ & _).
    rewrite log_emit, Hinit, <- !app_assoc in Hl.
    rewrite (since_app _ _ _ Hl), !operate_calls_app. simpl.
    rewrite Hq. unfold operate_calls. simpl. lia.
  - eexists _, _. split; [reflexivity|]. split; [|done].
    rewrite (since_app _ _ _ Hinit), !operate_calls_app, Hq.
    unfold operate_calls. simpl. split; [lia|done].
Qed.

Lemma operate_iff_init_succeeds_witness :
  canonical [cs "curl"; cs "http://example.org/"]
  ∧ ∃ r w',
      curl_main info_fails 1 2 [cs "curl"; cs "http://example.org/"] boot
      = Ok (r, w')
      ∧ (0 < operate_calls (since boot w')
         ↔ (main_init info_fails zeroed (emit EvCheckFds boot)).1.1 = 0%Z)
      ∧ ((main_init info_fails zeroed (emit EvCheckFds boot)).1.1 ≠ 0%Z →
         r = (main_init info_fails zeroed (emit EvCheckFds boot)).1.1
         ∧ r ≠ 0%Z
         ∧ w' = (main_init info_fails zeroed (emit EvCheckFds boot)).2).
Proof.
  assert (H : canonical [cs "curl"; cs "http://example.org/"]).
  { exists (cs "curl"). split; [reflexivity|]. split; discriminate. }
  split; [exact H|].
  exact (operate_iff_init_succeeds info_fails 0 2
           [cs "curl"; cs "http://example.org/"] boot H).
Defined.

(** C7: on a command line that is not [scp]/[sftp] and with [main_init]
    successful, [curl_main] runs [main_free] once, after [operate] and
    whatever [operate] returned, and returns the result code of [operate]
    as it is. *)
Theorem teardown_once_and_result E fuel argc argv w :
  canonical argv →
  let init := main_init E zeroed (emit EvCheckFds w) in
  let op := operate E init.1.2 argc argv in
  init.1.1 = 0%Z →
  ∃ w',
    curl_main E (S fuel) argc argv w = Ok (op.2, w')
    ∧ w' = (main_free op.1 (emit (EvOperate argc argv op.2) init.2)).2
    ∧ teardowns (since w w') = 1
    ∧ operate_calls (since w w') = 1.
Proof.
  intros Hcan init op Hok.
  rewrite (curl_main_canonical E fuel argc argv w Hcan). cbv zeta. fold init.
  rewrite decide_True by done. fold op.
  eexists. split; [reflexivity|]. split; [reflexivity|].
  assert (Hinit : log init.2 = log w ++ [EvCheckFds] ++ main_init_calls E).
  { subst init. by rewrite main_init_log, log_emit, <- app_assoc. }
  destruct (main_init_calls_quiet E) as [Hq Ht].
  destruct (main_free_log op.1 (emit (EvOperate argc argv op.2) init.2))
    as (l & Hl & Hlo & Hlt).
  rewrite log_emit, Hinit, <- !app_assoc in Hl.
  rewrite (since_app _ _ _ Hl), !teardowns_app, !operate_calls_app.
  rewrite Hq, Ht, Hlo, Hlt. done.
Qed.

Lemma teardown_once_and_result_witness :
  ∃ w',
    curl_main all_fine 1 2 [cs "curl"; cs "http://example.org/"] boot
    = Ok (5%Z, w')
    ∧ teardowns (since boot w') = 1.
Proof.
  assert (H : canonical [cs "curl"; cs "http://example.org/"]).
  { exists (cs "curl"). split; [reflexivity|]. split; discriminate. }
  destruct (teardown_once_and_result all_fine 0 2
              [cs "curl"; cs "http://example.org/"] boot H eq_refl)
    as (w' & Hrun & _ & Ht & _).
  exists w'. split; [exact Hrun | exact Ht].
Defined.

(** ** C strings and pointers *)

Lemma bind_Ok {A B} (m : res A) (f : A → res B) (y : B) :
  m ≫= f = Ok y → ∃ x, m = Ok x ∧ f x = Ok y.
Proof. destruct m as [x|e]; simpl; [eauto | discriminate]. Qed.

Ltac inv_res :=
  repeat match goal with
  | H : _ ≫= _ = Ok _ |- _ =>
      let x := fresh "x" in let Hx := fresh "H" x in
      apply bind_Ok in H as (x & Hx & H)
  | H : Ok _ = Ok _ |- _ => injection H as H
  | H : Undefined _ = Ok _ |- _ => discriminate H
  end.

Lemma strstr_Some s c k :
  strstr s c = Some k →
  k < length s ∧ s = take k s ++ c :: drop (S k) s ∧ c ∉ take k s.
Proof.
  revert k. induction s as [|x s IH]; intros k; simpl; [discriminate|].
  destruct (decide (x = c)) as [->|Hne].
  - intros [= <-]. simpl. rewrite drop_0. split; [lia|]. split; [done|].
    apply not_elem_of_nil.
  - destruct (strstr s c) as [j|] eqn:Hj; simpl; [|discriminate].
    intros [= <-]. destruct (IH j eq_refl) as (Hlt & Heq & Hnot).
    simpl. split; [lia|]. split; [by rewrite <- Heq|].
    rewrite not_elem_of_cons. by split; [congruence|].
Qed.

Lemma strstr_None s c : strstr s c = None → c ∉ s.
Proof.
  induction s as [|x s IH]; simpl; [intros _; apply not_elem_of_nil|].
  destruct (decide (x = c)); [discriminate|].
  destruct (strstr s c); simpl; [discriminate|]. intros _.
  rewrite not_elem_of_cons. split; [congruence | by apply IH].
Qed.

Lemma strstr_is_Some s c : c ∈ s → is_Some (strstr s c).
Proof.
  intros Hin. destruct (strstr s c) eqn:H; [eauto|].
  by apply strstr_None in H.
Qed.

Lemma cstr_length b : length (cstr b) ≤ length b.
Proof.
  induction b as [|c b IH]; simpl; [lia|].
  destruct (decide (c = NUL)); simpl; lia.
Qed.

Lemma cstr_no_NUL b : NUL ∉ cstr b.
Proof.
  induction b as [|c b IH]; simpl; [apply not_elem_of_nil|].
  destruct (decide (c = NUL)); [apply not_elem_of_nil|].
  rewrite not_elem_of_cons. split; [congruence | done].
Qed.

Lemma cstr_id s : NUL ∉ s → cstr s = s.
Proof.
  induction s as [|c s IH]; simpl; [done|].
  rewrite not_elem_of_cons. intros [Hc Hs].
  rewrite decide_False by congruence. by rewrite IH.
Qed.

Lemma cstr_drop n b : n ≤ length (cstr b) → cstr (drop n b) = drop n (cstr b).
Proof.
  revert b. induction n as [|n IH]; intros b; [by rewrite !drop_0|].
  destruct b as [|c b]; simpl; [done|].
  destruct (decide (c = NUL)); simpl; [lia|].
  intros H. apply IH. lia.
Qed.

Lemma cstr_insert_NUL k b :
  k < length (cstr b) → cstr (<[k := NUL]> b) = take k (cstr b).
Proof.
  revert b. induction k as [|k IH]; intros b.
  - destruct b as [|c b]; simpl; [lia|].
    destruct (decide (c = NUL)); simpl; [lia|]. intros _. reflexivity.
  - destruct b as [|c b]; simpl; [lia|].
    destruct (decide (c = NUL)); simpl; [lia|]. intros H.
    rewrite IH by lia. done.
Qed.

Lemma load_Ok mem p s :
  load mem p = Ok s →
  ∃ b, mem !! blk p = Some b ∧ off p ≤ length b ∧ s = cstr (drop (off p) b).
Proof.
  unfold load. destruct (mem !! blk p) as [b|]; [|discriminate].
  destruct (decide (off p ≤ length b)); [|discriminate].
  intros [= <-]. eauto.
Qed.

Lemma load_head mem i b : mem !! i = Some b → load mem (Ptr i 0) = Ok (cstr b).
Proof.
  intros H. unfold load. simpl. rewrite H.
  by rewrite drop_0.
Qed.

(** Moving a pointer forward inside the string it points to. *)
Lemma load_ptr_add mem p s n :
  load mem p = Ok s → n ≤ length s → load mem (ptr_add p n) = Ok (drop n s).
Proof.
  intros H Hn. apply load_Ok in H as (b & Hb & Hoff & ->).
  unfold load, ptr_add. simpl. rewrite Hb.
  pose proof (cstr_length (drop (off p) b)) as Hlen.
  rewrite length_drop in Hlen.
  rewrite decide_True by lia.
  rewrite <- cstr_drop by done. by rewrite drop_drop.
Qed.

(** ** The scan *)

Lemma store_Ok v st st' :
  store v st = Ok st' →
  argc2 st < length (argv2 st)
  ∧ st' = Scan (argv st) (<[argc2 st := v]> (argv2 st)) (argc2 st)
            (localFileName st) (distantFileName st).
Proof.
  unfold store. destruct (decide (argc2 st < length (argv2 st))); [|discriminate].
  intros [= <-]. done.
Qed.

Lemma poke_Ok mem p c mem' :
  poke mem p c = Ok mem' →
  ∃ b, mem !! blk p = Some b ∧ off p < length b
       ∧ mem' = <[blk p := <[off p := c]> b]> mem.
Proof.
  unfold poke. destruct (mem !! blk p) as [b|]; [|discriminate].
  destruct (decide (off p < length b)); [|discriminate].
  intros [= <-]. eauto.
Qed.

Ltac inv_store :=
  repeat match goal with
  | H : store _ _ = Ok _ |- _ =>
      let Hlt := fresh "Hlt" in apply store_Ok in H as [Hlt ->]
  end.

Ltac inv_body H :=
  unfold scp_body in H; simpl in H;
  repeat first [progress inv_res | case_match];
  inv_store; subst; simpl in *.

(** One round edits [argv] in at most one place: the first ':' of the
    token it is at, when it takes that token for the remote file. *)
Lemma scp_body_argv stat proto i st st' :
  scp_body stat proto i st = Ok st' →
  argv st' = argv st ∨
  ∃ b k, argv st !! i = Some b ∧ starts_with_dash (cstr b) = false
         ∧ strstr (cstr b) ":"%char = Some k
         ∧ argv st' = <[i := <[k := NUL]> b]> (argv st).
Proof.
  intros H. inv_body H; try (by left); right;
    repeat match goal with
    | Hl : load (argv st) (Ptr i 0) = Ok _ |- _ =>
        apply load_Ok in Hl as (b & Hb & _ & ->)
    | Hp : poke _ _ _ = Ok _ |- _ =>
        apply poke_Ok in Hp as (b' & Hb' & _ & ->)
    | Hc : _ || _ = false |- _ => apply orb_false_iff in Hc as [? _]
    end;
    simpl in *; rewrite drop_0 in *;
    (assert (b' = b) as -> by congruence);
    exists b; eexists; repeat split; eassumption.
Qed.

(** One round writes one or two entries at [argc2] and leaves the
    entries below alone. *)
Lemma scp_body_argv2 stat proto i st st' :
  scp_body stat proto i st = Ok st' →
  argc2 st < argc2 st' ∧ argc2 st' ≤ length (argv2 st)
  ∧ length (argv2 st') = length (argv2 st)
  ∧ ∀ j, j < argc2 st → argv2 st' !! j = argv2 st !! j.
Proof.
  intros H. inv_body H;
    rewrite ?length_insert in *;
    (split; [lia|]); (split; [lia|]); (split; [done|]);
    intros j Hj; rewrite ?list_lookup_insert_ne by lia; done.
Qed.

Lemma scp_loop_app stat proto l1 l2 st :
  scp_loop stat proto (l1 ++ l2) st
  = scp_loop stat proto l1 st ≫= scp_loop stat proto l2.
Proof.
  revert st. induction l1 as [|i l1 IH]; intros st; simpl; [done|].
  destruct (scp_body stat proto i st) as [st1|e]; simpl; [apply IH | done].
Qed.

Lemma scp_loop_argv2 stat proto todo st st' :
  scp_loop stat proto todo st = Ok st' →
  argc2 st ≤ argc2 st' ∧ length (argv2 st') = length (argv2 st)
  ∧ ∀ j, j < argc2 st → argv2 st' !! j = argv2 st !! j.
Proof.
  revert st. induction todo as [|i todo IH]; intros st; simpl.
  - intros [= <-]. done.
  - intros H. apply bind_Ok in H as (st1 & H1 & H).
    apply scp_body_argv2 in H1 as (Hlt & _ & Hlen & Hpre).
    apply IH in H as (Hle & Hlen' & Hpre').
    split; [lia|]. split; [congruence|].
    intros j Hj. rewrite Hpre' by lia. by apply Hpre.
Qed.

(** The token as the scan leaves it when it has taken it for the remote
    file: its first ':' overwritten by the terminator. *)
Lemma scp_loop_argv stat proto todo st st' :
  NoDup todo →
  scp_loop stat proto todo st = Ok st' →
  length (argv st') = length (argv st)
  ∧ ∀ j,
      (j ∉ todo → argv st' !! j = argv st !! j)
      ∧ ∀ b, argv st !! j = Some b →
          argv st' !! j = Some b
          ∨ (starts_with_dash (cstr b) = false
             ∧ ∃ k, strstr (cstr b) ":"%char = Some k
                    ∧ argv st' !! j = Some (<[k := NUL]> b)).
Proof.
  revert st. induction todo as [|i todo IH]; intros st Hnd; simpl.
  - intros [= <-]. split; [done|]. intros j. split; [done|]. by left.
  - intros H. apply bind_Ok in H as (st1 & H1 & H).
    apply NoDup_cons in Hnd as [Hi Hnd].
    destruct (IH st1 Hnd H) as [Hlen IHj].
    apply scp_body_argv in H1 as [Heq | (b & k & Hb & Hdash & Hk & Heq)].
    + rewrite Heq in *. split; [done|]. intros j.
      destruct (IHj j) as [Hout Hin]. split; [|done].
      intros Hj. apply Hout. by apply not_elem_of_cons in Hj as [_ ?].
    + rewrite Heq, ?length_insert in *. split; [done|]. intros j.
      destruct (IHj j) as [Hout Hin]. split.
      * intros Hj. apply not_elem_of_cons in Hj as [Hne Hj].
        rewrite Hout by done. by apply list_lookup_insert_ne.
      * intros b' Hb'. destruct (decide (j = i)) as [->|Hne].
        -- assert (b' = b) as -> by congruence.
           right. split; [done|]. exists k. split; [done|].
           rewrite Hout by done. apply list_lookup_insert_eq.
           by eapply lookup_lt_Some.
        -- apply Hin. by rewrite list_lookup_insert_ne.
Qed.

Lemma skip_dirs_S fuel mem d :
  skip_dirs (S fuel) mem d =
  (load mem d ≫= λ s,
    match strstr s "/"%char with
    | Some k => skip_dirs fuel mem (ptr_add d (S k))
    | None => Ok d
    end).
Proof. reflexivity. Qed.

(** The loop of line 268 ends, on the part of the string after its last
    '/' (the whole string when it has none). *)
Lemma skip_dirs_spec fuel mem p s :
  load mem p = Ok s → length s < fuel →
  ∃ d dir base,
    skip_dirs fuel mem p = Ok d ∧ blk d = blk p ∧ load mem d = Ok base
    ∧ s = dir ++ base ∧ ("/"%char ∉ base)
    ∧ (dir = [] ∨ list.last dir = Some "/"%char).
Proof.
  revert p s. induction fuel as [|fuel IH]; intros p s Hload Hlen; [lia|].
  rewrite skip_dirs_S, Hload. simpl.
  destruct (strstr s "/"%char) as [k|] eqn:Hk.
  - apply strstr_Some in Hk as (Hlt & Hs & _).
    assert (Hnext : load mem (ptr_add p (S k)) = Ok (drop (S k) s))
      by (apply load_ptr_add; [done | lia]).
    destruct (IH _ _ Hnext) as (d & dir & base & Hd & Hblk & Hbase & Hsplit & Hno & Hdir).
    { rewrite length_drop. lia. }
    exists d, (take k s ++ "/"%char :: dir), base.
    split; [done|]. split; [done|]. split; [done|].
    split; [|split; [done|]].
    + rewrite <- app_assoc. simpl. rewrite <- Hsplit. done.
    + right. rewrite last_app. destruct Hdir as [-> | Hlast].
      * done.
      * by rewrite last_cons, Hlast.
  - exists p, [], s. split; [done|]. split; [done|]. split; [done|].
    split; [done|]. split; [by apply strstr_None | by left].
Qed.

Lemma load_insert_ne mem i x p :
  blk p ≠ i → load (<[i := x]> mem) p = load mem p.
Proof. intros H. unfold load. by rewrite list_lookup_insert_ne. Qed.

(** The round that takes token [i] for the remote file. *)
Lemma scp_body_remote stat i st b k alias :
  i ≠ 0 →
  argv st !! i = Some b →
  starts_with_dash (cstr b) = false →
  distantFileName st = None ∨ localFileName st = None →
  strstr (cstr b) ":"%char = Some k →
  argc2 st < length (argv2 st) →
  load (argv st) (Ptr 0 0) = Ok alias →
  ∃ d dir base,
    scp_body stat (Ptr 0 0) i st
    = Ok (Scan (<[i := <[k := NUL]> b]> (argv st))
            (<[argc2 st := Str (alias ++ cs "://" ++ take k (cstr b)
                                  ++ cs "/" ++ drop (S k) (cstr b))]> (argv2 st))
            (S (argc2 st)) (localFileName st) (Some d))
    ∧ load (<[i := <[k := NUL]> b]> (argv st)) d = Ok base
    ∧ drop (S k) (cstr b) = dir ++ base ∧ ("/"%char ∉ base)
    ∧ (dir = [] ∨ list.last dir = Some "/"%char).
Proof.
  intros Hi Hb Hdash Hunknown Hk Hroom Halias.
  pose proof (strstr_Some _ _ _ Hk) as (Hklen & _ & _).
  pose proof (cstr_length b) as Hblen.
  pose proof (lookup_lt_Some _ _ _ Hb) as Hilen.
  set (mem := <[i := <[k := NUL]> b]> (argv st)).
  assert (Hmem : mem !! i = Some (<[k := NUL]> b))
    by (by apply list_lookup_insert_eq).
  assert (Hproto : load mem (Ptr 0 0) = Ok alias).
  { unfold mem. rewrite load_insert_ne; [done | simpl; lia]. }
  assert (Hhost : load mem (Ptr i 0) = Ok (take k (cstr b))).
  { rewrite (load_head _ _ _ Hmem). by rewrite cstr_insert_NUL. }
  assert (Hpath : load mem (Ptr i (k + 1)) = Ok (drop (S k) (cstr b))).
  { unfold load. simpl. rewrite Hmem, length_insert.
    rewrite decide_True by lia. rewrite Nat.add_1_r.
    rewrite drop_insert_lt by lia. rewrite cstr_drop by lia. done. }
  destruct (skip_dirs_spec (S (length (drop (S k) (cstr b)))) mem
              (Ptr i (k + 1)) _ Hpath) as (d & dir & base & Hd & _ & Hbase & Hsplit & Hno & Hdir);
    [lia|].
  exists d, dir, base. split; [|done].
  unfold scp_body. rewrite (load_head _ _ _ Hb). simpl.
  rewrite Hdash. simpl.
  assert (Hboth : bool_decide (is_Some (distantFileName st))
                  && bool_decide (is_Some (localFileName st)) = false).
  { destruct Hunknown as [-> | ->].
    - rewrite bool_decide_eq_false_2; [done | by apply is_Some_None].
    - rewrite (bool_decide_eq_false_2 (is_Some None)) by apply is_Some_None.
      apply andb_false_r. }
  rewrite Hboth, Hk. simpl.
  unfold poke. simpl. rewrite Hb. rewrite decide_True by lia. simpl.
  fold mem. unfold ptr_add. simpl. rewrite Hproto, Hhost, Hpath. simpl.
  unfold store. simpl. rewrite decide_True by done. simpl.
  rewrite Hd. simpl. reflexivity.
Qed.

Lemma scp_prefix_eq stat cap n args :
  0 < cap →
  scp_prefix stat cap n args
  = scp_loop stat (Ptr 0 0) (seq 1 n)
      (Scan args (<[0 := Str (cs "curl")]> (replicate cap Junk)) 1 None None).
Proof.
  intros Hcap. unfold scp_prefix, store. simpl.
  rewrite length_replicate. by rewrite decide_True.
Qed.

Lemma scp_prefix_cap stat cap n args st :
  scp_prefix stat cap n args = Ok st → 0 < cap.
Proof.
  unfold scp_prefix, store. simpl. rewrite length_replicate.
  destruct (decide (0 < cap)); [done | discriminate].
Qed.

Lemma res_bind_Ok_l {A B} (a : A) (f : A → res B) : Ok a ≫= f = f a.
Proof. reflexivity. Qed.

Lemma res_bind_Ok_r {A} (m : res A) : m ≫= Ok = m.
Proof. by destruct m. Qed.

(** Running [m] more rounds from where [n] rounds have led. *)
Lemma scp_prefix_add stat cap n m args :
  scp_prefix stat cap (n + m) args
  = scp_prefix stat cap n args ≫= scp_loop stat (Ptr 0 0) (seq (S n) m).
Proof.
  unfold scp_prefix.
  destruct (store _ _) as [st0|e]; [|done].
  rewrite !res_bind_Ok_l. by rewrite seq_app, scp_loop_app.
Qed.

Lemma scp_prefix_S stat cap n args :
  scp_prefix stat cap (S n) args
  = scp_prefix stat cap n args ≫= scp_body stat (Ptr 0 0) (S n).
Proof.
  replace (S n) with (n + 1) at 1 by lia. rewrite scp_prefix_add.
  destruct (scp_prefix stat cap n args) as [st|e]; [|done].
  rewrite !res_bind_Ok_l. simpl. apply res_bind_Ok_r.
Qed.

(** What the first [n] rounds leave of [argv]: nothing changes outside
    tokens 1..n, and each of those is as it was or cut at its first ':'. *)
Lemma scp_prefix_argv stat cap n args st :
  scp_prefix stat cap n args = Ok st →
  length (argv st) = length args
  ∧ ∀ j,
      (j = 0 ∨ n < j → argv st !! j = args !! j)
      ∧ ∀ b, args !! j = Some b →
          argv st !! j = Some b
          ∨ (starts_with_dash (cstr b) = false
             ∧ ∃ k, strstr (cstr b) ":"%char = Some k
                    ∧ argv st !! j = Some (<[k := NUL]> b)).
Proof.
  intros H. pose proof (scp_prefix_cap _ _ _ _ _ H) as Hcap.
  rewrite scp_prefix_eq in H by done.
  apply scp_loop_argv in H as [Hlen Hj]; [|apply NoDup_seq].
  simpl in *. split; [done|]. intros j. destruct (Hj j) as [Hout Hin].
  split; [|done]. intros Hrange. apply Hout.
  rewrite elem_of_seq. lia.
Qed.

Lemma scp_prefix_argv2 stat cap n args st :
  scp_prefix stat cap n args = Ok st →
  0 < argc2 st ∧ length (argv2 st) = cap
  ∧ argv2 st !! 0 = Some (Str (cs "curl")).
Proof.
  intros H. pose proof (scp_prefix_cap _ _ _ _ _ H) as Hcap.
  rewrite scp_prefix_eq in H by done.
  apply scp_loop_argv2 in H as (Hle & Hlen & Hpre). simpl in *.
  rewrite length_insert, length_replicate in Hlen.
  split; [lia|]. split; [done|].
  rewrite Hpre by lia. apply list_lookup_insert_eq.
  by rewrite length_replicate.
Qed.

(** C8: when the scan reaches a token that does not start with '-' and
    contains ':' while no remote file is known, it splits the token at
    its first ':' into [userHost] and [remotePath], the entry it writes
    to [argv2] is [<alias>://<userHost>/<remotePath>] with the whole of
    [remotePath], that entry is in the list the scan ends with, and
    [distantFileName] is left on the part of [remotePath] after its last
    '/'. *)
Theorem remote_token_becomes_url stat cap argc args i b st fin :
  0 < i < argc →
  args !! i = Some b →
  starts_with_dash (cstr b) = false →
  ":"%char ∈ cstr b →
  scp_prefix stat cap (i - 1) args = Ok st →
  distantFileName st = None →
  scp_scan_cap stat cap argc args = Ok fin →
  ∃ alias userHost remotePath dir base st' d,
    load args (Ptr 0 0) = Ok alias
    ∧ cstr b = userHost ++ ":"%char :: remotePath
    ∧ (":"%char ∉ userHost)
    ∧ argv2 fin !! argc2 st
      = Some (Str (alias ++ cs "://" ++ userHost ++ cs "/" ++ remotePath))
    ∧ scp_prefix stat cap i args = Ok st'
    ∧ distantFileName st' = Some d
    ∧ load (argv st') d = Ok base
    ∧ remotePath = dir ++ base
    ∧ ("/"%char ∉ base)
    ∧ (dir = [] ∨ list.last dir = Some "/"%char).
Proof.
  intros [Hi Hargc] Hb Hdash Hcolon Hst Hnone Hfin.
  destruct (strstr_is_Some _ _ Hcolon) as [k Hk].
  pose proof (strstr_Some _ _ _ Hk) as (Hklen & Hsplit & Hnot).
  (* the state in which token [i] is met *)
  destruct (scp_prefix_argv _ _ _ _ _ Hst) as [Hlen Hmem].
  assert (Hbi : argv st !! i = Some b).
  { destruct (Hmem i) as [Hout _]. rewrite Hout; [done | lia]. }
  assert (is_Some (args !! 0)) as [b0 Hb0].
  { apply lookup_lt_is_Some. apply lookup_lt_Some in Hb. lia. }
  assert (Halias : load (argv st) (Ptr 0 0) = Ok (cstr b0)).
  { apply load_head. destruct (Hmem 0) as [Hout _]. rewrite Hout; [done | by left]. }
  (* the whole scan goes through round [i] *)
  unfold scp_scan_cap in Hfin. apply bind_Ok in Hfin as (stn & Hstn & Hfin).
  replace (argc - 1) with (i + (argc - 1 - i)) in Hstn by lia.
  rewrite scp_prefix_add in Hstn. apply bind_Ok in Hstn as (st' & Hst' & Hrest).
  pose proof Hst' as Hround.
  replace i with (S (i - 1)) in Hround at 1 by lia.
  rewrite scp_prefix_S, Hst in Hround. rewrite res_bind_Ok_l in Hround.
  replace (S (i - 1)) with i in Hround by lia.
  pose proof (scp_body_argv2 _ _ _ _ _ Hround) as (Hroom & Hroom' & _ & _).
  destruct (scp_body_remote stat i st b k (cstr b0))
    as (d & dir & base & Hbody & Hbase & Hpath & Hno & Hdir);
    [lia | done | done | by left | done | lia | done |].
  rewrite Hbody in Hround. injection Hround as <-.
  exists (cstr b0), (take k (cstr b)), (drop (S k) (cstr b)), dir, base.
  eexists _, d. split; [by apply load_head|].
  split; [done|]. split; [done|]. split.
  - apply store_Ok in Hfin as [Hlt ->]. simpl.
    apply scp_loop_argv2 in Hrest as (Hle & _ & Hpre). simpl in *.
    rewrite list_lookup_insert_ne by lia.
    rewrite Hpre by lia. by apply list_lookup_insert_eq.
  - split; [exact Hst'|]. done.
Qed.

Ltac by_compute := apply (bool_decide_unpack _); vm_compute; exact I.

Lemma remote_token_becomes_url_witness :
  let args := cs <$> ["scp"; "-q"; "user@host:/a/b/c.txt"; "out/"]%string in
  ∃ st fin,
    scp_prefix (λ _, None) 6 1 args = Ok st
    ∧ scp_scan_cap (λ _, None) 6 4 args = Ok fin
    ∧ ∃ alias userHost remotePath dir base st' d,
        load args (Ptr 0 0) = Ok alias
        ∧ cs "user@host:/a/b/c.txt" = userHost ++ ":"%char :: remotePath
        ∧ (":"%char ∉ userHost)
        ∧ argv2 fin !! argc2 st
          = Some (Str (alias ++ cs "://" ++ userHost ++ cs "/" ++ remotePath))
        ∧ scp_prefix (λ _, None) 6 2 args = Ok st'
        ∧ distantFileName st' = Some d
        ∧ load (argv st') d = Ok base
        ∧ remotePath = dir ++ base
        ∧ ("/"%char ∉ base)
        ∧ (dir = [] ∨ list.last dir = Some "/"%char).
Proof.
  intros args. eexists _, _.
  split; [vm_compute; reflexivity|]. split; [vm_compute; reflexivity|].
  apply (remote_token_becomes_url (λ _, None) 6 4 args 2
           (cs "user@host:/a/b/c.txt")).
  - lia.
  - reflexivity.
  - reflexivity.
  - by_compute.
  - vm_compute; reflexivity.
  - reflexivity.
  - vm_compute; reflexivity.
Defined.

(** ** [scp_convert] *)

Lemma scp_scan_cap_argv stat cap argc args st :
  scp_scan_cap stat cap argc args = Ok st →
  length (argv st) = length args
  ∧ argv st !! 0 = args !! 0
  ∧ ∀ j b, args !! j = Some b →
      argv st !! j = Some b
      ∨ (0 < j ∧ starts_with_dash (cstr b) = false
         ∧ ∃ k, strstr (cstr b) ":"%char = Some k
                ∧ argv st !! j = Some (<[k := NUL]> b)).
Proof.
  unfold scp_scan_cap. intros H. apply bind_Ok in H as (stn & Hstn & H).
  apply store_Ok in H as [_ ->]. simpl.
  destruct (scp_prefix_argv _ _ _ _ _ Hstn) as [Hlen Hj].
  split; [done|]. split; [by apply Hj; left|].
  intros j b Hb. destruct (Hj j) as [Hout Hin].
  destruct (decide (j = 0)) as [->|Hne].
  - left. rewrite Hout by (by left). done.
  - destruct (Hin b Hb) as [?|(? & ?)]; [by left|].
    right. split; [lia|done].
Qed.

(** C3 as stated fails: after [scp user@host:~/file.txt local.txt] the
    second token holds a terminator where its ':' was. *)
Lemma scp_convert_cuts_remote_token :
  ¬ leaves_argv_alone all_fine (curl_main all_fine 1) 3
      (cs <$> ["scp"; "user@host:~/file.txt"; "local.txt"]%string) boot.
Proof.
  intros H.
  assert (Hrun : ∃ x, scp_convert all_fine (curl_main all_fine 1) 3
      (cs <$> ["scp"; "user@host:~/file.txt"; "local.txt"]%string) boot = Ok x)
    by (eexists; vm_compute; reflexivity).
  destruct Hrun as [[[a r] w] Hrun].
  pose proof (H _ _ _ Hrun) as ->.
  vm_compute in Hrun. discriminate Hrun.
Qed.

Lemma load_ext mem mem' p :
  mem !! blk p = mem' !! blk p → load mem p = load mem' p.
Proof. intros H. unfold load. by rewrite H. Qed.




(** With both files found, the list is handed to the entry point and
    freed when that returns. *)
Lemma scp_convert_delegates E callee argc args w st out :
  scp_scan_cap (stat E) (argc + 2) argc args = Ok st →
  is_Some (localFileName st) → is_Some (distantFileName st) →
  cells_strings (take (argc2 st) (argv2 st)) = Ok out →
  scp_convert E callee argc args w
  = (callee (argc2 st) out w ≫= λ '(r, w'),
       Ok (argv st, r, emit (EvFreeArgv2 (take (argc2 st) (argv2 st))) w')).
Proof.
  intros Hst Hl Hd Hout. unfold scp_convert. rewrite Hst, res_bind_Ok_l.
  rewrite !bool_decide_eq_true_2 by done. simpl. rewrite Hout. simpl.
  destruct (callee (argc2 st) out w) as [[r w']|e]; reflexivity.
Qed.

(** A token that starts with '-' is copied, [-q] as [-s]. *)
Lemma scp_body_flag stat proto i st tok :
  load (argv st) (Ptr i 0) = Ok tok →
  starts_with_dash tok = true →
  argc2 st < length (argv2 st) →
  scp_body stat proto i st
  = Ok (Scan (argv st) (<[argc2 st := Str (flag_rewrite tok)]> (argv2 st))
          (S (argc2 st)) (localFileName st) (distantFileName st)).
Proof.
  intros Htok Hdash Hroom. unfold scp_body. rewrite Htok. simpl.
  rewrite Hdash. simpl. unfold store. by rewrite decide_True.
Qed.

(** C9: [scp -q user@host:/a/b/c.txt out/] is handed on as
    [curl -s scp://user@host//a/b/c.txt -o out/c.txt], whatever the
    file system says: [-q] has become [-s] and is gone, [-o] is followed
    by the local path with the remote base name appended; and in
    general a token that starts with '-' and is not [-q] is copied
    unchanged. *)
Theorem quiet_download_into_directory E callee w :
  let args := cs <$> ["scp"; "-q"; "user@host:/a/b/c.txt"; "out/"]%string in
  let out := cs <$> ["curl"; "-s"; "scp://user@host//a/b/c.txt"; "-o";
                     "out/c.txt"]%string in
  (∃ args',
     scp_convert E callee 4 args w
     = (callee 5 out w ≫= λ '(r, w'),
          Ok (args', r, emit (EvFreeArgv2 (Str <$> out)) w')))
  ∧ (cs "-s" ∈ out)
  ∧ (cs "-q" ∉ out)
  ∧ (∃ pre post, out = pre ++ [cs "-o"; cs "out/c.txt"] ++ post)
  ∧ flag_rewrite (cs "-q") = cs "-s"
  ∧ (∀ tok, tok ≠ cs "-q" → flag_rewrite tok = tok)
  ∧ (∀ stat proto i st tok,
       load (argv st) (Ptr i 0) = Ok tok →
       starts_with_dash tok = true →
       argc2 st < length (argv2 st) →
       scp_body stat proto i st
       = Ok (Scan (argv st) (<[argc2 st := Str (flag_rewrite tok)]> (argv2 st))
               (S (argc2 st)) (localFileName st) (distantFileName st))).
Proof.
  intros args out. split; [|split; [|split; [|split; [|split; [|split]]]]].
  - destruct (scp_scan_cap (stat E) (4 + 2) 4 args) as [st|e] eqn:Hst;
      [|vm_compute in Hst; discriminate Hst].
    exists (argv st).
    rewrite (scp_convert_delegates E callee 4 args w st out Hst);
      vm_compute in Hst; injection Hst as <-; by eauto.
  - by_compute.
  - by_compute.
  - by exists (cs <$> ["curl"; "-s"; "scp://user@host//a/b/c.txt"]%string), [].
  - reflexivity.
  - intros tok Hne. unfold flag_rewrite. by rewrite decide_False.
  - intros stat proto i st tok Htok Hdash Hroom.
    by apply scp_body_flag.
Qed.

(** C2, on the code: [scp localfile.txt user@host:/remote/path/] is
    handed on as [curl -T localfile.txt scp://user@host//remote/path/];
    the URL ends where the remote directory ends, the name of the local
    file is not appended to it. *)
Theorem upload_url_lacks_file_name E callee w :
  let args := cs <$> ["scp"; "localfile.txt"; "user@host:/remote/path/"]%string in
  let out := cs <$> ["curl"; "-T"; "localfile.txt";
                     "scp://user@host//remote/path/"]%string in
  (∃ args',
     scp_convert E callee 3 args w
     = (callee 4 out w ≫= λ '(r, w'),
          Ok (args', r, emit (EvFreeArgv2 (Str <$> out)) w')))
  ∧ (cs "-T" ∈ out)
  ∧ (cs "localfile.txt" ∈ out)
  ∧ (cs "scp://user@host//remote/path/localfile.txt" ∉ out).
Proof.
  intros args out. split; [|split; [|split]].
  - destruct (scp_scan_cap (stat E) (3 + 2) 3 args) as [st|e] eqn:Hst;
      [|vm_compute in Hst; discriminate Hst].
    exists (argv st).
    rewrite (scp_convert_delegates E callee 3 args w st out Hst);
      vm_compute in Hst; injection Hst as <-; by eauto.
  - by_compute.
  - by_compute.
  - by_compute.
Qed.

(** C10, on the code: [scp a b h:r] has [argc = 4], so [argv2] has room
    for 6 entries; the scan writes [curl -T a -T b scp://h/r], which are
    6, and the terminator is stored at index 6, past the end.  With room
    for 7 the same scan ends with 7 entries written. *)
Theorem two_uploads_overrun_argv2 E callee w :
  let args := cs <$> ["scp"; "a"; "b"; "h:r"]%string in
  scp_scan_cap (stat E) (4 + 2) 4 args = Undefined (StoreOutOfBounds 6 6)
  ∧ scp_convert E callee 4 args w = Undefined (StoreOutOfBounds 6 6)
  ∧ ∃ st,
      scp_scan_cap (stat E) 7 4 args = Ok st
      ∧ argv2 st = (Str ∘ cs <$> ["curl"; "-T"; "a"; "-T"; "b"; "scp://h/r"]%string)
                   ++ [Null]
      ∧ length (argv2 st) > 4 + 2.
Proof.
  intros args.
  assert (Hscan : scp_scan_cap (stat E) (4 + 2) 4 args
                  = Undefined (StoreOutOfBounds 6 6)) by (vm_compute; reflexivity).
  split; [exact Hscan|]. split.
  - unfold scp_convert. by rewrite Hscan.
  - eexists. split; [vm_compute; reflexivity|]. split; [reflexivity|]. simpl. lia.
Qed.

(** ** Fuel *)

Lemma scp_scan_cap_curl stat cap argc args st :
  scp_scan_cap stat cap argc args = Ok st →
  0 < argc2 st ∧ argv2 st !! 0 = Some (Str (cs "curl")).
Proof.
  unfold scp_scan_cap. intros H. apply bind_Ok in H as (stn & Hstn & H).
  apply scp_prefix_argv2 in Hstn as (Hpos & _ & Hcurl).
  apply store_Ok in H as [_ ->]. simpl.
  split; [done|]. by rewrite list_lookup_insert_ne by lia.
Qed.

(** What [scp_convert] hands on is a [curl] command line. *)
Lemma scp_convert_callee E c1 c2 argc args w :
  (∀ n a w', canonical a → c1 n a w' = c2 n a w') →
  scp_convert E c1 argc args w = scp_convert E c2 argc args w.
Proof.
  intros Hagree. unfold scp_convert.
  destruct (scp_scan_cap (stat E) (argc + 2) argc args) as [st|e] eqn:Hst; [|done].
  rewrite !res_bind_Ok_l.
  destruct (bool_decide (is_Some (localFileName st))
            && bool_decide (is_Some (distantFileName st))); [|done].
  destruct (scp_scan_cap_curl _ _ _ _ _ Hst) as [Hpos Hcurl].
  destruct (argv2 st) as [|c cells]; [discriminate Hcurl|].
  injection Hcurl as ->.
  destruct (argc2 st) as [|n]; [lia|]. simpl.
  destruct (cells_strings (take n cells)) as [out|e]; [|done]. simpl.
  rewrite Hagree; [done|].
  exists (cs "curl"). split; [reflexivity|]. split; discriminate.
Qed.

Lemma curl_main_S E fuel argc args w :
  curl_main E (S fuel) argc args w =
  (load args (Ptr 0 0) ≫= λ name,
     if bool_decide (name = cs "scp") || bool_decide (name = cs "sftp")
     then scp_convert E (curl_main E fuel) argc args w ≫= λ '(_, r, w'), Ok (r, w')
     else
       let r := main_init E zeroed (emit EvCheckFds w) in
       if decide (r.1.1 = 0%Z) then
         let o := operate E r.1.2 argc args in
         Ok (o.2, (main_free o.1 (emit (EvOperate argc args o.2) r.2)).2)
       else Ok (r.1.1, r.2)).
Proof.
  cbn [curl_main].
  destruct (load args (Ptr 0 0)) as [name|e]; [|done]. rewrite !res_bind_Ok_l.
  destruct (bool_decide (name = cs "scp") || bool_decide (name = cs "sftp")); [done|].
  cbv zeta.
  destruct (main_init E zeroed (emit EvCheckFds w)) as [[result global] w1]. simpl.
  destruct (decide (result = 0%Z)); [|done].
  destruct (operate E global argc args) as [global' result']. simpl.
  by destruct (main_free global' (emit (EvOperate argc args result') w1)).
Qed.

(** Two levels of [curl_main] are all a run uses. *)
Lemma curl_main_fuel E fuel argc args w :
  curl_main E (S (S fuel)) argc args w = curl_main E 2 argc args w.
Proof.
  rewrite !curl_main_S.
  destruct (load args (Ptr 0 0)) as [name|e]; [|done]. rewrite !res_bind_Ok_l.
  destruct (bool_decide (name = cs "scp") || bool_decide (name = cs "sftp")); [|done].
  rewrite (scp_convert_callee E (curl_main E (S fuel)) (curl_main E 1)); [done|].
  intros n a w' Hcan. by rewrite !curl_main_canonical.
Qed.

Lemma bind_fuel {A B} (m : res A) (f : A → res B) :
  m ≫= f = Undefined OutOfFuel →
  m = Undefined OutOfFuel ∨ ∃ x, m = Ok x ∧ f x = Undefined OutOfFuel.
Proof. destruct m as [x|e]; simpl; [eauto | intros [= ->]; by left]. Qed.

Lemma load_fuel mem p : load mem p ≠ Undefined OutOfFuel.
Proof. unfold load. repeat case_match; discriminate. Qed.

Lemma poke_fuel mem p c : poke mem p c ≠ Undefined OutOfFuel.
Proof. unfold poke. repeat case_match; discriminate. Qed.

Lemma store_fuel v st : store v st ≠ Undefined OutOfFuel.
Proof. unfold store. case_match; discriminate. Qed.

Lemma skip_dirs_fuel mem p s :
  load mem p = Ok s → skip_dirs (S (length s)) mem p ≠ Undefined OutOfFuel.
Proof.
  intros H. destruct (skip_dirs_spec (S (length s)) mem p s H)
    as (d & _ & _ & -> & _); [lia | discriminate].
Qed.

Ltac fuel_step :=
  match goal with
  | H : Ok _ = Undefined _ |- _ => discriminate H
  | H : Undefined BadRead = Undefined OutOfFuel |- _ => discriminate H
  | H : load _ _ = Undefined OutOfFuel |- _ => by apply load_fuel in H
  | H : poke _ _ _ = Undefined OutOfFuel |- _ => by apply poke_fuel in H
  | H : store _ _ = Undefined OutOfFuel |- _ => by apply store_fuel in H
  | H : skip_dirs (S (length ?s)) ?m ?p = Undefined OutOfFuel,
    H' : load ?m ?p = Ok ?s |- _ => by apply (skip_dirs_fuel m p s H') in H
  | H : _ ≫= _ = Undefined OutOfFuel |- _ =>
      apply bind_fuel in H as [H | (? & ? & H)]
  | H : context [match ?x with _ => _ end] |- _ => destruct x eqn:?
  end.

(** The fuel of line 268's loop is never what stops a round. *)
Lemma scp_body_fuel stat proto i st :
  scp_body stat proto i st ≠ Undefined OutOfFuel.
Proof.
  intros H. unfold scp_body in H. simpl in H. repeat fuel_step.
Qed.

Lemma scp_loop_fuel stat proto todo st :
  scp_loop stat proto todo st ≠ Undefined OutOfFuel.
Proof.
  revert st. induction todo as [|i todo IH]; intros st; simpl; [discriminate|].
  intros H. apply bind_fuel in H as [H | (st1 & _ & H)].
  - by apply scp_body_fuel in H.
  - by apply IH in H.
Qed.

Lemma scp_scan_cap_fuel stat cap argc args :
  scp_scan_cap stat cap argc args ≠ Undefined OutOfFuel.
Proof.
  unfold scp_scan_cap, scp_prefix. intros H. repeat fuel_step.
  by apply scp_loop_fuel in H.
Qed.

(** With two levels of fuel [curl_main] never stops for lack of it. *)
Lemma curl_main_runs E fuel argc args w :
  curl_main E (S (S fuel)) argc args w ≠ Undefined OutOfFuel.
Proof.
  rewrite curl_main_fuel, curl_main_S. intros H.
  apply bind_fuel in H as [H | (name & _ & H)]; [by apply load_fuel in H|].
  destruct (bool_decide (name = cs "scp") || bool_decide (name = cs "sftp")).
  - rewrite (scp_convert_callee E (curl_main E 1)
      (λ n a w', let r := main_init E zeroed (emit EvCheckFds w') in
         if decide (r.1.1 = 0%Z) then
           let o := operate E r.1.2 n a in
           Ok (o.2, (main_free o.1 (emit (EvOperate n a o.2) r.2)).2)
         else Ok (r.1.1, r.2))) in H
      by (intros n a w' Hcan; by rewrite curl_main_canonical).
    apply bind_fuel in H as [H | ([[a r] w'] & _ & H)]; [|discriminate H].
    unfold scp_convert in H.
    apply bind_fuel in H as [H | (st & _ & H)]; [by apply scp_scan_cap_fuel in H|].
    apply bind_fuel in H as [H | ([r w'] & _ & H)]; [|discriminate H].
    destruct (_ && _).
    + apply bind_fuel in H as [H | (out & _ & H)].
      * clear -H. induction (take (argc2 st) (argv2 st)) as [|c l IH];
          simpl in H; [discriminate|].
        destruct c; try discriminate.
        apply bind_fuel in H as [H | (? & _ & H)]; [by apply IH | discriminate].
      * cbv zeta in H. by destruct (decide _).
    + repeat fuel_step.
  - cbv zeta in H. by destruct (decide _).
Qed.

(** ** The scan against the survey *)

Lemma known_Some p : known (Some p) = true.
Proof. unfold known. apply bool_decide_eq_true_2. eauto. Qed.

Lemma known_None : known None = false.
Proof. unfold known. apply bool_decide_eq_false_2. by apply is_Some_None. Qed.

Lemma scp_body_role stat i st b :
  i ≠ 0 → is_Some (argv st !! 0) →
  argv st !! i = Some b →
  (∀ d, distantFileName st = Some d → ∃ s, load (argv st) d = Ok s) →
  let r := role_of (known (localFileName st)) (known (distantFileName st)) (cstr b) in
  argc2 st + entries_of r ≤ length (argv2 st) →
  (r = Output → cstr b ≠ []) →
  ∃ st', scp_body stat (Ptr 0 0) i st = Ok st'
    ∧ argc2 st' = argc2 st + entries_of r
    ∧ known (localFileName st') = known (localFileName st) || sets_local r
    ∧ known (distantFileName st') = known (distantFileName st) || sets_remote r
    ∧ (∀ d, distantFileName st' = Some d → ∃ s, load (argv st') d = Ok s).
Proof.
  intros Hi [b0 Hb0] Hb Hd r Hroom Hread. subst r. unfold role_of in *.
  destruct (starts_with_dash (cstr b)
            || known (distantFileName st) && known (localFileName st)) eqn:Hc.
  - (* copied *)
    simpl in Hroom. unfold scp_body. rewrite (load_head _ _ _ Hb). simpl.
    fold (known (distantFileName st)) (known (localFileName st)). rewrite Hc.
    unfold store. rewrite decide_True by lia. simpl.
    eexists. split; [reflexivity|]. simpl.
    rewrite !orb_false_r. split; [lia|]. done.
  - destruct (strstr (cstr b) ":"%char) as [k|] eqn:Hk.
    + (* the remote file *)
      simpl in Hroom. apply orb_false_iff in Hc as [Hdash Hboth].
      destruct (scp_body_remote stat i st b k (cstr b0))
        as (d & dir & base & Hbody & Hbase & _); try done.
      { apply andb_false_iff in Hboth as [H|H]; [left|right];
          unfold known in H; apply bool_decide_eq_false_1 in H;
          by apply eq_None_not_Some. }
      { lia. }
      { by apply load_head. }
      eexists. split; [exact Hbody|]. simpl.
      rewrite known_Some, orb_true_r, orb_false_r.
      split; [lia|]. split; [done|]. split; [done|].
      intros d' [= <-]. eauto.
    + destruct (distantFileName st) as [d|] eqn:Hdist.
      * (* a local path after the remote file *)
        apply orb_false_iff in Hc as [Hdash Hboth].
        rewrite known_Some in Hboth. simpl in Hboth.
        rewrite known_Some in *.
        destruct (Hd d eq_refl) as [base Hbase].
        destruct (bool_decide (cstr b = cs ".")) eqn:Hdot; simpl in Hroom, Hread;
          unfold scp_body; rewrite (load_head _ _ _ Hb); simpl;
          rewrite Hdist; fold (known (Some d)) (known (localFileName st));
          rewrite known_Some, Hboth, Hdash, Hk; simpl in Hdot |- *; rewrite Hdot.
        -- apply bool_decide_eq_true_1 in Hdot. rewrite Hdot. simpl.
           unfold store. simpl. rewrite decide_True by lia. simpl.
           eexists. split; [reflexivity|]. simpl.
           rewrite ?Hdist, ?known_Some, ?orb_true_r. split; [lia|]. split; [done|].
           split; [done|]. intros d' [= <-]. eauto.
        -- rewrite andb_false_r.
           specialize (Hread eq_refl).
           unfold store. simpl. rewrite decide_True by lia. simpl.
           destruct (cstr b) as [|c tok] eqn:Htok; [done|].
           cbn [length mbind res_bind].
           destruct (bool_decide ((c :: tok) !! length tok = Some "/"%char)).
           ++ rewrite Hbase. simpl. rewrite length_insert.
              rewrite decide_True by lia. simpl.
              eexists. split; [reflexivity|]. simpl.
              rewrite ?Hdist, ?known_Some, ?orb_true_r. split; [lia|]. split; [done|].
              split; [done|]. intros d' [= <-]. eauto.
           ++ destruct (stat (c :: tok)) as [[|]|].
              ** rewrite Hbase. simpl. rewrite length_insert.
                 rewrite decide_True by lia. simpl.
                 eexists. split; [reflexivity|]. simpl.
                 rewrite ?Hdist, ?known_Some, ?orb_true_r. split; [lia|]. split; [done|].
                 split; [done|]. intros d' [= <-]. eauto.
              ** simpl. rewrite length_insert.
                 rewrite decide_True by lia. simpl.
                 eexists. split; [reflexivity|]. simpl.
                 rewrite ?Hdist, ?known_Some, ?orb_true_r. split; [lia|]. split; [done|].
                 split; [done|]. intros d' [= <-]. eauto.
              ** simpl. rewrite length_insert.
                 rewrite decide_True by lia. simpl.
                 eexists. split; [reflexivity|]. simpl.
                 rewrite ?Hdist, ?known_Some, ?orb_true_r. split; [lia|]. split; [done|].
                 split; [done|]. intros d' [= <-]. eauto.
      * (* a local file with no remote file yet *)
        apply orb_false_iff in Hc as [Hdash _].
        rewrite known_None in *. simpl in Hroom.
        unfold scp_body. rewrite (load_head _ _ _ Hb). simpl.
        rewrite Hdist. simpl. rewrite Hdash, Hk. simpl.
        unfold store. simpl. rewrite decide_True by lia. simpl.
        rewrite length_insert. rewrite decide_True by lia. simpl.
        eexists. split; [reflexivity|]. simpl.
        rewrite ?Hdist, ?known_Some, ?known_None, ?orb_true_r.
        split; [lia|]. done.
Qed.

Lemma scp_body_block0 stat proto i st st' :
  i ≠ 0 → scp_body stat proto i st = Ok st' →
  ∀ j, j ≠ i → argv st' !! j = argv st !! j.
Proof.
  intros Hi H j Hj.
  apply scp_body_argv in H as [-> | (b & k & _ & _ & _ & ->)]; [done|].
  by rewrite list_lookup_insert_ne.
Qed.

(** The rounds over tokens that are still as the caller passed them do
    what the survey of those tokens says, when [argv2] has room for the
    entries and no empty string is read backwards. *)
Lemma scp_loop_survey stat toks : ∀ a st,
  a ≠ 0 → is_Some (argv st !! 0) →
  (∀ k t, toks !! k = Some t → ∃ b, argv st !! (a + k) = Some b ∧ cstr b = t) →
  (∀ d, distantFileName st = Some d → ∃ s, load (argv st) d = Ok s) →
  let s := survey_from (known (localFileName st)) (known (distantFileName st)) toks in
  readable s = true →
  argc2 st + entries s ≤ length (argv2 st) →
  ∃ st', scp_loop stat (Ptr 0 0) (seq a (length toks)) st = Ok st'
    ∧ argc2 st' = argc2 st + entries s
    ∧ length (argv2 st') = length (argv2 st)
    ∧ known (localFileName st') = has_local s
    ∧ known (distantFileName st') = has_remote s.
Proof.
  induction toks as [|t toks IH]; intros a st Ha H0 Htoks Hd s Hread Hroom.
  - exists st. simpl. split; [done|]. split; [lia|]. done.
  - subst s. simpl in Hread, Hroom |- *.
    destruct (Htoks 0 t eq_refl) as (b & Hb & <-). rewrite Nat.add_0_r in Hb.
    apply andb_true_iff in Hread as [Hhere Hread].
    destruct (scp_body_role stat a st b Ha H0 Hb Hd)
      as (st1 & Hbody & Hargc & Hl & Hr & Hd1).
    { lia. }
    { intros Hrole. rewrite Hrole in Hhere.
      apply negb_true_iff, bool_decide_eq_false_1 in Hhere. done. }
    pose proof (scp_body_block0 _ _ _ _ _ Ha Hbody) as Hsame.
    pose proof (scp_body_argv2 _ _ _ _ _ Hbody) as (_ & _ & Hlen & _).
    destruct (IH (S a) st1) as (st' & Hloop & Hargc' & Hlen' & Hl' & Hr').
    + done.
    + rewrite Hsame by done. done.
    + intros k t' Hk. rewrite Hsame by lia.
      destruct (Htoks (S k) t' Hk) as (b' & Hb' & Hc).
      exists b'. split; [|done]. by replace (S a + k) with (a + S k) by lia.
    + done.
    + by rewrite Hl, Hr.
    + rewrite Hl, Hr, Hargc, Hlen. lia.
    + exists st'. rewrite Hbody, res_bind_Ok_l.
      split; [done|]. rewrite Hl, Hr in *.
      split; [lia|]. split; [congruence|]. done.
Qed.

Lemma tokens_lookup argc args k t :
  tokens argc args !! k = Some t →
  ∃ b, args !! (1 + k) = Some b ∧ cstr b = t.
Proof.
  unfold tokens. rewrite list_lookup_fmap. intros H.
  apply fmap_Some in H as (b & Hb & ->).
  apply lookup_take_Some in Hb as [Hb _]. rewrite lookup_drop in Hb. eauto.
Qed.

Lemma tokens_length argc args :
  argc ≤ length args → length (tokens argc args) = argc - 1.
Proof.
  intros H. unfold tokens. rewrite length_fmap, length_take, length_drop. lia.
Qed.

(** The scan is defined, and ends as the survey says, whenever the
    entries the survey counts and the terminator fit in [argv2] and no
    empty string is read backwards. *)
Theorem scp_scan_survey stat cap argc args :
  0 < argc ≤ length args →
  let s := survey_from false false (tokens argc args) in
  readable s = true →
  1 + entries s < cap →
  ∃ st, scp_scan_cap stat cap argc args = Ok st
    ∧ argc2 st = 1 + entries s
    ∧ length (argv2 st) = cap
    ∧ known (localFileName st) = has_local s
    ∧ known (distantFileName st) = has_remote s.
Proof.
  intros [Hpos Hlen] s Hread Hroom.
  unfold scp_scan_cap. rewrite scp_prefix_eq by lia.
  rewrite <- (tokens_length argc args Hlen).
  destruct (scp_loop_survey stat (tokens argc args) 1
              (Scan args (<[0 := Str (cs "curl")]> (replicate cap Junk)) 1 None None))
    as (st' & Hloop & Hargc & Hlen' & Hl & Hr).
  - done.
  - simpl. apply lookup_lt_is_Some. lia.
  - intros k t Hk. by apply tokens_lookup in Hk.
  - intros d [=].
  - done.
  - simpl. rewrite length_insert, length_replicate, known_None. fold s. lia.
  - simpl in *. rewrite length_insert, length_replicate in Hlen'.
    rewrite known_None in *. fold s in Hargc, Hl, Hr.
    rewrite Hloop, res_bind_Ok_l. unfold store.
    rewrite decide_True by lia.
    eexists. split; [reflexivity|]. simpl. by rewrite length_insert.
Qed.

Lemma survey_from_grows hl hr toks :
  (hl = true → has_local (survey_from hl hr toks) = true)
  ∧ (hr = true → has_remote (survey_from hl hr toks) = true).
Proof.
  revert hl hr. induction toks as [|t toks IH]; intros hl hr; simpl; [done|].
  destruct (IH (hl || sets_local (role_of hl hr t))
               (hr || sets_remote (role_of hl hr t))) as [Hl Hr].
  split; intros ->; [apply Hl | apply Hr]; done.
Qed.

(** Only a command line with both files can reach the read of line 282. *)
Lemma survey_from_unreadable hl hr toks :
  readable (survey_from hl hr toks) = false →
  has_local (survey_from hl hr toks) = true
  ∧ has_remote (survey_from hl hr toks) = true.
Proof.
  revert hl hr. induction toks as [|t toks IH]; intros hl hr; simpl; [done|].
  intros H. apply andb_false_iff in H as [H|H]; [|by apply IH].
  unfold role_of in *.
  destruct (starts_with_dash t || hr && hl); [done|].
  destruct (strstr t ":"%char); [done|].
  destruct hr; [|done]. destruct (bool_decide (t = cs ".")); [done|].
  simpl. rewrite orb_true_r.
  split; by apply survey_from_grows.
Qed.

(** The usage failure from the tokens alone: a command line whose
    tokens do not hold both a local and a remote file, and for which the
    scan writes no more than [argc] entries after [curl], is scanned to
    the end and turned down. *)
Lemma usage_failure_of_survey E callee argc args w :
  0 < argc ≤ length args →
  let s := survey_from false false (tokens argc args) in
  has_local s && has_remote s = false →
  entries s ≤ argc →
  ∃ st alias,
    scp_scan_cap (stat E) (argc + 2) argc args = Ok st
    ∧ (localFileName st = None ∨ distantFileName st = None)
    ∧ load args (Ptr 0 0) = Ok alias
    ∧ scp_convert E callee argc args w
      = Ok (argv st, (-1)%Z,
            emit (EvFreeArgv2 (take (argc2 st) (argv2 st)))
              (emit (EvFprintf (usage_upload_first alias))
                 (emit (EvFprintf (usage_download_first alias)) w))).
Proof.
  intros Hargc s Hmiss Hfit.
  assert (Hread : readable s = true).
  { destruct (readable s) eqn:Hr; [done|].
    apply survey_from_unreadable in Hr as [Hl Hr]. fold s in Hl, Hr.
    by rewrite Hl, Hr in Hmiss. }
  destruct (scp_scan_survey (stat E) (argc + 2) argc args Hargc Hread)
    as (st & Hst & _ & _ & Hl & Hr); [fold s; lia|].
  fold s in Hl, Hr.
  assert (Hnone : localFileName st = None ∨ distantFileName st = None).
  { rewrite <- Hl, <- Hr in Hmiss. unfold known in Hmiss.
    apply andb_false_iff in Hmiss as [H|H]; [left|right];
      apply bool_decide_eq_false_1 in H; by apply eq_None_not_Some. }
  assert (is_Some (args !! 0)) as [b0 Hb0] by (apply lookup_lt_is_Some; lia).
  exists st, (cstr b0). split; [done|]. split; [done|].
  split; [by apply load_head|].
  unfold scp_convert. rewrite Hst, res_bind_Ok_l.
  assert (Hboth : bool_decide (is_Some (localFileName st))
                  && bool_decide (is_Some (distantFileName st)) = false).
  { destruct Hnone as [-> | ->].
    - rewrite bool_decide_eq_false_2; [done | by apply is_Some_None].
    - rewrite (bool_decide_eq_false_2 (is_Some None)) by apply is_Some_None.
      apply andb_false_r. }
  rewrite Hboth.
  destruct (scp_scan_cap_argv _ _ _ _ _ Hst) as (_ & H0 & _).
  rewrite (load_ext (argv st) args (Ptr 0 0) H0), (load_head _ _ _ Hb0).
  reflexivity.
Qed.

(** ** [main_checkfds] *)

(** Membership in sets of descriptors, unfolded. *)
Ltac set_tac := set_unfold; intuition (subst; eauto; try congruence; try lia).

Lemma on_std_spec F p :
  on_std F p = true ↔ p.1 ∈ std_set F ∨ p.2 ∈ std_set F.
Proof.
  unfold on_std, std_set. rewrite !orb_true_iff, !bool_decide_eq_true.
  set_tac.
Qed.

Lemma std_set_size F X : size (std_set F ∖ X) ≤ 3.
Proof.
  etrans; [apply subseteq_size, (subseteq_difference_l _ _ _ (reflexivity _))|].
  unfold std_set.
  rewrite !size_union_alt, !size_singleton.
  pose proof (subseteq_size ({[fno_out F]} ∖ {[fno_in F]}) ({[fno_out F]} : gset nat)) as H1.
  pose proof (subseteq_size ({[fno_err F]} ∖ ({[fno_in F]} ∪ {[fno_out F]}))
                ({[fno_err F]} : gset nat)) as H2.
  rewrite size_singleton in H1, H2.
  specialize (H1 ltac:(set_tac)). specialize (H2 ltac:(set_tac)). lia.
Qed.

(** The loop ends: every round but the last takes one more standard
    descriptor out of those that are free, and there are three of them
    at most. *)
Lemma checkfds_loop_ends pipe F :
  fresh_pipe pipe →
  ∀ fuel st,
    fuel_needed F st ≤ fuel →
    ∃ returned st',
      checkfds_loop pipe F fuel st = Ok (returned, st')
      ∧ open_fds st ⊆ open_fds st'
      ∧ pipe_calls st' ≤ pipe_calls st
          + (if on_std F (fd st) then 1 + size (std_set F ∖ open_fds st) else 0)
      ∧ (returned = true →
         pipe_calls st < pipe_calls st' ∧ pipe (open_fds st') = None)
      ∧ (returned = false →
         on_std F (fd st') = false
         ∧ (st' = st
            ∨ pipe_calls st < pipe_calls st'
              ∧ ∃ o, open_fds st ⊆ o ∧ pipe o = Some (fd st')
                     ∧ open_fds st' = {[(fd st').1]} ∪ {[(fd st').2]} ∪ o)).
Proof.
  intros Hfresh fuel. induction fuel as [|fuel IH]; intros st Hfuel.
  { unfold fuel_needed in Hfuel. destruct (on_std F (fd st)); lia. }
  simpl. unfold fuel_needed in *. destruct (on_std F (fd st)) eqn:Hstd.
  - destruct (pipe (open_fds st)) as [[a b]|] eqn:Hpipe.
    + destruct (Hfresh _ _ _ Hpipe) as (Ha & Hb & Hab).
      set (st1 := Fds (a, b) ({[a]} ∪ {[b]} ∪ open_fds st) (S (pipe_calls st))).
      assert (Hneed : (if on_std F (fd st1)
                       then 2 + size (std_set F ∖ open_fds st1) else 1)
                      ≤ 1 + size (std_set F ∖ open_fds st)).
      { destruct (on_std F (fd st1)) eqn:Hstd1; [|lia].
        assert (size (std_set F ∖ open_fds st1) < size (std_set F ∖ open_fds st));
          [|lia].
        apply subset_size. apply on_std_spec in Hstd1.
        subst st1. simpl in *. clear -Hstd1 Ha Hb.
        split; [set_tac|]. intros Hsub.
        destruct Hstd1 as [H|H]; [specialize (Hsub a) | specialize (Hsub b)];
          set_tac. }
      destruct (IH st1) as (r & st' & Hrun & Hsub & Hcalls & Hret & Hexit); [lia|].
      exists r, st'. split; [done|]. simpl in *.
      split; [set_tac|].
      split; [destruct (on_std F (a, b)); lia|].
      split.
      * intros Hr. destruct (Hret Hr) as [Hlt Hnone]. split; [lia | done].
      * intros Hr. destruct (Hexit Hr) as [Hoff [-> | (Hlt & o & Ho & Hp & Heq)]].
        -- split; [done|]. right. simpl. split; [lia|].
           exists (open_fds st). done.
        -- split; [done|]. right. split; [lia|].
           exists o. split; [set_tac|]. done.
    + exists true, (Fds (fd st) (open_fds st) (S (pipe_calls st))). simpl.
      split; [done|]. split; [done|]. split; [lia|]. split; [|done].
      intros _. split; [lia | done].
  - exists false, st. split; [done|]. split; [done|].
    split; [lia|]. split; [done|]. intros _. split; [done|]. by left.
Qed.

Lemma first_free_spec open n : ∀ from a,
  first_free open from n = Some a →
  from ≤ a < from + n ∧ (a ∉ open) ∧ ∀ m, from ≤ m < a → m ∈ open.
Proof.
  induction n as [|n IH]; intros from a; simpl; [done|].
  destruct (decide (from ∈ open)) as [Hin|Hout].
  - intros H. destruct (IH _ _ H) as (Hr & Ha & Hlow).
    split; [lia|]. split; [done|]. intros m Hm.
    destruct (decide (m = from)) as [->|]; [done|]. apply Hlow. lia.
  - intros [= <-]. split; [lia|]. split; [done|]. intros m Hm. lia.
Qed.

Lemma posix_pipe_spec limit open a b :
  posix_pipe limit open = Some (a, b) →
  a < b < limit ∧ (a ∉ open) ∧ (b ∉ open)
  ∧ ∀ m, m < b → m ≠ a → m ∈ open.
Proof.
  unfold posix_pipe. intros H.
  destruct (first_free open 0 limit) as [a'|] eqn:Ha; [|done]. simpl in H.
  destruct (first_free open (S a') (limit - S a')) as [b'|] eqn:Hb; [|done].
  simpl in H. injection H as -> ->.
  destruct (first_free_spec _ _ _ _ Ha) as (Hra & Hna & Hla).
  destruct (first_free_spec _ _ _ _ Hb) as (Hrb & Hnb & Hlb).
  split; [lia|]. split; [done|]. split; [done|].
  intros m Hm Hne. destruct (decide (m < a)); [apply Hla; lia | apply Hlb; lia].
Qed.

Lemma posix_pipe_fresh limit : fresh_pipe (posix_pipe limit).
Proof.
  intros open a b H. destruct (posix_pipe_spec _ _ _ _ H) as (Hlt & Ha & Hb & _).
  split; [done|]. split; [done|]. lia.
Qed.

(** X1: [main_checkfds] comes to an end whatever is open when it
    starts.  With a [pipe] that hands out fresh descriptors, five rounds
    of fuel are enough; [pipe] is called between one and four times;
    nothing that was open is closed; the early return of line 86 happens
    only after [pipe] has failed; and otherwise the two descriptors of
    the last call are no standard ones and have been closed again, which
    leaves open what was open when that call was made. *)
Theorem main_checkfds_ends pipe F fuel open :
  fresh_pipe pipe → 5 ≤ fuel →
  ∃ returned st,
    main_checkfds pipe F fuel open = Ok (returned, st)
    ∧ open ⊆ open_fds st
    ∧ 1 ≤ pipe_calls st ≤ 4
    ∧ (returned = true → pipe (open_fds st) = None)
    ∧ (returned = false →
       on_std F (fd st) = false
       ∧ ((fd st).1 ∉ open_fds st) ∧ ((fd st).2 ∉ open_fds st)
       ∧ pipe (open_fds st) = Some (fd st)).
Proof.
  intros Hfresh Hfuel. unfold main_checkfds.
  set (st0 := Fds (fno_in F, fno_in F) open 0).
  assert (Hstd0 : on_std F (fd st0) = true).
  { apply on_std_spec. left. unfold std_set. simpl. set_tac. }
  pose proof (std_set_size F open) as Hsize.
  destruct (checkfds_loop_ends pipe F Hfresh fuel st0)
    as (r & st' & Hrun & Hsub & Hcalls & Hret & Hexit).
  { unfold fuel_needed. rewrite Hstd0. simpl. lia. }
  rewrite Hrun, res_bind_Ok_l. rewrite Hstd0 in Hcalls. simpl in *.
  destruct r.
  - exists true, st'. destruct (Hret eq_refl) as [Hlt Hnone].
    split; [done|]. split; [done|]. split; [lia|]. split; [done|]. done.
  - destruct (Hexit eq_refl) as [Hoff [-> | (Hlt & o & Ho & Hp & Heq)]].
    { simpl in Hoff. congruence. }
    destruct (fd st') as [a b] eqn:Hfd. simpl in Heq.
    destruct (Hfresh _ _ _ Hp) as (Ha & Hb & Hab).
    assert (Hleft : open_fds st' ∖ {[a]} ∖ {[b]} = o).
    { rewrite Heq. apply set_eq. intros x.
      rewrite !elem_of_difference, !elem_of_union, !elem_of_singleton.
      split; [tauto|]. intros Hx.
      split; [split; [tauto|]|]; intros ->; tauto. }
    eexists false, _. split; [reflexivity|]. simpl. rewrite Hleft.
    split; [done|]. split; [lia|]. split; [done|].
    intros _. done.
Qed.

Lemma main_checkfds_ends_witness :
  fresh_pipe (posix_pipe 16) ∧ 5 ≤ 5
  ∧ ∃ returned st,
      main_checkfds (posix_pipe 16) (Fnos 0 1 2) 5 {[0]} = Ok (returned, st)
      ∧ {[0]} ⊆ open_fds st
      ∧ 1 ≤ pipe_calls st ≤ 4.
Proof.
  split; [apply posix_pipe_fresh|]. split; [lia|].
  destruct (main_checkfds_ends (posix_pipe 16) (Fnos 0 1 2) 5 {[0]}
              (posix_pipe_fresh 16) (le_n 5))
    as (returned & st & Hrun & Hsub & Hcalls & _).
  exists returned, st. split; [exact Hrun|]. split; [exact Hsub | exact Hcalls].
Defined.

(** X2: with a [pipe] that hands out the two lowest free descriptors,
    as POSIX has it, a [main_checkfds] that does not run out of handles
    does what it is there for: every descriptor below the pair it ends
    with is open, so that a standard descriptor is open or lies above
    that pair; and where the standard descriptors are 0, 1 and 2, all
    three are open afterwards. *)
Theorem main_checkfds_fills_standard limit F fuel open st :
  5 ≤ fuel →
  main_checkfds (posix_pipe limit) F fuel open = Ok (false, st) →
  (∀ n, n < (fd st).2 → n ≠ (fd st).1 → n ∈ open_fds st)
  ∧ (∀ s, s ∈ std_set F → s ∈ open_fds st ∨ (fd st).2 < s)
  ∧ (fno_in F = 0 → fno_out F = 1 → fno_err F = 2 →
     0 ∈ open_fds st ∧ 1 ∈ open_fds st ∧ 2 ∈ open_fds st
     ∧ 3 ≤ (fd st).1 < (fd st).2).
Proof.
  intros Hfuel. unfold main_checkfds.
  set (st0 := Fds (fno_in F, fno_in F) open 0).
  assert (Hstd0 : on_std F (fd st0) = true).
  { apply on_std_spec. left. unfold std_set. simpl. set_tac. }
  pose proof (std_set_size F open) as Hsize.
  destruct (checkfds_loop_ends _ F (posix_pipe_fresh limit) fuel st0)
    as (r & st' & Hrun & Hsub & Hcalls & Hret & Hexit).
  { unfold fuel_needed. rewrite Hstd0. simpl. lia. }
  rewrite Hrun, res_bind_Ok_l. destruct r; [done|].
  intros [= <-]. simpl.
  destruct (Hexit eq_refl) as [Hoff [-> | (Hlt & o & Ho & Hp & Heq)]].
  { congruence. }
  destruct (fd st') as [a b] eqn:Hfd. simpl in *.
  destruct (posix_pipe_spec _ _ _ _ Hp) as (Hab & Ha & Hb & Hlow).
  assert (Hopen : ∀ n, n < b → n ≠ a → n ∈ open_fds st' ∖ {[a]} ∖ {[b]}).
  { intros n Hn Hne. specialize (Hlow n Hn Hne).
    assert (n ≠ b) by lia. rewrite Heq. set_tac. }
  assert (Hnot : ∀ s, s ∈ std_set F → s ≠ a ∧ s ≠ b).
  { intros s Hs. split; intros ->.
    - assert (on_std F (a, b) = true); [|congruence].
      apply on_std_spec. by left.
    - assert (on_std F (a, b) = true); [|congruence].
      apply on_std_spec. by right. }
  split; [done|]. split.
  - intros s Hs. destruct (Hnot s Hs) as [Hsa Hsb].
    destruct (decide (s < b)); [left; by apply Hopen | right; lia].
  - intros H0 H1 H2.
    assert (Hs0 : 0 ∈ std_set F) by (unfold std_set; rewrite H0; set_tac).
    assert (Hs1 : 1 ∈ std_set F) by (unfold std_set; rewrite H1; set_tac).
    assert (Hs2 : 2 ∈ std_set F) by (unfold std_set; rewrite H2; set_tac).
    pose proof (Hnot _ Hs0). pose proof (Hnot _ Hs1). pose proof (Hnot _ Hs2).
    assert (3 ≤ a) by lia.
    split; [apply Hopen; lia|]. split; [apply Hopen; lia|].
    split; [apply Hopen; lia|]. lia.
Qed.

Lemma main_checkfds_fills_standard_witness :
  5 ≤ 5
  ∧ main_checkfds (posix_pipe 16) (Fnos 0 1 2) 5 {[0]}
    = Ok (false, Fds (3, 4) {[0; 1; 2]} 2)
  ∧ 0 ∈ ({[0; 1; 2]} : gset nat).
Proof.
  assert (Hrun : main_checkfds (posix_pipe 16) (Fnos 0 1 2) 5 {[0]}
                 = Ok (false, Fds (3, 4) {[0; 1; 2]} 2)).
  { vm_compute. reflexivity. }
  split; [lia|]. split; [exact Hrun|].
  destruct (main_checkfds_fills_standard 16 (Fnos 0 1 2) 5 {[0]} _
              (le_n 5) Hrun) as (_ & _ & H).
  destruct (H eq_refl eq_refl eq_refl) as [H0 _]. exact H0.
Defined.

(** ** [memory_tracking_init] *)

Lemma cstr_app_NUL v : cstr (v ++ [NUL]) = cstr v.
Proof.
  induction v as [|c v IH]; simpl; [done|].
  destruct (decide (c = NUL)); [done | by rewrite IH].
Qed.

Lemma strcpy_Ok cap src :
  length (cstr src) < cap → strcpy cap src = Ok (cstr src).
Proof. intros H. unfold strcpy. by rewrite decide_True. Qed.

(** What the first half of [memory_tracking_init] hands to
    [curl_memdebug]. *)
Lemma memdebug_name bufsize v :
  0 < bufsize →
  ((if decide (bufsize ≤ length (cstr (v ++ [NUL]))) then
      match bufsize with
      | 0 => Undefined (StoreOutOfBounds 0 0)
      | S k => Ok (<[k := NUL]> (v ++ [NUL]))
      end
    else Ok (v ++ [NUL])) ≫= λ env,
   strcpy bufsize env ≫= λ fname, Ok [MtFree; MtMemdebug fname])
  = Ok [MtFree; MtMemdebug (take (bufsize - 1) (cstr v))]
  ∧ length (take (bufsize - 1) (cstr v)) < bufsize.
Proof.
  intros Hpos. rewrite cstr_app_NUL. split; [|rewrite length_take; lia].
  destruct bufsize as [|k]; [lia|]. simpl. rewrite Nat.sub_0_r.
  destruct (decide (S k ≤ length (cstr v))) as [Hlong|Hshort].
  - rewrite res_bind_Ok_l.
    assert (Hcut : cstr (<[k := NUL]> (v ++ [NUL])) = take k (cstr v)).
    { rewrite cstr_insert_NUL; rewrite cstr_app_NUL; [done | lia]. }
    rewrite strcpy_Ok; rewrite Hcut; [done|].
    rewrite length_take. lia.
  - rewrite res_bind_Ok_l, strcpy_Ok; rewrite cstr_app_NUL; [|lia].
    rewrite take_ge by lia. done.
Qed.

(** With a buffer of at least one byte nothing is undefined, and the
    calls are these. *)
Lemma memory_tracking_init_eq getenv bufsize long_max :
  0 < bufsize →
  memory_tracking_init getenv bufsize long_max
  = Ok ((match getenv (cs "CURL_MEMDEBUG") with
         | Some v => [MtFree; MtMemdebug (take (bufsize - 1) (cstr v))]
         | None => []
         end)
        ++ (match getenv (cs "CURL_MEMLIMIT") with
            | Some v =>
                let conv := strtol long_max (cstr v) in
                (if bool_decide (conv.2 ≠ 0)
                    && bool_decide (conv.2 = length (cstr v))
                    && bool_decide (0 < conv.1)%Z
                 then [MtMemlimit conv.1] else []) ++ [MtFree]
            | None => []
            end)).
Proof.
  intros Hpos. unfold memory_tracking_init.
  assert (Hfirst :
    match getenv (cs "CURL_MEMDEBUG") with
    | Some v =>
        (if decide (bufsize ≤ length (cstr (v ++ [NUL]))) then
           match bufsize with
           | 0 => Undefined (StoreOutOfBounds 0 0)
           | S k => Ok (<[k := NUL]> (v ++ [NUL]))
           end
         else Ok (v ++ [NUL])) ≫= λ env,
        strcpy bufsize env ≫= λ fname, Ok [MtFree; MtMemdebug fname]
    | None => Ok []
    end
    = Ok (match getenv (cs "CURL_MEMDEBUG") with
          | Some v => [MtFree; MtMemdebug (take (bufsize - 1) (cstr v))]
          | None => []
          end)).
  { destruct (getenv (cs "CURL_MEMDEBUG")) as [v|]; [|done].
    by destruct (memdebug_name bufsize v Hpos) as [-> _]. }
  rewrite Hfirst, res_bind_Ok_l.
  destruct (getenv (cs "CURL_MEMLIMIT")) as [v|]; [|by rewrite app_nil_r].
  rewrite cstr_app_NUL. cbv zeta.
  destruct (strtol long_max (cstr v)) as [num endptr]. simpl.
  destruct (_ && _ && _); by rewrite <- ?app_assoc.
Qed.

Lemma run_le p s : run p s ≤ length s.
Proof. induction s as [|c s IH]; simpl; [lia|]. destruct (p c); simpl; lia. Qed.

Lemma run_take p s : Forall (λ c, p c = true) (take (run p s) s).
Proof.
  induction s as [|c s IH]; simpl; [constructor|].
  destruct (p c) eqn:Hc; simpl; [by constructor | constructor].
Qed.

Lemma run_app p a b :
  Forall (λ c, p c = true) a →
  (∀ c, head b = Some c → p c = false) →
  run p (a ++ b) = length a.
Proof.
  intros Ha Hb. induction Ha as [|c a Hc Ha IH]; simpl.
  - destruct b as [|c b]; simpl; [done|]. by rewrite (Hb c).
  - by rewrite Hc, IH.
Qed.

Lemma run_all p s : Forall (λ c, p c = true) s → run p s = length s.
Proof.
  intros H. rewrite <- (app_nil_r s) at 1. apply run_app; [done|].
  intros c. discriminate.
Qed.

Lemma decimal_nonneg ds : (0 ≤ decimal ds)%Z.
Proof.
  unfold decimal.
  assert (H : ∀ acc, (0 ≤ acc)%Z →
    (0 ≤ foldl (λ a c, (10 * a + Z.of_nat (nat_of_ascii c - 48))%Z) acc ds)%Z).
  { induction ds as [|c ds IH]; intros acc Hacc; simpl; [done|].
    apply IH. lia. }
  apply H. lia.
Qed.

Lemma isdigit_not_space c : isdigit c = true → isspace c = false.
Proof.
  unfold isdigit, isspace. cbv zeta.
  rewrite andb_true_iff, !Nat.leb_le. intros [H1 H2].
  rewrite bool_decide_eq_false_2 by lia. simpl.
  apply andb_false_iff. right. apply Nat.leb_gt. lia.
Qed.

Lemma isdigit_not_sign c : isdigit c = true → c ≠ "-"%char ∧ c ≠ "+"%char.
Proof. intros H. split; intros ->; vm_compute in H; discriminate. Qed.

(** [strtol] on a number that fills the string. *)
Lemma strtol_number long_max ws sign ds :
  Forall (λ c, isspace c = true) ws →
  sign = [] ∨ sign = ["+"%char] →
  ds ≠ [] → Forall (λ c, isdigit c = true) ds →
  strtol long_max (ws ++ sign ++ ds)
  = (Z.min (decimal ds) long_max, length (ws ++ sign ++ ds)).
Proof.
  intros Hws Hsign Hne Hds. unfold strtol.
  assert (Hrun : run isspace (ws ++ sign ++ ds) = length ws).
  { apply run_app; [done|]. intros c Hc.
    destruct Hsign as [-> | ->]; simpl in Hc.
    - destruct ds as [|d ds]; [done|]. injection Hc as <-.
      apply isdigit_not_space. by inversion Hds.
    - by injection Hc as <-. }
  rewrite Hrun. cbv zeta. rewrite drop_app_length.
  destruct Hsign as [-> | ->]; simpl.
  - destruct ds as [|d ds]; [done|].
    assert (Hd : isdigit d = true) by (by inversion Hds).
    destruct (isdigit_not_sign d Hd) as [Hm Hp].
    rewrite (decide_False (P := d = "-"%char)) by done.
    rewrite (decide_False (P := d = "+"%char)) by done.
    rewrite drop_0, run_all, firstn_all by done.
    rewrite decide_False by done. rewrite !length_app. simpl.
    f_equal. lia.
  - rewrite drop_0, run_all, firstn_all by done.
    rewrite decide_False by done. rewrite !length_app. simpl.
    f_equal. lia.
Qed.

(** A conversion that [memory_tracking_init] accepts came from such a
    number. *)
Lemma strtol_accepted long_max s num endptr :
  (0 < long_max)%Z →
  strtol long_max s = (num, endptr) →
  endptr ≠ 0 → endptr = length s → (0 < num)%Z →
  ∃ ws sign ds,
    s = ws ++ sign ++ ds
    ∧ Forall (λ c, isspace c = true) ws
    ∧ (sign = [] ∨ sign = ["+"%char])
    ∧ ds ≠ [] ∧ Forall (λ c, isdigit c = true) ds
    ∧ num = Z.min (decimal ds) long_max.
Proof.
  intros Hmax. unfold strtol. cbv zeta.
  set (ws := run isspace s). set (r := drop ws s).
  pose proof (run_le isspace s) as Hws. fold ws in Hws.
  assert (Hs : s = take ws s ++ r) by (unfold r; by rewrite take_drop).
  assert (Hlen : length s = ws + length r).
  { unfold r. rewrite length_drop. lia. }
  assert (Hsp : Forall (λ c, isspace c = true) (take ws s)) by apply run_take.
  assert (Hcase : ∀ neg k sign,
    r = sign ++ drop k r → length sign = k →
    (let ds := take (run isdigit (drop k r)) (drop k r) in
     if decide (ds = []) then (0%Z, 0)
     else (if neg : bool then Z.max (- decimal ds) (- long_max - 1)
           else Z.min (decimal ds) long_max, ws + k + length ds))
    = (num, endptr) →
    endptr ≠ 0 → endptr = length s → (0 < num)%Z →
    neg = false
    ∧ drop k r ≠ [] ∧ Forall (λ c, isdigit c = true) (drop k r)
    ∧ num = Z.min (decimal (drop k r)) long_max).
  { intros neg k sign Hr Hk. cbv zeta.
    pose proof (run_le isdigit (drop k r)) as Hrun.
    pose proof (run_take isdigit (drop k r)) as Hdig.
    set (n := run isdigit (drop k r)) in *.
    destruct (decide (take n (drop k r) = [])) as [Hnil|Hnn].
    { intros [= <- <-]. done. }
    intros [= <- <-] _ Hend Hnum.
    assert (Hall : take n (drop k r) = drop k r).
    { apply take_ge. rewrite length_take in Hend.
      apply (f_equal length) in Hr. rewrite length_app in Hr. lia. }
    rewrite Hall in *.
    pose proof (decimal_nonneg (drop k r)).
    destruct neg; [lia|]. done. }
  destruct r as [|c r'] eqn:Hr.
  - intros H He Hl Hn.
    destruct (Hcase false 0 [] eq_refl eq_refl H He Hl Hn) as (_ & Hne & _).
    done.
  - destruct (decide (c = "-"%char)) as [->|Hm];
      [|destruct (decide (c = "+"%char)) as [->|Hp]]; intros H He Hl Hn.
    + by destruct (Hcase true 1 ["-"%char] eq_refl eq_refl H He Hl Hn).
    + destruct (Hcase false 1 ["+"%char] eq_refl eq_refl H He Hl Hn)
        as (_ & Hne & Hdig & Hnum).
      simpl in Hne, Hdig, Hnum. rewrite drop_0 in Hne, Hdig, Hnum.
      exists (take ws s), ["+"%char], r'.
      split; [exact Hs|]. split; [done|]. split; [by right|]. done.
    + destruct (Hcase false 0 [] eq_refl eq_refl H He Hl Hn)
        as (_ & Hne & Hdig & Hnum).
      simpl in Hne, Hdig, Hnum.
      exists (take ws s), [], (c :: r').
      split; [exact Hs|]. split; [done|]. split; [by left|]. done.
Qed.

(** X3: the log file name never overruns its buffer.  Whatever the
    environment holds, [memory_tracking_init] has no undefined
    behaviour as long as the buffer has a byte; the name it hands to
    [curl_memdebug] is the value of [CURL_MEMDEBUG] cut to one byte less
    than the buffer; [curl_free] is called before [curl_memdebug]; and
    each value obtained from the environment is freed once. *)
Theorem memdebug_name_fits getenv bufsize long_max :
  0 < bufsize →
  ∃ calls,
    memory_tracking_init getenv bufsize long_max = Ok calls
    ∧ (∀ f, MtMemdebug f ∈ calls →
         length f < bufsize
         ∧ ∃ v rest,
             getenv (cs "CURL_MEMDEBUG") = Some v
             ∧ f = take (bufsize - 1) (cstr v)
             ∧ calls = MtFree :: MtMemdebug f :: rest)
    ∧ (is_Some (getenv (cs "CURL_MEMDEBUG")) → ∃ f, MtMemdebug f ∈ calls)
    ∧ length (filter (λ e, e = MtFree) calls)
      = (if getenv (cs "CURL_MEMDEBUG") is Some _ then 1 else 0)
        + (if getenv (cs "CURL_MEMLIMIT") is Some _ then 1 else 0).
Proof.
  intros Hpos. eexists. split; [by apply memory_tracking_init_eq|].
  set (second := match getenv (cs "CURL_MEMLIMIT") with
                 | Some v => _ | None => [] end).
  assert (Hsecond : (∀ f, MtMemdebug f ∉ second)
                    ∧ length (filter (λ e, e = MtFree) second)
                      = if getenv (cs "CURL_MEMLIMIT") is Some _ then 1 else 0).
  { unfold second. destruct (getenv (cs "CURL_MEMLIMIT")) as [v|].
    - cbv zeta. destruct (_ && _ && _); (split; [|reflexivity]);
        intros f Hf; simpl in Hf; set_tac.
    - split; [|done]. intros f. apply not_elem_of_nil. }
  destruct Hsecond as [Hno Hfree].
  destruct (getenv (cs "CURL_MEMDEBUG")) as [v|].
  - split; [|split].
    + intros f Hf. rewrite elem_of_app, !elem_of_cons, elem_of_nil in Hf.
      destruct Hf as [[?|[[= ->]|[]]]|Hf]; [done| |by apply Hno in Hf].
      split; [rewrite length_take; lia|]. by exists v, second.
    + intros _. eexists. rewrite elem_of_app, !elem_of_cons.
      left. right. left. reflexivity.
    + rewrite filter_app, length_app, Hfree. done.
  - split; [|split].
    + intros f Hf. simpl in Hf. by apply Hno in Hf.
    + by intros [? ?].
    + simpl. by rewrite Hfree.
Qed.

Lemma memdebug_name_fits_witness :
  let getenv := λ name, if decide (name = cs "CURL_MEMDEBUG")
                        then Some (cs "/tmp/memory.log") else None in
  memory_tracking_init getenv 8 1000
  = Ok [MtFree; MtMemdebug (cs "/tmp/me")].
Proof.
  intros getenv.
  destruct (memdebug_name_fits getenv 8 1000) as (calls & Hrun & Hname & _);
    [lia|].
  rewrite Hrun. vm_compute in Hrun. by injection Hrun as <-.
Defined.

(** X4: [CURL_MEMLIMIT] takes effect for a positive decimal number
    and for nothing else.  [curl_memlimit] is called with [n] exactly
    when the whole value is white space, an optional '+' and digits
    whose value is positive, [n] being that value or [LONG_MAX] when it
    is larger; the value is freed last in either case. *)
Theorem memlimit_needs_positive_number getenv bufsize long_max v :
  0 < bufsize → (0 < long_max)%Z →
  getenv (cs "CURL_MEMLIMIT") = Some v →
  ∃ calls,
    memory_tracking_init getenv bufsize long_max = Ok calls
    ∧ list.last calls = Some MtFree
    ∧ ∀ n,
        MtMemlimit n ∈ calls ↔
        ∃ ws sign ds,
          cstr v = ws ++ sign ++ ds
          ∧ Forall (λ c, isspace c = true) ws
          ∧ (sign = [] ∨ sign = ["+"%char])
          ∧ ds ≠ [] ∧ Forall (λ c, isdigit c = true) ds
          ∧ (0 < decimal ds)%Z
          ∧ n = Z.min (decimal ds) long_max.
Proof.
  intros Hpos Hmax Hv. eexists.
  split; [by apply memory_tracking_init_eq|]. rewrite Hv. cbv zeta.
  set (before := match getenv (cs "CURL_MEMDEBUG") with
                 | Some v => _ | None => [] end).
  assert (Hfirst : ∀ n, MtMemlimit n ∉ before).
  { intros n. unfold before.
    destruct (getenv (cs "CURL_MEMDEBUG")); set_tac. }
  split; [by rewrite !app_assoc, last_snoc|].
  intros n. split.
  - intros Hin. rewrite !elem_of_app in Hin.
    destruct Hin as [Hin|[Hin|Hin]];
      [by apply Hfirst in Hin| |by apply list_elem_of_singleton in Hin].
    destruct (strtol long_max (cstr v)) as [num endptr] eqn:Hconv.
    simpl in Hin.
    destruct (bool_decide (endptr ≠ 0)) eqn:He;
      [|by apply elem_of_nil in Hin].
    destruct (bool_decide (endptr = length (cstr v))) eqn:Hl;
      [|by apply elem_of_nil in Hin].
    destruct (bool_decide (0 < num)%Z) eqn:Hn; [|by apply elem_of_nil in Hin].
    simpl in Hin. apply list_elem_of_singleton in Hin. injection Hin as ->.
    apply bool_decide_eq_true in He, Hl, Hn.
    destruct (strtol_accepted long_max (cstr v) num endptr Hmax Hconv He Hl Hn)
      as (ws & sign & ds & Hs & Hws & Hsign & Hne & Hds & Hnum).
    exists ws, sign, ds. repeat (split; [done|]). split; [lia | done].
  - intros (ws & sign & ds & Hs & Hws & Hsign & Hne & Hds & Hval & ->).
    rewrite Hs, (strtol_number long_max ws sign ds Hws Hsign Hne Hds). simpl.
    assert (Hlen : length (ws ++ sign ++ ds) ≠ 0).
    { rewrite !length_app. destruct ds; [done | simpl; lia]. }
    rewrite (bool_decide_eq_true_2 _ Hlen).
    rewrite (bool_decide_eq_true_2 (_ = _) eq_refl).
    rewrite bool_decide_eq_true_2 by lia. simpl.
    rewrite !elem_of_app, !elem_of_cons. clear. tauto.
Qed.

Lemma memlimit_needs_positive_number_witness :
  let getenv := λ name, if decide (name = cs "CURL_MEMLIMIT")
                        then Some (cs " +25") else None in
  memory_tracking_init getenv 8 1000 = Ok [MtMemlimit 25; MtFree].
Proof.
  intros getenv.
  destruct (memlimit_needs_positive_number getenv 8 1000 (cs " +25"))
    as (calls & Hrun & _); [lia | lia | reflexivity |].
  rewrite Hrun. vm_compute in Hrun. by injection Hrun as <-.
Defined.

(** ** The constructor and the destructors, call by call *)

Ltac in_calls :=
  repeat match goal with
  | H : _ ∈ _ :: _ |- _ => apply elem_of_cons in H as [H|H]
  | H : _ ∈ [] |- _ => by apply elem_of_nil in H
  | H : EvLibInfo _ = _ |- _ => discriminate H
  | H : EvEasyInit _ = _ |- _ => discriminate H
  | H : EvGlobalInit _ = _ |- _ => discriminate H
  end.

(** X5: [main_init] returns 0 exactly when all four of its steps
    succeed, it reports each failure with exactly one [helpf] and a
    success with none, and it stops at the first step that fails: the
    library is initialised only once the node is there, the library
    information is asked for only after the library is initialised, and
    the handle is asked for only after that. *)
Theorem main_init_steps E config w :
  let calls := since w (main_init E config w).2 in
  let result := (main_init E config w).1.1 in
  (result = 0%Z ↔
     is_Some (malloc_config E) ∧ curl_global_init E = 0%Z
     ∧ get_libcurl_info E = 0%Z ∧ is_Some (curl_easy_init E))
  ∧ length (filter is_helpf calls) = (if decide (result = 0%Z) then 0 else 1)
  ∧ (∀ r, EvGlobalInit r ∈ calls → is_Some (malloc_config E))
  ∧ (∀ r, EvLibInfo r ∈ calls →
       is_Some (malloc_config E) ∧ curl_global_init E = 0%Z)
  ∧ (∀ r, EvEasyInit r ∈ calls →
       is_Some (malloc_config E) ∧ curl_global_init E = 0%Z
       ∧ get_libcurl_info E = 0%Z).
Proof.
  intros calls result. subst calls result.
  rewrite main_init_since, main_init_result. unfold main_init_calls.
  destruct (malloc_config E) as [node|];
    [destruct (decide (curl_global_init E = 0%Z)) as [Hg|Hg];
      [destruct (decide (get_libcurl_info E = 0%Z)) as [Hi|Hi];
        [destruct (curl_easy_init E) as [h|]|]|]|];
    simpl;
    (split; [split; [intros H; try done; repeat split; eauto
                    | intros (Hm & ? & ? & He); try done;
                      try (by apply is_Some_None in Hm);
                      try (by apply is_Some_None in He)]|]);
    (split; [repeat case_decide; done|]);
    (split; [|split]); intros r Hr; in_calls; repeat split; eauto.
Qed.

(** What a successful [main_init] leaves. *)
Lemma main_init_success_state E config w :
  (main_init E config w).1.1 = 0%Z →
  ∃ node h,
    malloc_config E = Some node ∧ curl_easy_init E = Some h
    ∧ easy (main_init E config w).1.2 = Some h
    ∧ first (main_init E config w).1.2 = Some node
    ∧ last (main_init E config w).1.2 = Some node
    ∧ errors (main_init E config w).1.2 = Some thread_stderr
    ∧ showerror (main_init E config w).1.2 = (-1)%Z
    ∧ nodes (main_init E config w).2 !! node
      = Some (Some (OpConfig (Some h) (Some TheGlobal)))
    ∧ (∀ p, p ≠ node → nodes (main_init E config w).2 !! p = nodes w !! p)
    ∧ since w (main_init E config w).2
      = [EvMalloc (Some node); EvGlobalInit 0; EvLibInfo 0; EvEasyInit (Some h);
         EvConfigInit node].
Proof.
  intros Hok. rewrite main_init_since. unfold main_init_calls.
  revert Hok. unfold main_init. simpl.
  destruct (malloc_config E) as [node|]; simpl; [|discriminate].
  destruct (decide (curl_global_init E = 0%Z)) as [Hg|]; simpl; [|done].
  destruct (decide (get_libcurl_info E = 0%Z)) as [Hi|]; simpl; [|done].
  destruct (curl_easy_init E) as [h|]; simpl; [|discriminate].
  intros _. exists node, h. rewrite Hg, Hi.
  repeat split.
  - by rewrite lookup_insert_eq.
  - intros p Hp. by rewrite !lookup_insert_ne by done.
Qed.

(** X6: after a successful [main_init] the configuration is ready:
    [first] and [last] are the one node that was allocated, [easy] is
    the handle, errors go to [thread_stderr] and are shown, the node
    has been initialised and points to the handle and back to the
    configuration, no other node has been touched, and the calls were
    the four steps and [config_init], in this order. *)
Theorem main_init_ready E config w :
  (main_init E config w).1.1 = 0%Z →
  ∃ node h,
    malloc_config E = Some node ∧ curl_easy_init E = Some h
    ∧ easy (main_init E config w).1.2 = Some h
    ∧ first (main_init E config w).1.2 = Some node
    ∧ last (main_init E config w).1.2 = Some node
    ∧ errors (main_init E config w).1.2 = Some thread_stderr
    ∧ showerror (main_init E config w).1.2 = (-1)%Z
    ∧ nodes (main_init E config w).2 !! node
      = Some (Some (OpConfig (Some h) (Some TheGlobal)))
    ∧ (∀ p, p ≠ node → nodes (main_init E config w).2 !! p = nodes w !! p)
    ∧ since w (main_init E config w).2
      = [EvMalloc (Some node); EvGlobalInit 0; EvLibInfo 0; EvEasyInit (Some h);
         EvConfigInit node].
Proof.
  intros Hok. rewrite main_init_since. unfold main_init_calls.
  revert Hok. unfold main_init. simpl.
  destruct (malloc_config E) as [node|]; simpl; [|discriminate].
  destruct (decide (curl_global_init E = 0%Z)) as [Hg|]; simpl; [|done].
  destruct (decide (get_libcurl_info E = 0%Z)) as [Hi|]; simpl; [|done].
  destruct (curl_easy_init E) as [h|]; simpl; [|discriminate].
  intros _. exists node, h. rewrite Hg, Hi.
  repeat split.
  - by rewrite lookup_insert_eq.
  - intros p Hp. by rewrite !lookup_insert_ne by done.
Qed.

Lemma main_init_ready_witness :
  ∃ node h,
    malloc_config all_fine = Some node ∧ curl_easy_init all_fine = Some h
    ∧ nodes (main_init all_fine zeroed boot).2 !! node
      = Some (Some (OpConfig (Some h) (Some TheGlobal))).
Proof.
  destruct (main_init_ready all_fine zeroed boot eq_refl)
    as (node & h & Hm & He & _ & _ & _ & _ & _ & Hn & _).
  exists node, h. split; [exact Hm|]. split; [exact He | exact Hn].
Defined.

Lemma free_config_fields_since c w :
  log (free_config_fields c w).2 = log w ++ free_config_fields_calls c.
Proof.
  unfold free_config_fields, free_config_fields_calls, frees, closes. simpl.
  destruct (trace_dump c), (errors c), (errors_fopened c),
    (trace_stream c), (trace_fopened c), (libcurl c); simpl;
    rewrite <- ?app_assoc, ?app_nil_r; reflexivity.
Qed.

Lemma free_config_fields_config c w :
  (free_config_fields c w).1
  = set_libcurl None (set_trace_stream None (set_errors None (set_trace_dump None c))).
Proof. reflexivity. Qed.

Lemma free_config_fields_nodes c w : nodes (free_config_fields c w).2 = nodes w.
Proof.
  unfold free_config_fields. simpl.
  by destruct (trace_dump c), (errors c), (errors_fopened c),
    (trace_stream c), (trace_fopened c), (libcurl c).
Qed.

Lemma main_free_since c w :
  log (main_free c w).2 = log w ++ main_free_calls c.
Proof.
  unfold main_free, main_free_calls.
  pose proof (free_config_fields_since (set_easy None c)
     (emit EvMetalinkCleanup (emit EvConvertCleanup (emit EvGlobalCleanup
        (emit (EvEasyCleanup (easy c)) w))))) as Hl.
  pose proof (free_config_fields_config (set_easy None c)
     (emit EvMetalinkCleanup (emit EvConvertCleanup (emit EvGlobalCleanup
        (emit (EvEasyCleanup (easy c)) w))))) as Hc.
  destruct (free_config_fields _ _) as [c' w']. simpl in *. subst c'.
  unfold config_free. simpl.
  destruct (last c); simpl; rewrite Hl; simpl;
    rewrite <- !app_assoc; reflexivity.
Qed.

Lemma main_free_config c w :
  (main_free c w).1
  = set_last None (set_first None (set_libcurl None (set_trace_stream None
      (set_errors None (set_trace_dump None (set_easy None c)))))).
Proof.
  unfold main_free.
  pose proof (free_config_fields_config (set_easy None c)
     (emit EvMetalinkCleanup (emit EvConvertCleanup (emit EvGlobalCleanup
        (emit (EvEasyCleanup (easy c)) w))))) as Hc.
  destruct (free_config_fields _ _) as [c' w']. simpl in *. by subst c'.
Qed.

Lemma main_free_nodes c w :
  nodes (main_free c w).2
  = match last c with Some a => delete a (nodes w) | None => nodes w end.
Proof.
  unfold main_free.
  pose proof (free_config_fields_nodes (set_easy None c)
     (emit EvMetalinkCleanup (emit EvConvertCleanup (emit EvGlobalCleanup
        (emit (EvEasyCleanup (easy c)) w))))) as Hn.
  pose proof (free_config_fields_config (set_easy None c)
     (emit EvMetalinkCleanup (emit EvConvertCleanup (emit EvGlobalCleanup
        (emit (EvEasyCleanup (easy c)) w))))) as Hc.
  destruct (free_config_fields _ _) as [c' w']. simpl in *. subst c'.
  unfold config_free. simpl. destruct (last c); simpl; by rewrite Hn.
Qed.

Lemma elem_of_frees e p : e ∈ frees p ↔ ∃ a, p = Some a ∧ e = EvFree a.
Proof.
  unfold frees. destruct p as [a|].
  - rewrite list_elem_of_singleton. split; [eauto|]. by intros (b & [= ->] & ->).
  - split; [by intros ?%elem_of_nil | by intros (b & [=] & _)].
Qed.

Lemma elem_of_closes e owned f :
  e ∈ closes owned f ↔ ∃ s, f = Some s ∧ owned = true ∧ e = EvFclose s.
Proof.
  unfold closes. destruct f as [s|]; [destruct owned|].
  - rewrite list_elem_of_singleton. split; [eauto|].
    by intros (t & [= ->] & _ & ->).
  - split; [by intros ?%elem_of_nil | by intros (t & _ & [=] & _)].
  - split; [by intros ?%elem_of_nil | by intros (t & [=] & _)].
Qed.

(** X7: a [main_init] that fails after the node was allocated leaves
    [first] and [last] pointing to the node it has freed: the node is
    gone from the heap, the other nodes are as they were, and a
    [main_free] on that configuration would free the node once more. *)
Theorem main_init_failure_dangles E config w node :
  (main_init E config w).1.1 ≠ 0%Z →
  malloc_config E = Some node →
  let init := main_init E config w in
  first init.1.2 = Some node
  ∧ last init.1.2 = Some node
  ∧ nodes init.2 !! node = None
  ∧ (∀ p, p ≠ node → nodes init.2 !! p = nodes w !! p)
  ∧ (RMem node ∈ released (since w init.2))
  ∧ (RMem node ∈ released (since init.2 (main_free init.1.2 init.2).2)).
Proof.
  intros Hfail Hm init.
  assert (Hfl : first init.1.2 = Some node ∧ last init.1.2 = Some node
                ∧ nodes init.2 !! node = None
                ∧ (∀ p, p ≠ node → nodes init.2 !! p = nodes w !! p)).
  { subst init. revert Hfail. unfold main_init. simpl. rewrite Hm. simpl.
    destruct (decide (curl_global_init E = 0%Z)); simpl.
    - destruct (decide (get_libcurl_info E = 0%Z)) as [Hi|]; simpl.
      + destruct (curl_easy_init E); simpl; [by rewrite Hi|].
        intros _. repeat split.
        * by rewrite lookup_delete_eq.
        * intros p Hp. by rewrite lookup_delete_ne, lookup_insert_ne.
      + intros _. repeat split.
        * by rewrite lookup_delete_eq.
        * intros p Hp. by rewrite lookup_delete_ne, lookup_insert_ne.
    - intros _. repeat split.
      * by rewrite lookup_delete_eq.
      * intros p Hp. by rewrite lookup_delete_ne, lookup_insert_ne. }
  destruct Hfl as (Hf & Hl & Hn & Ho).
  split; [done|]. split; [done|]. split; [done|]. split; [done|]. split.
  - subst init. rewrite main_init_since.
    rewrite main_init_failure_released, Hm.
    + apply list_elem_of_here.
    + intros c' w'. by rewrite (main_init_result_indep E c' w' config w).
  - rewrite (since_app _ _ _ (main_free_since _ _)).
    unfold main_free_calls, released. rewrite Hl.
    rewrite !bind_app. simpl. rewrite !elem_of_app. right. right.
    apply list_elem_of_here.
Qed.

Lemma main_init_failure_dangles_witness :
  first (main_init info_fails zeroed boot).1.2 = Some 7
  ∧ nodes (main_init info_fails zeroed boot).2 !! 7 = None.
Proof.
  assert (Hfail : (main_init info_fails zeroed boot).1.1 ≠ 0%Z) by (by vm_compute).
  destruct (main_init_failure_dangles info_fails zeroed boot 7 Hfail eq_refl)
    as (Hf & _ & Hn & _).
  split; [exact Hf | exact Hn].
Defined.

(** X8: [free_config_fields] closes a stream exactly when the
    configuration holds it and has opened it itself ([errors_fopened],
    [trace_fopened]), frees exactly the [trace_dump] and [libcurl]
    strings that are set, and clears the four fields whether or not it
    closed or freed anything; the two flags stay as they were. *)
Theorem free_config_fields_closes_owned c w :
  let calls := since w (free_config_fields c w).2 in
  let c' := (free_config_fields c w).1 in
  (∀ f, EvFclose f ∈ calls ↔
        (errors c = Some f ∧ errors_fopened c = true)
        ∨ (trace_stream c = Some f ∧ trace_fopened c = true))
  ∧ (∀ a, EvFree a ∈ calls ↔ trace_dump c = Some a ∨ libcurl c = Some a)
  ∧ errors c' = None ∧ trace_stream c' = None
  ∧ trace_dump c' = None ∧ libcurl c' = None
  ∧ errors_fopened c' = errors_fopened c ∧ trace_fopened c' = trace_fopened c.
Proof.
  intros calls c'. subst calls c'.
  rewrite (since_app _ _ _ (free_config_fields_since c w)).
  rewrite free_config_fields_config.
  unfold free_config_fields_calls.
  split; [|split; [|done]].
  - intros f. rewrite !elem_of_app, !elem_of_frees, !elem_of_closes. split.
    + intros [(a & _ & [=]) | [(s & Hs & Ho & [= ->])
              | [(s & Hs & Ho & [= ->]) | (a & _ & [=])]]]; eauto.
    + intros [[He Ho] | [Ht Ho]]; [right; left | right; right; left]; eauto.
  - intros a. rewrite !elem_of_app, !elem_of_frees, !elem_of_closes. split.
    + intros [(b & Hb & [= ->]) | [(s & _ & _ & [=])
              | [(s & _ & _ & [=]) | (b & Hb & [= ->])]]]; eauto.
    + intros [Hd | Hl]; [left | right; right; right]; eauto.
Qed.

(** X9: [main_free] leaves nothing to free: a second [main_free] on
    the configuration the first one left makes the five clean-up calls
    on NULL pointers, closes and frees nothing, and changes neither the
    configuration nor the heap; only the engine is shut down again. *)
Theorem main_free_twice c w :
  let once := main_free c w in
  let twice := main_free once.1 once.2 in
  twice.1 = once.1
  ∧ nodes twice.2 = nodes once.2
  ∧ since once.2 twice.2
    = [EvEasyCleanup None; EvGlobalCleanup; EvConvertCleanup; EvMetalinkCleanup;
       EvConfigFree None]
  ∧ released (since once.2 twice.2) = [REngine].
Proof.
  intros once twice. subst once twice.
  rewrite (since_app _ _ _ (main_free_since _ _)).
  rewrite main_free_nodes, !main_free_config. simpl. done.
Qed.

(** ** The translated list, in general *)

Lemma filled_insert_bump st v :
  filled st → argc2 st < length (argv2 st) →
  filled (Scan (argv st) (<[argc2 st := Str v]> (argv2 st)) (S (argc2 st))
            (localFileName st) (distantFileName st)).
Proof.
  intros Hf Hlt j Hj. simpl in *.
  destruct (decide (j = argc2 st)) as [->|Hne].
  - exists v. by apply list_lookup_insert_eq.
  - rewrite list_lookup_insert_ne by done. apply Hf. lia.
Qed.

Lemma store_bump_filled st st' v :
  filled st → store (Str v) st = Ok st' → filled (bump st').
Proof.
  intros Hf H. apply store_Ok in H as [Hlt ->].
  exact (filled_insert_bump st v Hf Hlt).
Qed.

Lemma scp_body_filled stat proto i st st' :
  filled st → scp_body stat proto i st = Ok st' → filled st'.
Proof.
  intros Hf H. unfold scp_body in H. simpl in H.
  repeat first [progress inv_res | case_match]; subst;
    repeat match goal with
    | H : store (Str ?v) ?a = Ok ?b |- _ =>
        apply (store_bump_filled a b v) in H; [|by first [exact Hf | assumption]]
    end; by first [assumption | exact Hf].
Qed.

Lemma scp_loop_filled stat proto todo st st' :
  filled st → scp_loop stat proto todo st = Ok st' → filled st'.
Proof.
  revert st. induction todo as [|i todo IH]; intros st Hf; simpl.
  - by intros [= <-].
  - intros H. apply bind_Ok in H as (st1 & H1 & H).
    eapply IH; [|done]. by eapply scp_body_filled.
Qed.

Lemma scp_loop_count stat proto todo st st' :
  scp_loop stat proto todo st = Ok st' → argc2 st + length todo ≤ argc2 st'.
Proof.
  revert st. induction todo as [|i todo IH]; intros st; simpl.
  - intros [= <-]. lia.
  - intros H. apply bind_Ok in H as (st1 & H1 & H).
    apply scp_body_argv2 in H1 as (Hlt & _). apply IH in H. lia.
Qed.

Lemma cells_strings_filled (l : list cell) :
  (∀ j, j < length l → ∃ s, l !! j = Some (Str s)) →
  ∃ out, cells_strings l = Ok out ∧ l = Str <$> out.
Proof.
  induction l as [|c l IH]; intros H.
  - by exists [].
  - destruct (H 0) as [s Hs]; [simpl; lia|]. injection Hs as ->.
    destruct IH as (out & Hout & ->).
    { intros j Hj. apply (H (S j)). simpl. lia. }
    exists (s :: out). simpl. by rewrite Hout.
Qed.

Lemma scp_scan_cap_list stat cap argc args st :
  scp_scan_cap stat cap argc args = Ok st →
  ∃ out,
    take (argc2 st) (argv2 st) = Str <$> (cs "curl" :: out)
    ∧ cells_strings (take (argc2 st) (argv2 st)) = Ok (cs "curl" :: out)
    ∧ argc2 st = S (length out)
    ∧ argv2 st !! argc2 st = Some Null
    ∧ argc - 1 ≤ length out
    ∧ argc2 st < cap.
Proof.
  intros H. pose proof (scp_scan_cap_curl _ _ _ _ _ H) as [Hpos Hcurl].
  unfold scp_scan_cap in H. apply bind_Ok in H as (stn & Hstn & H).
  pose proof (scp_prefix_cap _ _ _ _ _ Hstn) as Hcap.
  pose proof (scp_prefix_argv2 _ _ _ _ _ Hstn) as (_ & Hlen & _).
  rewrite scp_prefix_eq in Hstn by done.
  pose proof (scp_loop_count _ _ _ _ _ Hstn) as Hcount.
  rewrite length_seq in Hcount. simpl in Hcount.
  assert (Hf : filled stn).
  { eapply scp_loop_filled; [|exact Hstn].
    intros j Hj. simpl in *. assert (j = 0) as -> by lia.
    exists (cs "curl"). apply list_lookup_insert_eq. by rewrite length_replicate. }
  apply store_Ok in H as [Hlt ->]. simpl in *.
  destruct (cells_strings_filled (take (argc2 stn) (<[argc2 stn := Null]> (argv2 stn))))
    as (out & Hout & Heq).
  { intros j Hj. rewrite length_take in Hj.
    rewrite lookup_take_lt by lia. rewrite list_lookup_insert_ne by lia.
    apply Hf. lia. }
  destruct out as [|s out].
  { apply (f_equal length) in Heq. rewrite length_take, length_insert in Heq.
    simpl in Heq. lia. }
  assert (s = cs "curl") as ->.
  { apply (f_equal (λ l, l !! 0)) in Heq. rewrite lookup_take_lt in Heq by lia.
    simpl in Heq. rewrite Hcurl in Heq. by injection Heq as <-. }
  exists out. split; [done|]. split; [done|].
  apply (f_equal length) in Heq.
  rewrite length_take, length_insert, length_fmap in Heq. simpl in Heq.
  split; [lia|]. split; [by apply list_lookup_insert_eq|]. split; lia.
Qed.

Lemma canonical_curl out : canonical (cs "curl" :: out).
Proof. exists (cs "curl"). split; [reflexivity|]. split; discriminate. Qed.

Lemma scp_convert_both E callee argc args w st :
  scp_scan_cap (stat E) (argc + 2) argc args = Ok st →
  is_Some (localFileName st) → is_Some (distantFileName st) →
  ∃ out,
    take (argc2 st) (argv2 st) = Str <$> (cs "curl" :: out)
    ∧ argc2 st = S (length out)
    ∧ scp_convert E callee argc args w
      = (callee (argc2 st) (cs "curl" :: out) w ≫= λ '(r, w'),
           Ok (argv st, r, emit (EvFreeArgv2 (Str <$> (cs "curl" :: out))) w')).
Proof.
  intros Hst Hl Hd.
  destruct (scp_scan_cap_list _ _ _ _ _ Hst) as (out & Htake & Hcells & Hargc & _).
  exists out. split; [done|]. split; [done|].
  rewrite (scp_convert_delegates E callee argc args w st _ Hst Hl Hd Hcells).
  by rewrite Htake.
Qed.

(** X10: a scan that completes leaves a well-formed argument list:
    the first [argc2] entries of [argv2] have all been set, the first
    of them is [curl], the entry at [argc2] is the NULL of line 301,
    and the list has as many entries as the command line or one
    more. *)
Theorem translated_list_wellformed stat argc args st :
  scp_scan_cap stat (argc + 2) argc args = Ok st →
  ∃ out,
    take (argc2 st) (argv2 st) = Str <$> (cs "curl" :: out)
    ∧ argv2 st !! argc2 st = Some Null
    ∧ argc2 st = S (length out)
    ∧ argc - 1 ≤ length out ≤ argc.
Proof.
  intros H. destruct (scp_scan_cap_list _ _ _ _ _ H)
    as (out & Htake & _ & Hargc & Hnull & Hlo & Hhi).
  exists out. repeat split; try done. lia.
Qed.

Lemma translated_list_wellformed_witness :
  ∃ st out,
    scp_scan_cap (λ _, None) (3 + 2) 3 (cs <$> ["scp"; "h:r"; "l"]%string)
    = Ok st
    ∧ take (argc2 st) (argv2 st) = Str <$> (cs "curl" :: out)
    ∧ argv2 st !! argc2 st = Some Null.
Proof.
  destruct (scp_scan_cap (λ _, None) (3 + 2) 3
              (cs <$> ["scp"; "h:r"; "l"]%string)) as [st|e] eqn:Hst;
    [|vm_compute in Hst; discriminate Hst].
  destruct (translated_list_wellformed (λ _, None) 3 _ st Hst)
    as (out & Htake & Hnull & _).
  exists st, out. split; [reflexivity|]. split; [exact Htake | exact Hnull].
Defined.

(** A round that ends has done what the role of its token says. *)
Ltac role_done :=
  rewrite ?orb_true_r, ?orb_false_r;
  split; [lia|]; split; [done|]; split; [done|]; first [done | by intros _].

Lemma scp_body_role_sound stat proto i st st' b :
  argv st !! i = Some b →
  scp_body stat proto i st = Ok st' →
  let r := role_of (known (localFileName st)) (known (distantFileName st)) (cstr b) in
  argc2 st' = argc2 st + entries_of r
  ∧ known (localFileName st') = known (localFileName st) || sets_local r
  ∧ known (distantFileName st') = known (distantFileName st) || sets_remote r
  ∧ (r = Output → cstr b ≠ []).
Proof.
  intros Hb H r. subst r. unfold role_of.
  unfold scp_body in H. rewrite (load_head _ _ _ Hb) in H.
  rewrite res_bind_Ok_l in H.
  fold (known (distantFileName st)) (known (localFileName st)) in H.
  destruct (starts_with_dash (cstr b)
            || known (distantFileName st) && known (localFileName st)) eqn:Hc.
  - inv_res. inv_store. subst. simpl. rewrite !orb_false_r.
    role_done.
  - destruct (strstr (cstr b) ":"%char) as [k|] eqn:Hk.
    + simpl in H. inv_res. inv_store. subst. simpl.
      rewrite known_Some, orb_true_r, orb_false_r.
      role_done.
    + simpl in H. destruct (distantFileName st) as [d|] eqn:Hd.
      * rewrite known_Some in *. simpl in Hc.
        apply orb_false_iff in Hc as [_ Hl]. rewrite Hl.
        destruct (bool_decide (cstr b = cs ".")) eqn:Hdot.
        -- apply bool_decide_eq_true_1 in Hdot. rewrite Hdot in H. simpl in H.
           inv_res. inv_store. subst. simpl. rewrite ?Hd, ?known_Some.
           role_done.
        -- assert (Hand : bool_decide (length (cstr b) = 1)
                          && bool_decide (cstr b = cs ".") = false)
             by (by rewrite Hdot, andb_false_r).
           simpl in Hand, H. rewrite Hand in H.
           destruct (cstr b) as [|c tok] eqn:Htok.
           ++ simpl in H. inv_res.
           ++ repeat first [progress inv_res | case_match]; inv_store; subst;
                simpl; rewrite ?Hd, ?known_Some; role_done.
      * rewrite known_None in *. inv_res. inv_store. subst. simpl.
        rewrite ?Hd, ?known_Some, ?known_None. role_done.
Qed.

Lemma scp_loop_survey_sound stat toks : ∀ a st st',
  a ≠ 0 →
  (∀ k t, toks !! k = Some t → ∃ b, argv st !! (a + k) = Some b ∧ cstr b = t) →
  scp_loop stat (Ptr 0 0) (seq a (length toks)) st = Ok st' →
  let s := survey_from (known (localFileName st)) (known (distantFileName st)) toks in
  argc2 st' = argc2 st + entries s
  ∧ readable s = true
  ∧ known (localFileName st') = has_local s
  ∧ known (distantFileName st') = has_remote s.
Proof.
  induction toks as [|t toks IH]; intros a st st' Ha Htoks H s.
  - simpl in H. injection H as <-. subst s. simpl. split; [lia|]. done.
  - subst s. simpl in H |- *. apply bind_Ok in H as (st1 & Hbody & H).
    destruct (Htoks 0 t eq_refl) as (b & Hb & <-). rewrite Nat.add_0_r in Hb.
    destruct (scp_body_role_sound _ _ _ _ _ _ Hb Hbody) as (Hargc & Hl & Hr & Hread).
    pose proof (scp_body_block0 _ _ _ _ _ Ha Hbody) as Hsame.
    destruct (IH (S a) st1 st') as (Hargc' & Hread' & Hl' & Hr'); [done| |done|].
    { intros k t' Hk. rewrite Hsame by lia.
      destruct (Htoks (S k) t' Hk) as (b' & Hb' & Hc).
      exists b'. split; [|done]. by replace (S a + k) with (a + S k) by lia. }
    rewrite Hl, Hr in *.
    split; [lia|]. split; [|done].
    rewrite Hread', andb_true_r.
    destruct (role_of _ _ (cstr b)) eqn:Hrole; try done.
    apply negb_true_iff, bool_decide_eq_false_2. by apply Hread.
Qed.

(** X11: when the scan completes.  With the [argc + 2] entries of
    line 248, the scan of a command line is free of undefined behaviour
    exactly when the survey of its tokens finds every token readable
    (no empty token is taken for the name of the output) and needs no
    more than [argc] entries; the scan then ends with one entry more
    than the survey counts and with the two file names set as the
    survey says. *)
Theorem scan_completes_iff stat argc args :
  0 < argc ≤ length args →
  let s := survey_from false false (tokens argc args) in
  (readable s = true ∧ entries s ≤ argc →
     ∃ st, scp_scan_cap stat (argc + 2) argc args = Ok st
           ∧ argc2 st = 1 + entries s
           ∧ known (localFileName st) = has_local s
           ∧ known (distantFileName st) = has_remote s)
  ∧ (∀ st, scp_scan_cap stat (argc + 2) argc args = Ok st →
       readable s = true ∧ entries s ≤ argc).
Proof.
  intros Hargc s. split.
  - intros [Hread Hfit].
    destruct (scp_scan_survey stat (argc + 2) argc args Hargc Hread)
      as (st & Hst & Hn & _ & Hl & Hr); [fold s; lia|].
    exists st. done.
  - intros st Hst. unfold scp_scan_cap in Hst.
    apply bind_Ok in Hst as (stn & Hstn & Hst).
    pose proof (scp_prefix_argv2 _ _ _ _ _ Hstn) as (_ & Hlen & _).
    rewrite scp_prefix_eq in Hstn by lia.
    rewrite <- (tokens_length argc args) in Hstn by lia.
    apply scp_loop_survey_sound in Hstn as (Hn & Hread & _); [|done|].
    + simpl in Hn, Hread. rewrite known_None in *. fold s in Hn, Hread.
      apply store_Ok in Hst as [Hlt _]. split; [done|]. lia.
    + intros k t Hk. by apply tokens_lookup in Hk.
Qed.

Lemma scan_completes_iff_witness :
  let args := cs <$> ["scp"; "h:r"; "l"]%string in
  ∃ st, scp_scan_cap (λ _, None) (3 + 2) 3 args = Ok st
        ∧ argc2 st = 1 + entries (survey_from false false (tokens 3 args)).
Proof.
  intros args.
  assert (Hargc : 0 < 3 ≤ length args) by (simpl; lia).
  destruct (proj1 (scan_completes_iff (λ _, None) 3 args Hargc))
    as (st & Hst & Hn & _).
  - split; [reflexivity | simpl; lia].
  - exists st. split; [exact Hst | exact Hn].
Defined.

Lemma after_last_slash_none s : ("/"%char ∉ s) → after_last_slash s = s.
Proof.
  destruct s as [|c r]; [done|]. simpl. rewrite not_elem_of_cons. intros [Hc Hr].
  rewrite decide_False by congruence.
  destruct (strstr r "/"%char) eqn:H; [|done].
  apply strstr_Some in H as (_ & Heq & _). rewrite Heq in Hr.
  exfalso. apply Hr. rewrite elem_of_app, elem_of_cons. auto.
Qed.

Lemma after_last_slash_cons c r :
  ("/"%char ∈ c :: r) → after_last_slash (c :: r) = after_last_slash r.
Proof.
  intros Hin. simpl. destruct (decide (c = "/"%char)) as [->|Hc]; [done|].
  apply elem_of_cons in Hin as [Hin|Hin]; [congruence|].
  by destruct (strstr_is_Some _ _ Hin) as [k ->].
Qed.

Lemma after_last_slash_split s dir base :
  s = dir ++ base → ("/"%char ∉ base) →
  dir = [] ∨ list.last dir = Some "/"%char →
  after_last_slash s = base.
Proof.
  intros -> Hbase. induction dir as [|c dir IH]; intros Hdir.
  - by apply after_last_slash_none.
  - destruct Hdir as [|Hlast]; [done|].
    change ((c :: dir) ++ base) with (c :: (dir ++ base)).
    rewrite after_last_slash_cons.
    + apply IH. destruct dir as [|c' dir]; [by left|right].
      by rewrite last_cons_cons in Hlast.
    + destruct dir as [|c' dir].
      * simpl in Hlast. injection Hlast as ->. apply list_elem_of_here.
      * apply list_elem_of_further, elem_of_app. left.
        rewrite last_cons_cons in Hlast.
        by apply last_Some_elem_of.
Qed.

(** The remote round, with the base name spelled out. *)
Lemma scp_body_remote_exact stat i st b k alias :
  i ≠ 0 →
  argv st !! i = Some b →
  starts_with_dash (cstr b) = false →
  distantFileName st = None ∨ localFileName st = None →
  strstr (cstr b) ":"%char = Some k →
  argc2 st < length (argv2 st) →
  load (argv st) (Ptr 0 0) = Ok alias →
  ∃ d,
    scp_body stat (Ptr 0 0) i st
    = Ok (Scan (<[i := <[k := NUL]> b]> (argv st))
            (<[argc2 st := Str (alias ++ cs "://" ++ take k (cstr b)
                                  ++ cs "/" ++ drop (S k) (cstr b))]> (argv2 st))
            (S (argc2 st)) (localFileName st) (Some d))
    ∧ load (<[i := <[k := NUL]> b]> (argv st)) d
      = Ok (after_last_slash (drop (S k) (cstr b))).
Proof.
  intros Hi Hb Hdash Hunk Hk Hroom Halias.
  destruct (scp_body_remote stat i st b k alias Hi Hb Hdash Hunk Hk Hroom Halias)
    as (d & dir & base & Hbody & Hbase & Hsplit & Hno & Hdir).
  exists d. split; [done|].
  by rewrite (after_last_slash_split _ dir base Hsplit Hno Hdir).
Qed.

Lemma scp_body_upload_exact stat proto i st b :
  argv st !! i = Some b →
  starts_with_dash (cstr b) = false →
  strstr (cstr b) ":"%char = None →
  distantFileName st = None →
  argc2 st + 2 ≤ length (argv2 st) →
  scp_body stat proto i st
  = Ok (Scan (argv st)
          (<[S (argc2 st) := Str (cstr b)]>
             (<[argc2 st := Str (cs "-T")]> (argv2 st)))
          (S (S (argc2 st))) (Some (Ptr i 0)) None).
Proof.
  intros Hb Hdash Hk Hd Hroom.
  unfold scp_body. rewrite (load_head _ _ _ Hb). simpl.
  rewrite Hd. simpl. rewrite Hdash, Hk. simpl.
  unfold store. simpl. rewrite decide_True by lia. simpl.
  rewrite length_insert. rewrite decide_True by lia. simpl.
  by rewrite Hd.
Qed.

Lemma scp_body_download_exact stat proto i st b d base :
  argv st !! i = Some b →
  starts_with_dash (cstr b) = false →
  strstr (cstr b) ":"%char = None →
  distantFileName st = Some d →
  localFileName st = None →
  load (argv st) d = Ok base →
  cstr b ≠ [] →
  argc2 st + 2 ≤ length (argv2 st) →
  scp_body stat proto i st
  = Ok (if bool_decide (cstr b = cs ".")
        then Scan (argv st) (<[argc2 st := Str (cs "-O")]> (argv2 st))
               (S (argc2 st)) (Some (Ptr i 0)) (Some d)
        else Scan (argv st)
               (<[S (argc2 st) := Str (output_name stat (cstr b) base)]>
                  (<[argc2 st := Str (cs "-o")]> (argv2 st)))
               (S (S (argc2 st))) (Some (Ptr i 0)) (Some d)).
Proof.
  intros Hb Hdash Hk Hd Hl Hbase Hne Hroom.
  unfold scp_body, output_name. rewrite (load_head _ _ _ Hb). simpl.
  rewrite Hd, Hl. simpl. rewrite Hdash, Hk. simpl.
  destruct (bool_decide (cstr b = cs ".")) eqn:Hdot; simpl in Hdot |- *; rewrite Hdot.
  - apply bool_decide_eq_true_1 in Hdot. rewrite Hdot. simpl.
    unfold store. simpl. rewrite decide_True by lia. simpl. by rewrite Hd.
  - rewrite andb_false_r.
    unfold store. simpl. rewrite decide_True by lia. simpl.
    destruct (cstr b) as [|c tok] eqn:Htok; [done|].
    cbn [length mbind res_bind].
    assert (Hlast : list.last (c :: tok) = (c :: tok) !! length tok).
    { rewrite last_lookup. done. }
    rewrite Hlast.
    destruct (bool_decide ((c :: tok) !! length tok = Some "/"%char)).
    + rewrite Hbase. simpl. rewrite length_insert.
      rewrite decide_True by lia. simpl. by rewrite Hd.
    + destruct (stat (c :: tok)) as [[|]|]; rewrite ?Hbase; simpl;
        rewrite length_insert; rewrite decide_True by lia; simpl; by rewrite Hd.
Qed.

Lemma strstr_app h c p : c ∉ h → strstr (h ++ c :: p) c = Some (length h).
Proof.
  induction h as [|x h IH]; simpl; intros Hc.
  - by rewrite decide_True.
  - apply not_elem_of_cons in Hc as [Hx Hh].
    rewrite decide_False by congruence. by rewrite IH.
Qed.

Lemma strstr_notin s c : c ∉ s → strstr s c = None.
Proof.
  intros Hc. destruct (strstr s c) as [k|] eqn:H; [|done].
  apply strstr_Some in H as (_ & Heq & _). rewrite Heq in Hc.
  exfalso. apply Hc. rewrite elem_of_app, elem_of_cons. auto.
Qed.

Lemma scp_prefix_0 stat cap args :
  0 < cap →
  scp_prefix stat cap 0 args
  = Ok (Scan args (<[0 := Str (cs "curl")]> (replicate cap Junk)) 1 None None).
Proof. intros H. by rewrite scp_prefix_eq. Qed.

(** The scan of [scp remote local]. *)
Lemma scan_download stat alias host path l :
  NUL ∉ alias → NUL ∉ host → NUL ∉ path → NUL ∉ l →
  starts_with_dash (host ++ ":"%char :: path) = false →
  (":"%char ∉ host) →
  starts_with_dash l = false → (":"%char ∉ l) → l ≠ [] →
  ∃ d mem,
    scp_scan_cap stat 5 3 [alias; host ++ ":"%char :: path; l]
    = Ok (if bool_decide (l = cs ".")
          then Scan mem
                 [Str (cs "curl");
                  Str (alias ++ cs "://" ++ host ++ cs "/" ++ path);
                  Str (cs "-O"); Null; Junk]
                 3 (Some (Ptr 2 0)) (Some d)
          else Scan mem
                 [Str (cs "curl");
                  Str (alias ++ cs "://" ++ host ++ cs "/" ++ path);
                  Str (cs "-o");
                  Str (output_name stat l (after_last_slash path)); Null]
                 4 (Some (Ptr 2 0)) (Some d)).
Proof.
  intros Ha Hh Hp Hl Hdash Hcolon Hldash Hlcolon Hlne.
  set (r := host ++ ":"%char :: path).
  assert (Hr : cstr r = r).
  { apply cstr_id. unfold r. rewrite elem_of_app, elem_of_cons.
    intros [?|[?|?]]; done. }
  assert (Hk : strstr (cstr r) ":"%char = Some (length host))
    by (rewrite Hr; by apply strstr_app).
  assert (Htake : take (length host) (cstr r) = host)
    by (rewrite Hr; unfold r; by rewrite take_app_length).
  assert (Hdrop : drop (S (length host)) (cstr r) = path).
  { rewrite Hr. unfold r. replace (S (length host)) with (length host + 1) by lia.
    by rewrite drop_app_add. }
  unfold scp_scan_cap.
  change (3 - 1) with 2.
  rewrite !scp_prefix_S, scp_prefix_0 by lia. rewrite res_bind_Ok_l.
  set (st0 := Scan [alias; r; l] (<[0 := Str (cs "curl")]> (replicate 5 Junk))
                1 None None).
  assert (Halias : load (argv st0) (Ptr 0 0) = Ok alias).
  { rewrite (load_head _ 0 alias) by done. by rewrite cstr_id. }
  assert (Hroom : argc2 st0 < length (argv2 st0)) by (simpl; lia).
  assert (Hrdash : starts_with_dash (cstr r) = false) by (by rewrite Hr).
  destruct (scp_body_remote_exact stat 1 st0 r (length host) alias
              (Nat.neq_succ_0 0) eq_refl Hrdash (or_introl eq_refl) Hk Hroom Halias)
    as (d & Hbody & Hbase).
  rewrite Hbody, res_bind_Ok_l. simpl in Hbase |- *.
  rewrite Htake, Hdrop in *.
  set (mem := [alias; <[length host := NUL]> r; l]) in *.
  exists d, mem.
  set (st1 := Scan mem _ 2 None (Some d)).
  assert (Hcl : cstr l = l) by (by apply cstr_id).
  assert (Hstep : scp_body stat (Ptr 0 0) 2 st1
            = Ok (if bool_decide (cstr l = cs ".")
                  then Scan (argv st1) (<[argc2 st1 := Str (cs "-O")]> (argv2 st1))
                         (S (argc2 st1)) (Some (Ptr 2 0)) (Some d)
                  else Scan (argv st1)
                         (<[S (argc2 st1) := Str (output_name stat (cstr l)
                                                    (after_last_slash path))]>
                            (<[argc2 st1 := Str (cs "-o")]> (argv2 st1)))
                         (S (S (argc2 st1))) (Some (Ptr 2 0)) (Some d))).
  { apply scp_body_download_exact; rewrite ?Hcl; try done.
    - by apply strstr_notin.
    - simpl. lia. }
  rewrite Hstep, res_bind_Ok_l, Hcl.
  simpl. destruct (bool_decide (l = ["."%char])); reflexivity.
Qed.

Lemma output_name_cases stat l base :
  (list.last l = Some "/"%char → output_name stat l base = l ++ base)
  ∧ (list.last l ≠ Some "/"%char → stat l = Some true →
     output_name stat l base = l ++ cs "/" ++ base)
  ∧ (list.last l ≠ Some "/"%char → stat l ≠ Some true →
     output_name stat l base = l).
Proof.
  unfold output_name. repeat split.
  - intros H. by rewrite bool_decide_eq_true_2.
  - intros H Hs. rewrite bool_decide_eq_false_2 by done. by rewrite Hs.
  - intros H Hs. rewrite bool_decide_eq_false_2 by done.
    by destruct (stat l) as [[|]|].
Qed.

(** X12: the download forms of the header comment, for any names.
    [alias host:path l] becomes [curl alias://host/path -O] when [l] is
    ".", and [curl alias://host/path -o name] otherwise, where [name]
    is [l] followed by the file name of [path] when [l] ends in '/',
    [l], a '/' and that file name when [l] is a directory, and [l]
    itself in every other case. *)
Theorem scp_download_forms E callee w alias host path l :
  NUL ∉ alias → NUL ∉ host → NUL ∉ path → NUL ∉ l →
  starts_with_dash (host ++ ":"%char :: path) = false →
  (":"%char ∉ host) →
  starts_with_dash l = false → (":"%char ∉ l) → l ≠ [] →
  let url := alias ++ cs "://" ++ host ++ cs "/" ++ path in
  let base := after_last_slash path in
  ∃ name args',
    let out := if bool_decide (l = cs ".") then [cs "curl"; url; cs "-O"]
               else [cs "curl"; url; cs "-o"; name] in
    scp_convert E callee 3 [alias; host ++ ":"%char :: path; l] w
    = (callee (length out) out w ≫= λ '(r, w'),
         Ok (args', r, emit (EvFreeArgv2 (Str <$> out)) w'))
    ∧ (list.last l = Some "/"%char → name = l ++ base)
    ∧ (list.last l ≠ Some "/"%char → stat E l = Some true →
       name = l ++ cs "/" ++ base)
    ∧ (list.last l ≠ Some "/"%char → stat E l ≠ Some true → name = l).
Proof.
  intros Ha Hh Hp Hl Hdash Hcolon Hldash Hlcolon Hlne url base.
  destruct (scan_download (stat E) alias host path l) as (d & mem & Hscan); try done.
  exists (output_name (stat E) l base), mem.
  split; [|apply output_name_cases].
  destruct (bool_decide (l = cs ".")) eqn:Hdot.
  - by rewrite (scp_convert_delegates E callee 3 _ w _ [cs "curl"; url; cs "-O"] Hscan).
  - by rewrite (scp_convert_delegates E callee 3 _ w _
                  [cs "curl"; url; cs "-o"; output_name (stat E) l base] Hscan).
Qed.

Lemma scp_download_forms_witness :
  ∃ name args',
    scp_convert all_fine (λ n _ w, Ok (Z.of_nat n, w)) 3
      [cs "scp"; cs "h:r"; cs "l"] boot
    = Ok (args', 4%Z,
          emit (EvFreeArgv2
                  (Str <$> [cs "curl"; cs "scp://h/r"; cs "-o"; name])) boot)
    ∧ name = cs "l".
Proof.
  destruct (scp_download_forms all_fine (λ n _ w, Ok (Z.of_nat n, w)) boot
              (cs "scp") (cs "h") (cs "r") (cs "l"))
    as (name & args' & Hrun & _ & _ & Hname);
    [by_compute | by_compute | by_compute | by_compute | reflexivity
    | by_compute | reflexivity | by_compute | discriminate |].
  exists name, args'. split; [exact Hrun|].
  apply Hname; discriminate.
Defined.

Lemma scan_upload stat alias host path l :
  NUL ∉ alias → NUL ∉ host → NUL ∉ path → NUL ∉ l →
  starts_with_dash (host ++ ":"%char :: path) = false →
  (":"%char ∉ host) →
  starts_with_dash l = false → (":"%char ∉ l) →
  ∃ d mem,
    scp_scan_cap stat 5 3 [alias; l; host ++ ":"%char :: path]
    = Ok (Scan mem
            [Str (cs "curl"); Str (cs "-T"); Str l;
             Str (alias ++ cs "://" ++ host ++ cs "/" ++ path); Null]
            4 (Some (Ptr 1 0)) (Some d)).
Proof.
  intros Ha Hh Hp Hl Hdash Hcolon Hldash Hlcolon.
  set (r := host ++ ":"%char :: path).
  assert (Hr : cstr r = r).
  { apply cstr_id. unfold r. rewrite elem_of_app, elem_of_cons.
    intros [?|[?|?]]; done. }
  assert (Hk : strstr (cstr r) ":"%char = Some (length host))
    by (rewrite Hr; by apply strstr_app).
  assert (Htake : take (length host) (cstr r) = host)
    by (rewrite Hr; unfold r; by rewrite take_app_length).
  assert (Hdrop : drop (S (length host)) (cstr r) = path).
  { rewrite Hr. unfold r. replace (S (length host)) with (length host + 1) by lia.
    by rewrite drop_app_add. }
  assert (Hcl : cstr l = l) by (by apply cstr_id).
  unfold scp_scan_cap. change (3 - 1) with 2.
  rewrite !scp_prefix_S, scp_prefix_0 by lia. rewrite res_bind_Ok_l.
  rewrite (scp_body_upload_exact stat (Ptr 0 0) 1 _ l); try done;
    rewrite ?Hcl; try done; [|by apply strstr_notin | simpl; lia].
  rewrite res_bind_Ok_l.
  set (st1 := Scan _ _ _ _ _).
  assert (Halias : load (argv st1) (Ptr 0 0) = Ok alias).
  { rewrite (load_head _ 0 alias) by done. by rewrite cstr_id. }
  assert (Hroom : argc2 st1 < length (argv2 st1)) by (simpl; lia).
  assert (Hrdash : starts_with_dash (cstr r) = false) by (by rewrite Hr).
  destruct (scp_body_remote_exact stat 2 st1 r (length host) alias
              (Nat.neq_succ_0 1) eq_refl Hrdash (or_introl eq_refl) Hk Hroom Halias)
    as (d & Hbody & Hbase).
  rewrite Hbody, res_bind_Ok_l. simpl. rewrite Htake, Hdrop.
  exists d. eexists. reflexivity.
Qed.

(** X13: the upload form, for any names: [alias l host:path] becomes
    [curl -T l alias://host/path].  The URL is the remote token as it
    stands: no file name is added to it. *)
Theorem scp_upload_form E callee w alias host path l :
  NUL ∉ alias → NUL ∉ host → NUL ∉ path → NUL ∉ l →
  starts_with_dash (host ++ ":"%char :: path) = false →
  (":"%char ∉ host) →
  starts_with_dash l = false → (":"%char ∉ l) →
  let out := [cs "curl"; cs "-T"; l; alias ++ cs "://" ++ host ++ cs "/" ++ path] in
  ∃ args',
    scp_convert E callee 3 [alias; l; host ++ ":"%char :: path] w
    = (callee 4 out w ≫= λ '(r, w'),
         Ok (args', r, emit (EvFreeArgv2 (Str <$> out)) w')).
Proof.
  intros Ha Hh Hp Hl Hdash Hcolon Hldash Hlcolon out.
  destruct (scan_upload (stat E) alias host path l) as (d & mem & Hscan); try done.
  exists mem.
  by rewrite (scp_convert_delegates E callee 3 _ w _ out Hscan).
Qed.

Lemma scp_upload_form_witness :
  ∃ args',
    scp_convert all_fine (λ n _ w, Ok (Z.of_nat n, w)) 3
      [cs "scp"; cs "l"; cs "h:r/"] boot
    = Ok (args', 4%Z,
          emit (EvFreeArgv2
                  (Str <$> [cs "curl"; cs "-T"; cs "l"; cs "scp://h/r/"])) boot).
Proof.
  destruct (scp_upload_form all_fine (λ n _ w, Ok (Z.of_nat n, w)) boot
              (cs "scp") (cs "h") (cs "r/") (cs "l"))
    as (args' & Hrun);
    [by_compute | by_compute | by_compute | by_compute | reflexivity
    | by_compute | reflexivity | by_compute |].
  exists args'. exact Hrun.
Defined.

Lemma remote_token_facts host path :
  NUL ∉ host → NUL ∉ path → (":"%char ∉ host) →
  let r := host ++ ":"%char :: path in
  cstr r = r
  ∧ strstr (cstr r) ":"%char = Some (length host)
  ∧ take (length host) (cstr r) = host
  ∧ drop (S (length host)) (cstr r) = path.
Proof.
  intros Hh Hp Hcolon r.
  assert (Hr : cstr r = r).
  { apply cstr_id. unfold r. rewrite elem_of_app, elem_of_cons.
    intros [?|[?|?]]; done. }
  rewrite Hr. split; [done|]. split; [by apply strstr_app|].
  split; [unfold r; by rewrite take_app_length|].
  unfold r. replace (S (length host)) with (length host + 1) by lia.
  by rewrite drop_app_add.
Qed.

Lemma scan_two_remotes stat alias host1 path1 host2 path2 l :
  NUL ∉ alias → NUL ∉ host1 → NUL ∉ path1 → NUL ∉ host2 → NUL ∉ path2 → NUL ∉ l →
  starts_with_dash (host1 ++ ":"%char :: path1) = false → (":"%char ∉ host1) →
  starts_with_dash (host2 ++ ":"%char :: path2) = false → (":"%char ∉ host2) →
  starts_with_dash l = false → (":"%char ∉ l) → l ≠ [] → l ≠ cs "." →
  ∃ d mem,
    scp_scan_cap stat 6 4
      [alias; host1 ++ ":"%char :: path1; host2 ++ ":"%char :: path2; l]
    = Ok (Scan mem
            [Str (cs "curl");
             Str (alias ++ cs "://" ++ host1 ++ cs "/" ++ path1);
             Str (alias ++ cs "://" ++ host2 ++ cs "/" ++ path2);
             Str (cs "-o");
             Str (output_name stat l (after_last_slash path2)); Null]
            5 (Some (Ptr 3 0)) (Some d)).
Proof.
  intros Ha Hh1 Hp1 Hh2 Hp2 Hl Hdash1 Hcolon1 Hdash2 Hcolon2 Hldash Hlcolon Hlne Hldot.
  destruct (remote_token_facts host1 path1 Hh1 Hp1 Hcolon1) as (Hr1 & Hk1 & Ht1 & Hd1).
  destruct (remote_token_facts host2 path2 Hh2 Hp2 Hcolon2) as (Hr2 & Hk2 & Ht2 & Hd2).
  set (r1 := host1 ++ ":"%char :: path1) in *.
  set (r2 := host2 ++ ":"%char :: path2) in *.
  assert (Hcl : cstr l = l) by (by apply cstr_id).
  assert (Hca : cstr alias = alias) by (by apply cstr_id).
  unfold scp_scan_cap. change (4 - 1) with 3.
  rewrite !scp_prefix_S, scp_prefix_0 by lia. rewrite res_bind_Ok_l.
  set (st0 := Scan _ _ _ _ _).
  assert (Halias0 : load (argv st0) (Ptr 0 0) = Ok alias)
    by (by rewrite (load_head _ 0 alias), Hca).
  assert (Hroom0 : argc2 st0 < length (argv2 st0)) by (simpl; lia).
  assert (Hrdash1 : starts_with_dash (cstr r1) = false) by (by rewrite Hr1).
  destruct (scp_body_remote_exact stat 1 st0 r1 (length host1) alias
              (Nat.neq_succ_0 0) eq_refl Hrdash1 (or_introl eq_refl) Hk1 Hroom0 Halias0)
    as (d1 & Hbody1 & _).
  rewrite Hbody1, res_bind_Ok_l. rewrite Ht1, Hd1. simpl.
  set (st1 := Scan _ _ _ _ _).
  assert (Halias1 : load (argv st1) (Ptr 0 0) = Ok alias)
    by (by rewrite (load_head _ 0 alias), Hca).
  assert (Hroom1 : argc2 st1 < length (argv2 st1)) by (simpl; lia).
  assert (Hrdash2 : starts_with_dash (cstr r2) = false) by (by rewrite Hr2).
  destruct (scp_body_remote_exact stat 2 st1 r2 (length host2) alias
              (Nat.neq_succ_0 1) eq_refl Hrdash2 (or_intror eq_refl) Hk2 Hroom1 Halias1)
    as (d2 & Hbody2 & Hbase2).
  rewrite Hbody2, res_bind_Ok_l. rewrite Ht2, Hd2 in *. simpl in Hbase2 |- *.
  set (st2 := Scan _ _ _ _ _).
  assert (Hstep : scp_body stat (Ptr 0 0) 3 st2
            = Ok (if bool_decide (cstr l = cs ".")
                  then Scan (argv st2) (<[argc2 st2 := Str (cs "-O")]> (argv2 st2))
                         (S (argc2 st2)) (Some (Ptr 3 0)) (Some d2)
                  else Scan (argv st2)
                         (<[S (argc2 st2) := Str (output_name stat (cstr l)
                                                    (after_last_slash path2))]>
                            (<[argc2 st2 := Str (cs "-o")]> (argv2 st2)))
                         (S (S (argc2 st2))) (Some (Ptr 3 0)) (Some d2))).
  { apply scp_body_download_exact; rewrite ?Hcl; try done.
    - by apply strstr_notin.
    - simpl. lia. }
  rewrite Hstep, res_bind_Ok_l, Hcl.
  rewrite bool_decide_eq_false_2 by done.
  exists d2. eexists. reflexivity.
Qed.

(** X14: with two remote tokens before the local one, both become
    URLs and the download is named after the second: the file name
    that follows [-o] is built from the path of the last remote
    token. *)
Theorem scp_last_remote_names_output E callee w alias host1 path1 host2 path2 l :
  NUL ∉ alias → NUL ∉ host1 → NUL ∉ path1 → NUL ∉ host2 → NUL ∉ path2 → NUL ∉ l →
  starts_with_dash (host1 ++ ":"%char :: path1) = false → (":"%char ∉ host1) →
  starts_with_dash (host2 ++ ":"%char :: path2) = false → (":"%char ∉ host2) →
  starts_with_dash l = false → (":"%char ∉ l) → l ≠ [] → l ≠ cs "." →
  let out := [cs "curl";
              alias ++ cs "://" ++ host1 ++ cs "/" ++ path1;
              alias ++ cs "://" ++ host2 ++ cs "/" ++ path2;
              cs "-o";
              output_name (stat E) l (after_last_slash path2)] in
  ∃ args',
    scp_convert E callee 4
      [alias; host1 ++ ":"%char :: path1; host2 ++ ":"%char :: path2; l] w
    = (callee 5 out w ≫= λ '(r, w'),
         Ok (args', r, emit (EvFreeArgv2 (Str <$> out)) w')).
Proof.
  intros Ha Hh1 Hp1 Hh2 Hp2 Hl Hdash1 Hcolon1 Hdash2 Hcolon2 Hldash Hlcolon Hlne
    Hldot out.
  destruct (scan_two_remotes (stat E) alias host1 path1 host2 path2 l)
    as (d & mem & Hscan); try done.
  exists mem.
  by rewrite (scp_convert_delegates E callee 4 _ w _ out Hscan).
Qed.

Lemma scp_last_remote_names_output_witness :
  ∃ args',
    scp_convert all_fine (λ n _ w, Ok (Z.of_nat n, w)) 4
      [cs "scp"; cs "h:a"; cs "g:b"; cs "d/"] boot
    = Ok (args', 5%Z,
          emit (EvFreeArgv2
                  (Str <$> [cs "curl"; cs "scp://h/a"; cs "scp://g/b";
                            cs "-o"; cs "d/b"])) boot).
Proof.
  destruct (scp_last_remote_names_output all_fine
              (λ n _ w, Ok (Z.of_nat n, w)) boot
              (cs "scp") (cs "h") (cs "a") (cs "g") (cs "b") (cs "d/"))
    as (args' & Hrun);
    [by_compute | by_compute | by_compute | by_compute | by_compute
    | by_compute | reflexivity | by_compute | reflexivity | by_compute
    | reflexivity | by_compute | discriminate | discriminate |].
  exists args'. exact Hrun.
Defined.

(** ** The scan against [translate] *)

(** The remote round once more, with the block of the pointer it
    leaves. *)
Lemma scp_body_remote_block stat i st b k alias :
  i ≠ 0 →
  argv st !! i = Some b →
  starts_with_dash (cstr b) = false →
  distantFileName st = None ∨ localFileName st = None →
  strstr (cstr b) ":"%char = Some k →
  argc2 st < length (argv2 st) →
  load (argv st) (Ptr 0 0) = Ok alias →
  ∃ d,
    scp_body stat (Ptr 0 0) i st
    = Ok (Scan (<[i := <[k := NUL]> b]> (argv st))
            (<[argc2 st := Str (alias ++ cs "://" ++ take k (cstr b)
                                  ++ cs "/" ++ drop (S k) (cstr b))]> (argv2 st))
            (S (argc2 st)) (localFileName st) (Some d))
    ∧ blk d = i
    ∧ load (<[i := <[k := NUL]> b]> (argv st)) d
      = Ok (after_last_slash (drop (S k) (cstr b))).
Proof.
  intros Hi Hb Hdash Hunknown Hk Hroom Halias.
  pose proof (strstr_Some _ _ _ Hk) as (Hklen & _ & _).
  pose proof (cstr_length b) as Hblen.
  set (mem := <[i := <[k := NUL]> b]> (argv st)).
  assert (Hmem : mem !! i = Some (<[k := NUL]> b)).
  { apply list_lookup_insert_eq. by eapply lookup_lt_Some. }
  assert (Hpath : load mem (Ptr i (k + 1)) = Ok (drop (S k) (cstr b))).
  { unfold load. simpl. rewrite Hmem, length_insert.
    rewrite decide_True by lia. rewrite Nat.add_1_r.
    rewrite drop_insert_lt by lia. rewrite cstr_drop by lia. done. }
  destruct (skip_dirs_spec (S (length (drop (S k) (cstr b)))) mem
              (Ptr i (k + 1)) _ Hpath)
    as (d & dir & base & Hd & Hblk & Hbase & Hsplit & Hno & Hdir); [lia|].
  destruct (scp_body_remote stat i st b k alias Hi Hb Hdash Hunknown Hk Hroom
              Halias)
    as (d' & dir' & base' & Hbody & _).
  assert (d' = d) as ->.
  { revert Hbody. unfold scp_body. rewrite (load_head _ _ _ Hb). simpl.
    rewrite Hdash. simpl.
    assert (Hboth : bool_decide (is_Some (distantFileName st))
                    && bool_decide (is_Some (localFileName st)) = false).
    { destruct Hunknown as [-> | ->].
      - rewrite bool_decide_eq_false_2; [done | by apply is_Some_None].
      - rewrite (bool_decide_eq_false_2 (is_Some None)) by apply is_Some_None.
        apply andb_false_r. }
    rewrite Hboth, Hk. simpl.
    unfold poke. simpl. rewrite Hb. rewrite decide_True by lia. simpl.
    fold mem. unfold ptr_add. simpl.
    assert (Hproto : load mem (Ptr 0 0) = Ok alias).
    { unfold mem. rewrite load_insert_ne; [done | simpl; lia]. }
    assert (Hhost : load mem (Ptr i 0) = Ok (take k (cstr b))).
    { rewrite (load_head _ _ _ Hmem). by rewrite cstr_insert_NUL. }
    rewrite Hproto, Hhost, Hpath. simpl.
    unfold store. simpl. rewrite decide_True by done. simpl.
    rewrite Hd. simpl. by intros [= ->]. }
  exists d. split; [done|]. split; [done|].
  by rewrite Hbase, (after_last_slash_split _ dir base Hsplit Hno Hdir).
Qed.

(** A token that is passed on. *)
Lemma scp_body_passed_exact stat proto i st st' b :
  argv st !! i = Some b →
  starts_with_dash (cstr b)
  || (bool_decide (is_Some (distantFileName st))
      && bool_decide (is_Some (localFileName st))) = true →
  scp_body stat proto i st = Ok st' →
  st' = Scan (argv st) (<[argc2 st := Str (flag_rewrite (cstr b))]> (argv2 st))
          (S (argc2 st)) (localFileName st) (distantFileName st).
Proof.
  intros Hb Hcond. unfold scp_body. rewrite (load_head _ _ _ Hb). simpl.
  rewrite Hcond. intros H. inv_res. inv_store. by subst.
Qed.

(** "." after the remote file. *)
Lemma scp_body_servername_exact stat proto i st b d :
  argv st !! i = Some b →
  cstr b = cs "." →
  distantFileName st = Some d →
  localFileName st = None →
  argc2 st < length (argv2 st) →
  scp_body stat proto i st
  = Ok (Scan (argv st) (<[argc2 st := Str (cs "-O")]> (argv2 st))
          (S (argc2 st)) (Some (Ptr i 0)) (Some d)).
Proof.
  intros Hb Hdot Hd Hl Hroom.
  unfold scp_body. rewrite (load_head _ _ _ Hb), Hdot. simpl.
  rewrite Hd, Hl. simpl.
  unfold store. simpl. rewrite decide_True by lia. simpl. by rewrite Hd.
Qed.

Lemma known_decide p : known p = bool_decide (is_Some p).
Proof. reflexivity. Qed.

Lemma base_at_known st a base :
  base_at st a base →
  bool_decide (is_Some base) = bool_decide (is_Some (distantFileName st)).
Proof.
  unfold base_at. destruct (distantFileName st) as [d|].
  - intros (_ & name & -> & _).
    rewrite !bool_decide_eq_true_2; [done | eauto | eauto].
  - intros ->. done.
Qed.

Lemma translate_passed stat alias have_local base t toks :
  starts_with_dash t || (bool_decide (is_Some base) && have_local) = true →
  translate stat alias have_local base (t :: toks)
  = flag_rewrite t :: translate stat alias have_local base toks.
Proof. intros H. cbn [translate]. by rewrite H. Qed.

Lemma translate_remote stat alias have_local base t toks k :
  starts_with_dash t || (bool_decide (is_Some base) && have_local) = false →
  strstr t ":"%char = Some k →
  translate stat alias have_local base (t :: toks)
  = (alias ++ cs "://" ++ take k t ++ cs "/" ++ drop (S k) t)
    :: translate stat alias have_local
         (Some (after_last_slash (drop (S k) t))) toks.
Proof. intros H Hk. cbn [translate]. by rewrite H, Hk. Qed.

Lemma translate_upload stat alias have_local t toks :
  starts_with_dash t = false →
  strstr t ":"%char = None →
  translate stat alias have_local None (t :: toks)
  = cs "-T" :: t :: translate stat alias true None toks.
Proof.
  intros H Hk. cbn [translate]. rewrite H, Hk.
  by rewrite (bool_decide_eq_false_2 (is_Some None)) by apply is_Some_None.
Qed.

Lemma translate_download stat alias name t toks :
  starts_with_dash t = false →
  strstr t ":"%char = None →
  translate stat alias false (Some name) (t :: toks)
  = (if bool_decide (t = cs ".") then [cs "-O"]
     else [cs "-o"; output_name stat t name])
    ++ translate stat alias true (Some name) toks.
Proof.
  intros H Hk. cbn [translate]. rewrite H, Hk, andb_false_r. done.
Qed.

(** One round of the loop against one step of [translate]. *)
Lemma scp_body_translate stat alias a st st' b base :
  a ≠ 0 →
  load (argv st) (Ptr 0 0) = Ok alias →
  argv st !! a = Some b →
  base_at st a base →
  scp_body stat (Ptr 0 0) a st = Ok st' →
  ∃ out have_local' base',
    (∀ toks,
       translate stat alias (known (localFileName st)) base (cstr b :: toks)
       = out ++ translate stat alias have_local' base' toks)
    ∧ known (localFileName st') = have_local'
    ∧ base_at st' (S a) base'
    ∧ argc2 st' = argc2 st + length out
    ∧ (∀ j s, out !! j = Some s → argv2 st' !! (argc2 st + j) = Some (Str s))
    ∧ load (argv st') (Ptr 0 0) = Ok alias
    ∧ (∀ j, j ≠ a → argv st' !! j = argv st !! j).
Proof.
  intros Ha Halias Hb Hbase Hbody.
  pose proof (scp_body_argv2 _ _ _ _ _ Hbody) as (Hlt & Hle & Hlen & _).
  pose proof (scp_body_role_sound _ _ _ _ _ _ Hb Hbody) as Hrole.
  cbv zeta in Hrole. destruct Hrole as (Hcount & _ & _ & Hout).
  pose proof (scp_body_block0 _ _ _ _ _ Ha Hbody) as Hblocks.
  assert (Halias' : load (argv st') (Ptr 0 0) = Ok alias).
  { rewrite <- Halias. apply load_ext. simpl. apply Hblocks. lia. }
  pose proof (base_at_known _ _ _ Hbase) as Hknown.
  unfold role_of in Hcount, Hout. rewrite !known_decide in Hcount, Hout.
  assert (Hone : ∀ (l : list cell) n s j t,
            n < length l → [s] !! j = Some t →
            <[n := Str s]> l !! (n + j) = Some (Str t)).
  { intros l n s j t Hn Hj. destruct j as [|j]; [|done]. injection Hj as <-.
    rewrite Nat.add_0_r. by apply list_lookup_insert_eq. }
  assert (Htwo : ∀ (l : list cell) n s1 s2 j t,
            n + 2 ≤ length l → [s1; s2] !! j = Some t →
            <[S n := Str s2]> (<[n := Str s1]> l) !! (n + j) = Some (Str t)).
  { intros l n s1 s2 j t Hn Hj.
    destruct j as [|[|j]]; [| |done]; injection Hj as <-.
    - rewrite Nat.add_0_r. rewrite list_lookup_insert_ne by lia.
      apply list_lookup_insert_eq. lia.
    - rewrite Nat.add_1_r. apply list_lookup_insert_eq.
      rewrite length_insert. lia. }
  destruct (starts_with_dash (cstr b)
            || (bool_decide (is_Some (distantFileName st))
                && bool_decide (is_Some (localFileName st)))) eqn:Hcond.
  - (* passed on *)
    pose proof (scp_body_passed_exact _ _ _ _ _ _ Hb Hcond Hbody) as ->.
    exists [flag_rewrite (cstr b)], (known (localFileName st)), base.
    split.
    { intros toks. apply translate_passed. by rewrite Hknown, known_decide. }
    simpl in *. split; [done|]. split.
    { unfold base_at in *. simpl. destruct (distantFileName st); [|done].
      destruct Hbase as [Hblk Hname]. split; [lia | done]. }
    split; [lia|]. split; [|done].
    intros j s. apply Hone. lia.
  - pose proof Hcond as Hcond'.
    apply orb_false_iff in Hcond' as [Hdash Hboth].
    assert (Hunknown : distantFileName st = None ∨ localFileName st = None).
    { apply andb_false_iff in Hboth as [H|H];
        apply bool_decide_eq_false_1 in H; [left|right];
        by apply eq_None_not_Some. }
    destruct (strstr (cstr b) ":"%char) as [k|] eqn:Hk.
    + (* the remote file *)
      simpl in Hcount.
      destruct (scp_body_remote_block stat a st b k alias Ha Hb Hdash Hunknown
                  Hk ltac:(lia) Halias) as (d & Hrun & Hblk & Hload).
      rewrite Hrun in Hbody. injection Hbody as <-.
      exists [alias ++ cs "://" ++ take k (cstr b) ++ cs "/" ++ drop (S k) (cstr b)],
        (known (localFileName st)),
        (Some (after_last_slash (drop (S k) (cstr b)))).
      split.
      { intros toks. apply translate_remote; [|done].
        by rewrite Hknown, known_decide. }
      simpl in *. split; [done|]. split.
      { unfold base_at. simpl. split; [lia|]. eauto. }
      split; [lia|]. split; [|done].
      intros j s. apply Hone. lia.
    + destruct (distantFileName st) as [d|] eqn:Hd.
      * (* a local path after the remote file *)
        assert (Hl : localFileName st = None) by (by destruct Hunknown).
        unfold base_at in Hbase. rewrite Hd in Hbase.
        destruct Hbase as (Hblk & name & -> & Hname).
        rewrite bool_decide_eq_true_2 in Hcount, Hout by eauto.
        destruct (bool_decide (cstr b = cs ".")) eqn:Hdot.
        -- simpl in Hcount.
           pose proof Hdot as Hdot'. apply bool_decide_eq_true_1 in Hdot'.
           rewrite (scp_body_servername_exact stat _ a st b d Hb Hdot' Hd Hl
                      ltac:(lia)) in Hbody.
           injection Hbody as <-.
           exists [cs "-O"], true, (Some name).
           split.
           { intros toks. rewrite Hl, known_None.
             rewrite (translate_download _ _ _ _ _ Hdash Hk).
             by rewrite Hdot. }
           simpl in *. split; [done|]. split.
           { unfold base_at. simpl. split; [lia|]. eauto. }
           split; [lia|]. split; [|done].
           intros j s. apply Hone. lia.
        -- simpl in Hcount.
           rewrite (scp_body_download_exact stat _ a st b d name Hb Hdash Hk Hd
                      Hl Hname (Hout eq_refl) ltac:(lia)) in Hbody.
           rewrite Hdot in Hbody. injection Hbody as <-.
           exists [cs "-o"; output_name stat (cstr b) name], true, (Some name).
           split.
           { intros toks. rewrite Hl, known_None.
             rewrite (translate_download _ _ _ _ _ Hdash Hk).
             by rewrite Hdot. }
           simpl in *. split; [done|]. split.
           { unfold base_at. simpl. split; [lia|]. eauto. }
           split; [lia|]. split; [|done].
           intros j s. apply Htwo. lia.
      * (* a local path before the remote file *)
        unfold base_at in Hbase. rewrite Hd in Hbase. subst base.
        rewrite (bool_decide_eq_false_2 (is_Some None)) in Hcount
          by apply is_Some_None.
        simpl in Hcount.
        rewrite (scp_body_upload_exact stat _ a st b Hb Hdash Hk Hd ltac:(lia))
          in Hbody.
        injection Hbody as <-.
        exists [cs "-T"; cstr b], true, None.
        split.
        { intros toks. by apply translate_upload. }
        simpl in *. split; [done|]. split; [done|].
        split; [lia|]. split; [|done].
        intros j s. apply Htwo. lia.
Qed.

(** The loop against [translate]. *)
Lemma scp_loop_translate stat alias toks : ∀ a st st' base,
  a ≠ 0 →
  load (argv st) (Ptr 0 0) = Ok alias →
  (∀ k t, toks !! k = Some t → ∃ b, argv st !! (a + k) = Some b ∧ cstr b = t) →
  base_at st a base →
  scp_loop stat (Ptr 0 0) (seq a (length toks)) st = Ok st' →
  let out := translate stat alias (known (localFileName st)) base toks in
  argc2 st' = argc2 st + length out
  ∧ ∀ j s, out !! j = Some s → argv2 st' !! (argc2 st + j) = Some (Str s).
Proof.
  induction toks as [|t toks IH]; intros a st st' base Ha Halias Htoks Hbase.
  - simpl. intros [= <-]. split; [lia | done].
  - intros Hrun out. subst out. simpl in Hrun.
    apply bind_Ok in Hrun as (st1 & Hbody & Hrun).
    destruct (Htoks 0 t eq_refl) as (b & Hb & Ht).
    rewrite Nat.add_0_r in Hb.
    destruct (scp_body_translate stat alias a st st1 b base Ha Halias Hb Hbase
                Hbody)
      as (out & hl & base' & Hstep & Hhl & Hbase' & Hcount & Hcells & Halias'
          & Hblocks).
    destruct (IH (S a) st1 st' base') as [Hcount' Hcells'];
      [lia | done | | done | done |].
    { intros k t' Hk. destruct (Htoks (S k) t' Hk) as (b' & Hb' & Ht').
      exists b'. split; [|done].
      rewrite Hblocks by lia. by rewrite <- Hb', Nat.add_succ_comm. }
    pose proof (scp_loop_argv2 _ _ _ _ _ Hrun) as (_ & _ & Hkeep).
    subst t. cbv zeta in Hcount', Hcells'.
    rewrite Hhl in Hcount', Hcells'. rewrite Hstep, length_app.
    split; [lia|].
    intros j s Hj. destruct (decide (j < length out)) as [Hlt|Hge].
    + rewrite lookup_app_l in Hj by done.
      rewrite Hkeep by lia. by apply Hcells.
    + rewrite lookup_app_r in Hj by lia.
      apply Hcells' in Hj. rewrite <- Hj. f_equal. lia.
Qed.

Lemma Str_fmap_inj (l1 l2 : list (list ascii)) :
  Str <$> l1 = Str <$> l2 → l1 = l2.
Proof.
  revert l2. induction l1 as [|s l1 IH]; intros [|s' l2]; simpl; try done.
  intros H. injection H as Hs Hrest. subst. f_equal. by apply IH.
Qed.

(** X15: the scan computes [translate].  Whenever the scan of a
    command line completes, the list it has built is [curl] followed by
    what [translate] makes of the tokens, a function of the tokens, the
    name the program was called by and [stat] alone; and when both file
    names have been found, [scp_convert] hands exactly this list to
    [curl_main], returns its result and frees the list. *)
Theorem scan_is_translate E callee argc args w st :
  0 < argc ≤ length args →
  scp_scan_cap (stat E) (argc + 2) argc args = Ok st →
  ∃ alias,
    load args (Ptr 0 0) = Ok alias
    ∧ let out := cs "curl"
                 :: translate (stat E) alias false None (tokens argc args) in
      take (argc2 st) (argv2 st) = Str <$> out
      ∧ (is_Some (localFileName st) → is_Some (distantFileName st) →
         scp_convert E callee argc args w
         = (callee (length out) out w ≫= λ '(r, w'),
              Ok (argv st, r, emit (EvFreeArgv2 (Str <$> out)) w'))).
Proof.
  intros Hargc Hst.
  assert (is_Some (args !! 0)) as [b0 Hb0] by (apply lookup_lt_is_Some; lia).
  exists (cstr b0). split; [by apply load_head|].
  destruct (scp_scan_cap_list _ _ _ _ _ Hst)
    as (out0 & Htake & _ & Hn & _ & _ & _).
  assert (Hout : out0 = translate (stat E) (cstr b0) false None (tokens argc args)).
  { pose proof Hst as Hscan. unfold scp_scan_cap in Hscan.
    apply bind_Ok in Hscan as (stn & Hstn & Hnull).
    rewrite scp_prefix_eq in Hstn by lia.
    rewrite <- (tokens_length argc args) in Hstn by lia.
    apply (scp_loop_translate (stat E) (cstr b0) _ 1 _ stn None) in Hstn
      as [Hcount Hcells]; [|lia|by apply load_head| |done].
    2:{ intros k t Hk. by apply tokens_lookup in Hk. }
    simpl in Hcount, Hcells. rewrite known_None in Hcount, Hcells.
    apply store_Ok in Hnull as [Hroom ->]. simpl in *.
    apply list_eq. intros j.
    destruct (translate (stat E) (cstr b0) false None (tokens argc args) !! j)
      as [s|] eqn:Hj.
    - pose proof (lookup_lt_Some _ _ _ Hj) as Hlt.
      apply Hcells in Hj.
      apply (f_equal (λ l, l !! S j)) in Htake.
      rewrite lookup_take_lt in Htake by lia.
      rewrite list_lookup_insert_ne in Htake by lia.
      rewrite Hj in Htake. simpl in Htake.
      rewrite list_lookup_fmap in Htake.
      destruct (out0 !! j); simpl in Htake; [|done]. by injection Htake as <-.
    - apply lookup_ge_None in Hj. apply lookup_ge_None. lia. }
  subst out0. cbv zeta. split; [done|].
  intros Hl Hd.
  destruct (scp_convert_both E callee argc args w st Hst Hl Hd)
    as (out1 & Htake1 & Hn1 & Hrun).
  rewrite Htake in Htake1.
  assert (out1 = translate (stat E) (cstr b0) false None (tokens argc args)) as ->.
  { apply Str_fmap_inj in Htake1. by injection Htake1 as <-. }
  rewrite Hrun, Hn. done.
Qed.

Lemma scan_is_translate_witness :
  ∃ st,
    scp_scan_cap (stat all_fine) (4 + 2) 4
      (cs <$> ["sftp"; "-q"; "u@h:/a/b"; "out/"]%string) = Ok st
    ∧ take (argc2 st) (argv2 st)
      = Str <$> (cs <$> ["curl"; "-s"; "sftp://u@h//a/b"; "-o"; "out/b"]%string).
Proof.
  destruct (scp_scan_cap (stat all_fine) (4 + 2) 4
              (cs <$> ["sftp"; "-q"; "u@h:/a/b"; "out/"]%string))
    as [st|e] eqn:Hst; [|vm_compute in Hst; discriminate Hst].
  assert (Hargc : 0 < 4 ≤ length (cs <$> ["sftp"; "-q"; "u@h:/a/b"; "out/"]%string))
    by (simpl; lia).
  destruct (scan_is_translate all_fine (λ n _ w, Ok (Z.of_nat n, w)) 4 _ boot st
              Hargc Hst) as (alias & Halias & Htake & _).
  injection Halias as <-.
  exists st. split; [reflexivity | exact Htake].
Defined.

(** ** What the scan does to [argv] *)

Lemma role_of_Remote have_local have_remote t :
  role_of have_local have_remote t = Remote
  ↔ starts_with_dash t = false ∧ have_remote && have_local = false
    ∧ ":"%char ∈ t.
Proof.
  unfold role_of.
  destruct (starts_with_dash t); simpl.
  { split; [done | by intros [? _]]. }
  destruct (have_remote && have_local) eqn:Hboth; simpl.
  { split; [done | by intros (_ & ? & _)]. }
  destruct (strstr t ":"%char) as [k|] eqn:Hk.
  - split; [|done]. intros _. split; [done|]. split; [done|].
    apply strstr_Some in Hk as (_ & -> & _).
    rewrite elem_of_app, elem_of_cons. auto.
  - apply strstr_None in Hk. split.
    + destruct have_remote; [destruct (bool_decide _)|]; done.
    + by intros (_ & _ & ?).
Qed.

(** A byte of the string is that byte of the buffer. *)
Lemma cstr_lookup b k c : cstr b !! k = Some c → b !! k = Some c.
Proof.
  revert k. induction b as [|x b IH]; intros k; simpl; [done|].
  destruct (decide (x = NUL)); [done|].
  destruct k as [|k]; simpl; [done | apply IH].
Qed.

(** The cut at the first ':' changes that byte and no other. *)
Lemma cut_at_colon b k :
  strstr (cstr b) ":"%char = Some k →
  b !! k = Some ":"%char
  ∧ <[k := NUL]> b !! k = Some NUL
  ∧ (∀ i, i ≠ k → <[k := NUL]> b !! i = b !! i)
  ∧ cstr (<[k := NUL]> b) = take k (cstr b).
Proof.
  intros Hk. pose proof (strstr_Some _ _ _ Hk) as (Hlt & Heq & _).
  assert (Hb : b !! k = Some ":"%char).
  { apply cstr_lookup. rewrite Heq at 1.
    rewrite lookup_app_r by (rewrite length_take; lia).
    rewrite length_take. replace (k - k `min` length (cstr b)) with 0 by lia.
    done. }
  split; [done|]. split.
  - apply list_lookup_insert_eq. by eapply lookup_lt_Some.
  - split; [|by apply cstr_insert_NUL].
    intros i Hi. by apply list_lookup_insert_ne.
Qed.

(** One round edits its token exactly when it takes it for the remote
    file. *)
Lemma scp_body_argv_exact stat proto i st st' b :
  argv st !! i = Some b →
  scp_body stat proto i st = Ok st' →
  let r := role_of (known (localFileName st)) (known (distantFileName st))
             (cstr b) in
  (r = Remote →
     ∃ k, strstr (cstr b) ":"%char = Some k
          ∧ argv st' = <[i := <[k := NUL]> b]> (argv st))
  ∧ (r ≠ Remote → argv st' = argv st).
Proof.
  intros Hb H r.
  assert (Hr : r = Remote ↔ is_Some (strstr (cstr b) ":"%char)
                            ∧ starts_with_dash (cstr b)
                              || known (distantFileName st)
                                 && known (localFileName st) = false).
  { subst r. rewrite role_of_Remote. split.
    - intros (Hd & Hboth & Hin). split; [by apply strstr_is_Some|].
      by rewrite Hd, Hboth.
    - intros [[k Hk] Hc]. apply orb_false_iff in Hc as [Hd Hboth].
      split; [done|]. split; [done|].
      apply strstr_Some in Hk as (_ & -> & _).
      rewrite elem_of_app, elem_of_cons. auto. }
  split.
  - intros Hrem. apply Hr in Hrem as [[k Hk] Hc].
    exists k. split; [done|].
    unfold scp_body in H. rewrite (load_head _ _ _ Hb) in H.
    rewrite res_bind_Ok_l in H.
    fold (known (distantFileName st)) (known (localFileName st)) in H.
    rewrite Hc, Hk in H. simpl in H. inv_res.
    match goal with
    | Hp : poke _ _ _ = Ok _ |- _ =>
        apply poke_Ok in Hp as (b' & Hb' & _ & ->)
    end.
    simpl in *. assert (b' = b) as -> by congruence.
    inv_store. by subst.
  - intros Hnot.
    destruct (scp_body_argv _ _ _ _ _ H)
      as [?|(b' & k & Hb' & Hdash & Hk & Hcut)]; [done|].
    assert (b' = b) as -> by congruence.
    destruct (starts_with_dash (cstr b)
              || known (distantFileName st) && known (localFileName st))
      eqn:Hc.
    + by rewrite (scp_body_passed_exact _ _ _ _ _ _ Hb Hc H).
    + exfalso. apply Hnot, Hr. split; [eauto | done].
Qed.

(** The scan of the first [n] tokens against [taken_for_remote]. *)
Lemma scp_prefix_edit stat cap n args st j b :
  scp_prefix stat cap n args = Ok st →
  0 < j ≤ n → args !! j = Some b →
  let s := survey_from false false (tokens j args) in
  let r := role_of (has_local s) (has_remote s) (cstr b) in
  (r = Remote →
     ∃ k, strstr (cstr b) ":"%char = Some k
          ∧ argv st !! j = Some (<[k := NUL]> b))
  ∧ (r ≠ Remote → argv st !! j = Some b).
Proof.
  intros Hst Hj Hb s r.
  pose proof (lookup_lt_Some _ _ _ Hb) as Hlen.
  replace n with ((j - 1) + (1 + (n - j))) in Hst by lia.
  rewrite scp_prefix_add in Hst. apply bind_Ok in Hst as (st0 & Hst0 & Hst).
  replace (S (j - 1)) with j in Hst by lia.
  simpl in Hst. apply bind_Ok in Hst as (st1 & Hbody & Hrest).
  (* before round [j] *)
  pose proof (scp_prefix_cap _ _ _ _ _ Hst0) as Hcap.
  destruct (scp_prefix_argv _ _ _ _ _ Hst0) as [_ Hargv0].
  assert (Hb0 : argv st0 !! j = Some b).
  { destruct (Hargv0 j) as [Hout _]. rewrite Hout; [done | right; lia]. }
  rewrite scp_prefix_eq in Hst0 by done.
  rewrite <- (tokens_length j args) in Hst0 by lia.
  apply scp_loop_survey_sound in Hst0 as (_ & _ & Hl & Hd); [|done|].
  2:{ intros k t Hk. by apply tokens_lookup in Hk. }
  simpl in Hl, Hd. rewrite known_None in Hl, Hd. fold s in Hl, Hd.
  (* round [j] *)
  destruct (scp_body_argv_exact _ _ _ _ _ _ Hb0 Hbody) as [Hcut Hkeep].
  rewrite Hl, Hd in Hcut, Hkeep. fold r in Hcut, Hkeep.
  (* after round [j] *)
  destruct (scp_loop_argv _ _ _ _ _ (NoDup_seq _ _) Hrest) as [_ Hafter].
  assert (Hsame : argv st !! j = argv st1 !! j).
  { destruct (Hafter j) as [Hout _]. apply Hout.
    rewrite elem_of_seq. lia. }
  rewrite Hsame. split.
  - intros Hr. destruct (Hcut Hr) as (k & Hk & ->). exists k.
    split; [done|]. apply list_lookup_insert_eq. by eapply lookup_lt_Some.
  - intros Hr. by rewrite (Hkeep Hr).
Qed.

(** C3, as the code has it: [scp_convert] hands back every token of
    [argv] byte for byte as it was, except a token it takes for the
    remote file: one after the program name that does not start with
    '-', holds a ':' and is met before both a local and a remote file
    have been found.  In such a token the byte at its first ':' has been
    overwritten by the terminator, every other byte is as it was, and
    the token then reads as the part before that ':'.  The program name
    is never changed. *)
Theorem scp_convert_edits_only_colon E callee argc args w args' r w' :
  scp_convert E callee argc args w = Ok (args', r, w') →
  length args' = length args
  ∧ args' !! 0 = args !! 0
  ∧ ∀ j b, args !! j = Some b →
      (taken_for_remote argc args j b →
         ∃ k, strstr (cstr b) ":"%char = Some k
              ∧ b !! k = Some ":"%char
              ∧ args' !! j = Some (<[k := NUL]> b)
              ∧ <[k := NUL]> b !! k = Some NUL
              ∧ (∀ i, i ≠ k → <[k := NUL]> b !! i = b !! i)
              ∧ cstr (<[k := NUL]> b) = take k (cstr b))
      ∧ (¬ taken_for_remote argc args j b → args' !! j = Some b).
Proof.
  unfold scp_convert. intros H.
  apply bind_Ok in H as (st & Hst & H).
  apply bind_Ok in H as ([r0 w0] & _ & H). injection H as <- _ _.
  destruct (scp_scan_cap_argv _ _ _ _ _ Hst) as (Hlen & H0 & _).
  split; [done|]. split; [done|].
  intros j b Hb.
  unfold scp_scan_cap in Hst. apply bind_Ok in Hst as (stn & Hstn & Hnull).
  apply store_Ok in Hnull as [_ ->]. simpl.
  unfold taken_for_remote. cbv zeta.
  destruct (decide (0 < j < argc)) as [Hin|Hout].
  - destruct (scp_prefix_edit _ _ _ _ _ j b Hstn ltac:(lia) Hb) as [Hcut Hkeep].
    rewrite role_of_Remote in Hcut, Hkeep. split.
    + intros (_ & Hdash & Hboth & Hcolon).
      destruct Hcut as (k & Hk & Hj); [done|].
      destruct (cut_at_colon b k Hk) as (Hbk & Hnul & Hrest & Hread).
      exists k. done.
    + intros Hnot. apply Hkeep. intros (Hdash & Hboth & Hcolon).
      apply Hnot. done.
  - split; [by intros [? _]|]. intros _.
    destruct (scp_prefix_argv _ _ _ _ _ Hstn) as [_ Hargv].
    destruct (Hargv j) as [Hsame _]. rewrite Hsame; [done|]. lia.
Qed.

Lemma scp_convert_edits_only_colon_witness :
  let args := cs <$> ["scp"; "user@host:~/file.txt"; "local.txt"]%string in
  ∃ args' r w',
    scp_convert all_fine (curl_main all_fine 1) 3 args boot = Ok (args', r, w')
    ∧ args' !! 0 = Some (cs "scp")
    ∧ args' !! 1 = Some (<[9 := NUL]> (cs "user@host:~/file.txt"))
    ∧ args' !! 2 = Some (cs "local.txt").
Proof.
  intros args.
  destruct (scp_convert all_fine (curl_main all_fine 1) 3 args boot)
    as [[[args' r] w']|e] eqn:H; [|vm_compute in H; discriminate H].
  exists args', r, w'. split; [reflexivity|].
  destruct (scp_convert_edits_only_colon _ _ _ _ _ _ _ _ H) as (_ & H0 & Hj).
  split; [exact H0|]. split.
  - destruct (Hj 1 (cs "user@host:~/file.txt") eq_refl) as [Hcut _].
    destruct Hcut as (k & Hk & _ & H1 & _).
    + unfold taken_for_remote. cbv zeta.
      split; [lia|]. split; [reflexivity|]. split; [reflexivity|]. by_compute.
    + vm_compute in Hk. injection Hk as <-. exact H1.
  - destruct (Hj 2 (cs "local.txt") eq_refl) as [_ Hkeep].
    apply Hkeep. unfold taken_for_remote. cbv zeta.
    intros (_ & _ & _ & Hcolon). revert Hcolon. by_compute.
Defined.

(** ** The entry point on a legacy command line *)

(** X16: [curl_main] re-enters itself once at most: the list that
    [scp_convert] hands on starts with [curl], which is neither [scp]
    nor [sftp].  So two levels of fuel give the result of any larger
    number, and that result is never a lack of fuel. *)
Theorem curl_main_two_levels E fuel argc args w :
  curl_main E (S (S fuel)) argc args w = curl_main E 2 argc args w
  ∧ curl_main E (S (S fuel)) argc args w ≠ Undefined OutOfFuel.
Proof. split; [apply curl_main_fuel | apply curl_main_runs]. Qed.

Lemma curl_main_legacy E fuel argc args w :
  legacy args →
  curl_main E (S fuel) argc args w
  = (scp_convert E (curl_main E fuel) argc args w ≫= λ '(_, r, w'), Ok (r, w')).
Proof.
  intros Hleg. rewrite curl_main_S.
  destruct Hleg as [-> | ->]; reflexivity.
Qed.

(** X17: a run under the name [scp] or [sftp] is the run of [curl]
    on the translated list.  When the scan finds both file names,
    [curl_main] initialises, operates on the list that starts with
    [curl] and tears down exactly as for that list given directly, and
    frees the list afterwards; its result is the one of [operate], or
    the one of a failed [main_init]. *)
Theorem legacy_run_is_translated_run E fuel argc args w st :
  legacy args →
  scp_scan_cap (stat E) (argc + 2) argc args = Ok st →
  is_Some (localFileName st) → is_Some (distantFileName st) →
  ∃ out,
    take (argc2 st) (argv2 st) = Str <$> (cs "curl" :: out)
    ∧ curl_main E (S (S fuel)) argc args w
      = let init := main_init E zeroed (emit EvCheckFds w) in
        let freed := EvFreeArgv2 (Str <$> (cs "curl" :: out)) in
        if decide (init.1.1 = 0%Z) then
          let op := operate E init.1.2 (S (length out)) (cs "curl" :: out) in
          Ok (op.2,
              emit freed
                (main_free op.1
                   (emit (EvOperate (S (length out)) (cs "curl" :: out) op.2)
                      init.2)).2)
        else Ok (init.1.1, emit freed init.2).
Proof.
  intros Hleg Hst Hl Hd.
  destruct (scp_convert_both E (curl_main E (S fuel)) argc args w st Hst Hl Hd)
    as (out & Htake & Hargc & Hrun).
  exists out. split; [done|].
  rewrite (curl_main_legacy E (S fuel) argc args w Hleg), Hrun, Hargc.
  rewrite (curl_main_canonical E fuel _ _ w (canonical_curl out)).
  cbv zeta. by destruct (decide _).
Qed.

Lemma legacy_run_is_translated_run_witness :
  ∃ st out,
    scp_scan_cap (stat all_fine) (3 + 2) 3 (cs <$> ["scp"; "h:r"; "l"]%string)
    = Ok st
    ∧ take (argc2 st) (argv2 st) = Str <$> (cs "curl" :: out).
Proof.
  destruct (scp_scan_cap (stat all_fine) (3 + 2) 3
              (cs <$> ["scp"; "h:r"; "l"]%string)) as [st|e] eqn:Hst;
    [|vm_compute in Hst; discriminate Hst].
  assert (Hboth : is_Some (localFileName st) ∧ is_Some (distantFileName st)).
  { vm_compute in Hst. injection Hst as <-. split; eexists; reflexivity. }
  assert (Hleg : legacy (cs <$> ["scp"; "h:r"; "l"]%string))
    by (left; reflexivity).
  destruct (legacy_run_is_translated_run all_fine 0 3
              (cs <$> ["scp"; "h:r"; "l"]%string) boot st
              Hleg Hst (proj1 Hboth) (proj2 Hboth))
    as (out & Htake & _).
  exists st, out. split; [reflexivity | exact Htake].
Defined.

(** X18: a usage failure costs nothing.  When the scan misses one of
    the two file names, [curl_main] under the name [scp] or [sftp]
    returns -1 after three calls, the two lines of the usage text and
    the release of the list: nothing of the engine is initialised,
    [operate] does not run, and the heap of nodes is untouched. *)
Theorem legacy_usage_failure_is_quiet E fuel argc args w st :
  legacy args →
  scp_scan_cap (stat E) (argc + 2) argc args = Ok st →
  localFileName st = None ∨ distantFileName st = None →
  ∃ alias w',
    load args (Ptr 0 0) = Ok alias
    ∧ curl_main E (S fuel) argc args w = Ok ((-1)%Z, w')
    ∧ nodes w' = nodes w
    ∧ since w w'
      = [EvFprintf (usage_download_first alias);
         EvFprintf (usage_upload_first alias);
         EvFreeArgv2 (take (argc2 st) (argv2 st))]
    ∧ acquired (since w w') = []
    ∧ released (since w w') = []
    ∧ operate_calls (since w w') = 0.
Proof.
  intros Hleg Hst Hmiss.
  assert (∃ alias, load args (Ptr 0 0) = Ok alias) as [alias Halias]
    by (destruct Hleg; eauto).
  rewrite (curl_main_legacy E fuel argc args w Hleg).
  unfold scp_convert. rewrite Hst, res_bind_Ok_l.
  assert (Hboth : bool_decide (is_Some (localFileName st))
                  && bool_decide (is_Some (distantFileName st)) = false).
  { destruct Hmiss as [-> | ->].
    - rewrite bool_decide_eq_false_2; [done | by apply is_Some_None].
    - rewrite (bool_decide_eq_false_2 (is_Some None)) by apply is_Some_None.
      apply andb_false_r. }
  rewrite Hboth.
  destruct (scp_scan_cap_argv _ _ _ _ _ Hst) as (_ & H0 & _).
  rewrite (load_ext (argv st) args (Ptr 0 0) H0), Halias. simpl.
  exists alias. eexists. split; [done|]. split; [reflexivity|].
  split; [reflexivity|].
  assert (Hs : ∀ l (a b c : event), drop (length l) (((l ++ [a]) ++ [b]) ++ [c])
                                    = [a; b; c]).
  { intros l a b c. by rewrite <- !app_assoc, drop_app_length. }
  unfold since. simpl. rewrite Hs. done.
Qed.

Lemma legacy_usage_failure_is_quiet_witness :
  ∃ w', curl_main all_fine 1 1 [cs "scp"] boot = Ok ((-1)%Z, w')
        ∧ acquired (since boot w') = [].
Proof.
  destruct (scp_scan_cap (stat all_fine) (1 + 2) 1 [cs "scp"]) as [st|e] eqn:Hst;
    [|vm_compute in Hst; discriminate Hst].
  assert (Hmiss : localFileName st = None ∨ distantFileName st = None).
  { left. vm_compute in Hst. injection Hst as <-. reflexivity. }
  assert (Hleg : legacy [cs "scp"]) by (left; reflexivity).
  destruct (legacy_usage_failure_is_quiet all_fine 0 1 [cs "scp"] boot st
              Hleg Hst Hmiss)
    as (alias & w' & _ & Hrun & _ & _ & Hacq & _).
  exists w'. split; [exact Hrun | exact Hacq].
Defined.

(** X19: a run of [curl] whose initialisation succeeds is balanced.
    When [operate] leaves the handle and the node where [main_init]
    has put them and no string to free, the run acquires the node, the
    engine and the handle and releases them in the opposite order, and
    the node is gone from the heap again. *)
Theorem canonical_run_balanced E fuel argc args w :
  canonical args →
  let init := main_init E zeroed (emit EvCheckFds w) in
  let op := operate E init.1.2 argc args in
  init.1.1 = 0%Z →
  easy op.1 = easy init.1.2 →
  last op.1 = last init.1.2 →
  trace_dump op.1 = None →
  libcurl op.1 = None →
  ∃ w' node h,
    curl_main E (S fuel) argc args w = Ok (op.2, w')
    ∧ acquired (since w w') = [RMem node; REngine; RHandle h]
    ∧ released (since w w') = [RHandle h; REngine; RMem node]
    ∧ nodes w' = delete node (nodes w).
Proof.
  intros Hcan init op Hok Heasy Hlast Htd Hlc.
  rewrite (curl_main_canonical E fuel argc args w Hcan). cbv zeta. fold init.
  rewrite decide_True by done. fold op.
  destruct (main_init_success_state E zeroed (emit EvCheckFds w) Hok)
    as (node & h & _ & _ & He & _ & Hl & _ & _ & Hnode & Hother & Hcalls).
  fold init in He, Hl, Hnode, Hother, Hcalls.
  exists (main_free op.1 (emit (EvOperate argc args op.2) init.2)).2, node, h.
  split; [done|].
  assert (Hlog : log (main_free op.1 (emit (EvOperate argc args op.2) init.2)).2
                 = log w ++ [EvCheckFds]
                   ++ [EvMalloc (Some node); EvGlobalInit 0; EvLibInfo 0;
                       EvEasyInit (Some h); EvConfigInit node]
                   ++ [EvOperate argc args op.2] ++ main_free_calls op.1).
  { rewrite main_free_since, log_emit.
    assert (Hi : log init.2 = (log w ++ [EvCheckFds])
                 ++ [EvMalloc (Some node); EvGlobalInit 0; EvLibInfo 0;
                     EvEasyInit (Some h); EvConfigInit node]).
    { rewrite <- Hcalls. unfold since. simpl.
      rewrite <- (take_drop (length (log w ++ [EvCheckFds])) (log init.2)) at 1.
      f_equal. subst init. rewrite main_init_log. simpl.
      by rewrite take_app_length. }
    rewrite Hi, <- !app_assoc. reflexivity. }
  rewrite (since_app _ _ _ Hlog).
  unfold main_free_calls, free_config_fields_calls. rewrite Heasy, Hlast, He, Hl, Htd, Hlc.
  split; [|split].
  - unfold acquired, frees, closes. rewrite !bind_app. simpl.
    destruct (errors op.1) as [f|], (errors_fopened op.1),
      (trace_stream op.1) as [g|], (trace_fopened op.1); reflexivity.
  - unfold released, frees, closes. rewrite !bind_app. simpl.
    destruct (errors op.1) as [f|], (errors_fopened op.1),
      (trace_stream op.1) as [g|], (trace_fopened op.1); reflexivity.
  - rewrite main_free_nodes, Hlast, Hl. simpl.
    apply map_eq. intros p. destruct (decide (p = node)) as [->|Hp].
    + by rewrite !lookup_delete_eq.
    + rewrite !lookup_delete_ne by done. by apply Hother.
Qed.

Lemma canonical_run_balanced_witness :
  ∃ w' node h,
    curl_main all_fine 1 2 [cs "curl"; cs "http://example.org/"] boot = Ok (5%Z, w')
    ∧ acquired (since boot w') = [RMem node; REngine; RHandle h]
    ∧ released (since boot w') = [RHandle h; REngine; RMem node]
    ∧ nodes w' = delete node (nodes boot).
Proof.
  assert (H : canonical [cs "curl"; cs "http://example.org/"]).
  { exists (cs "curl"). split; [reflexivity|]. split; discriminate. }
  exact (canonical_run_balanced all_fine 0 2 [cs "curl"; cs "http://example.org/"]
           boot H eq_refl eq_refl eq_refl eq_refl eq_refl).
Defined.
